(** * Continuous-aggregate dependency resolver of [timescaledb_report]

    A shallow embedding of the chain resolver ([build_aggregate_chains] and
    [find_path_in_graph] of [report.py]) and of the pure parts of the
    relationship collector ([get_all_continuous_aggregates] of
    [policies.py]), of the functions of the report that use them
    ([format_aggregate_chain] and [get_continuous_aggregates_for_table] of
    [report.py], [get_string] of [strings.py]) and of the health score
    ([get_database_health_score] of [stats.py]), followed by the properties
    established about them. *)

From Stdlib Require Import String Ascii ZArith Lia Bool Arith PeanoNat List.
From Stdlib Require Import Relations DecimalString.
From Stdlib Require Import Sorting.Sorted Sorting.Permutation.
Import ListNotations.
Open Scope string_scope.
Open Scope list_scope.

(** ** Python strings *)

Module PyStr.

(** [needle in hay] on two [str] values: substring containment. *)
Fixpoint contains (needle hay : string) : bool :=
  String.prefix needle hay ||
  match hay with
  | EmptyString => false
  | String _ hay' => contains needle hay'
  end.

(** [s.startswith(p)]. *)
Definition startswith (p s : string) : bool := String.prefix p s.

(** [x in xs] for a list of [str]. *)
Definition mem (x : string) (xs : list string) : bool :=
  existsb (String.eqb x) xs.

End PyStr.

(** ** Python dictionaries with [str] keys

    A [dict] keeps its keys in insertion order; assigning to a key that is
    present replaces the value in place, assigning to a new key appends. *)

Module Dict.

Section Ops.
Context {V : Type}.

Definition t := list (string * V).

(** [d.get(k)] *)
Fixpoint get (k : string) (d : list (string * V)) : option V :=
  match d with
  | [] => None
  | (k', v) :: d' => if String.eqb k' k then Some v else get k d'
  end.

(** [k in d] *)
Definition mem (k : string) (d : list (string * V)) : bool :=
  match get k d with Some _ => true | None => false end.

(** [d.get(k, dflt)] *)
Definition get_default (k : string) (dflt : V) (d : list (string * V)) : V :=
  match get k d with Some v => v | None => dflt end.

(** [d[k] = v] *)
Fixpoint set (k : string) (v : V) (d : list (string * V)) : list (string * V) :=
  match d with
  | [] => [(k, v)]
  | (k', v') :: d' =>
      if String.eqb k' k then (k, v) :: d' else (k', v') :: set k v d'
  end.

(** [list(d.keys())] *)
Definition keys (d : list (string * V)) : list string := map fst d.

End Ops.

Arguments t : clear implicits.

End Dict.

(** ** The path finder ([report.py], [find_path_in_graph]) *)

(** A dependency graph: node name to the ordered list of its dependants. *)
Definition DependencyGraph := Dict.t (list string).

(** Truth value of what [find_path_in_graph] returns: [None] and the empty
    list are false. *)
Definition truthy_path (r : option (list string)) : bool :=
  match r with
  | Some (_ :: _) => true
  | _ => false
  end.

(** The [for node in graph.get(start, [])] loop, given the recursive call. *)
Fixpoint try_neighbors (rec : string -> option (option (list string)))
    (path : list string) (nodes : list string)
  : option (option (list string)) :=
  match nodes with
  | [] => Some None
  | node :: rest =>
      if negb (PyStr.mem node path) then
        match rec node with
        | None => None
        | Some new_path =>
            if truthy_path new_path then Some new_path
            else try_neighbors rec path rest
        end
      else try_neighbors rec path rest
  end.

(** One unit of fuel per call; the outer [None] means the fuel ran out.
    The [path] argument is the caller's list ([None] stands for the
    default). *)
Fixpoint find_path_fuel (fuel : nat) (graph : DependencyGraph)
    (start end_ : string) (path : option (list string))
  : option (option (list string)) :=
  match fuel with
  | O => None
  | S fuel' =>
      let path0 := match path with None => [] | Some p => p end in
      let path1 := path0 ++ [start] in
      if String.eqb start end_ then Some (Some path1)
      else if negb (Dict.mem start graph) then Some None
      else
        try_neighbors
          (fun node => find_path_fuel fuel' graph node end_ (Some path1))
          path1 (Dict.get_default start [] graph)
  end.

(** The list a call starts from: the caller's path, or the empty default. *)
Definition path_so_far (path : option (list string)) : list string :=
  match path with None => [] | Some p => p end.

(** All the names that occur in adjacency lists. *)
Definition graph_targets (graph : DependencyGraph) : list string :=
  concat (map snd graph).

(** Targets of the graph not yet on a path. *)
Definition unvisited (graph : DependencyGraph) (path : list string) : list string :=
  filter (fun n => negb (PyStr.mem n path)) (graph_targets graph).

(** [find_path_in_graph(graph, start, end, path)]: the recursion is run with
    more fuel than any query needs (see [find_path_fuel_enough]). *)
Definition find_path_in_graph (graph : DependencyGraph)
    (start end_ : string) (path : option (list string))
  : option (list string) :=
  match find_path_fuel (S (length (graph_targets graph))) graph start end_ path with
  | Some r => r
  | None => None
  end.

(** ** The chain resolver ([report.py], [build_aggregate_chains]) *)

(** [agg_chain[table]]: a dict with the keys ['direct'] and ['indirect']. *)
Definition Aggregates := Dict.t (list string).
Definition AggChain := Dict.t Aggregates.
Definition ViewDefinitions := Dict.t string.

(** The dict [{'level': .., 'source': .., 'children': [..]}]. *)
Record ChainEntry := mkEntry {
  level : Z;
  source : string;
  children : list string
}.

Definition Chain := Dict.t ChainEntry.
Definition CompleteChains := Dict.t Chain.

(** A failed subscript ([KeyError], [IndexError]) is [None]. *)
Definition bind {A B} (m : option A) (f : A -> option B) : option B :=
  match m with
  | Some a => f a
  | None => None
  end.

Notation "x <- m ;; k" := (bind m (fun x => k))
  (at level 61, m at next level, right associativity).

(** A [for] loop whose body can raise. *)
Fixpoint for_each {S A} (body : S -> A -> option S) (xs : list A) (s : S) : option S :=
  match xs with
  | [] => Some s
  | x :: xs' => s' <- body s x ;; for_each body xs' s'
  end.

(** [entry['children'].append(child)] *)
Definition add_child (e : ChainEntry) (child : string) : ChainEntry :=
  mkEntry (level e) (source e) (children e ++ [child]).

(** [view in view_definitions and name in view_definitions[view]] *)
Definition def_contains (view_definitions : ViewDefinitions) (view name : string) : bool :=
  match Dict.get view view_definitions with
  | Some definition => PyStr.contains name definition
  | None => false
  end.

(** Line 84: a direct aggregate is seeded at level 1. *)
Definition seed_direct (table : string) (chain : Chain) (agg : string) : Chain :=
  Dict.set agg (mkEntry 1 table []) chain.

(** Lines 91-108, the body of [for direct in direct_aggs]. *)
Definition place_on_direct (view_definitions : ViewDefinitions) (indirect : string)
    (chain : Chain) (direct : string) : Chain :=
  if def_contains view_definitions indirect direct then
    match Dict.get direct chain with
    | Some e =>
        Dict.set indirect (mkEntry 2 direct [])
          (Dict.set direct (add_child e indirect) chain)
    | None => chain
    end
  else chain.

(** Lines 111-129, the body of [for level2_agg in indirect_aggs]. *)
Definition place_on_level2 (view_definitions : ViewDefinitions) (indirect : string)
    (chain : Chain) (level2_agg : string) : Chain :=
  if negb (String.eqb indirect level2_agg)
     && def_contains view_definitions indirect level2_agg then
    match Dict.get level2_agg chain with
    | Some e =>
        Dict.set indirect (mkEntry 3 level2_agg [])
          (Dict.set level2_agg (add_child e indirect) chain)
    | None => chain
    end
  else chain.

Definition step2_loop (view_definitions : ViewDefinitions) (indirect : string)
    (direct_aggs : list string) (chain : Chain) : Chain :=
  fold_left (place_on_direct view_definitions indirect) direct_aggs chain.

Definition step3_loop (view_definitions : ViewDefinitions) (indirect : string)
    (indirect_aggs : list string) (chain : Chain) : Chain :=
  fold_left (place_on_level2 view_definitions indirect) indirect_aggs chain.

(** Lines 88-129, the body of [for indirect in indirect_aggs]. *)
Definition place_indirect (view_definitions : ViewDefinitions)
    (direct_aggs indirect_aggs : list string) (chain : Chain) (indirect : string) : Chain :=
  step3_loop view_definitions indirect indirect_aggs
    (step2_loop view_definitions indirect direct_aggs chain).

(** Lines 69-129, the body of [for table, aggregates in agg_chain.items()];
    [chain] is the dict [complete_chains[table]], created empty when the
    table has none yet. *)
Definition process_table (view_definitions : ViewDefinitions)
    (complete_chains : CompleteChains) (item : string * Aggregates) : CompleteChains :=
  let (table, aggregates) := item in
  let direct_aggs := Dict.get_default "direct" [] aggregates in
  let indirect_aggs := Dict.get_default "indirect" [] aggregates in
  match direct_aggs with
  | [] => complete_chains
  | _ :: _ =>
      let chain := Dict.get_default table [] complete_chains in
      let chain := fold_left (seed_direct table) direct_aggs chain in
      let chain :=
        fold_left (place_indirect view_definitions direct_aggs indirect_aggs)
          indirect_aggs chain in
      Dict.set table chain complete_chains
  end.

(** Lines 148-167, the body of [for other_view in views]. *)
Definition reconcile_pair (view_def view : string) (chain : Chain)
    (other_view : string) : option Chain :=
  if negb (String.eqb view other_view) && PyStr.contains other_view view_def then
    o <- Dict.get other_view chain ;;
    let new_level := (level o + 1)%Z in
    v <- Dict.get view chain ;;
    if (level v <? new_level)%Z then
      let chain := Dict.set view (mkEntry new_level other_view (children v)) chain in
      o <- Dict.get other_view chain ;;
      if negb (PyStr.mem view (children o)) then
        Some (Dict.set other_view (add_child o view) chain)
      else Some chain
    else Some chain
  else Some chain.

(** Lines 136-167 for one table. *)
Definition reconcile_chain (view_definitions : ViewDefinitions) (chain : Chain)
  : option Chain :=
  let views := Dict.keys chain in
  for_each
    (fun chain view =>
       let view_def := Dict.get_default view "" view_definitions in
       for_each (reconcile_pair view_def view) views chain)
    views chain.

(** Lines 134-167. *)
Definition reconcile (view_definitions : ViewDefinitions)
    (complete_chains : CompleteChains) : option CompleteChains :=
  for_each
    (fun cc table =>
       chain <- Dict.get table cc ;;
       chain <- reconcile_chain view_definitions chain ;;
       Some (Dict.set table chain cc))
    (Dict.keys complete_chains) complete_chains.

(** [path[-2]] *)
Definition second_to_last (path : list string) : option string :=
  if (length path <? 2)%nat then None else nth_error path (length path - 2).

(** Lines 174-192, the body of [for view_name in list(...keys())]. *)
Definition graph_fix_view (graph : DependencyGraph) (table : string)
    (chain : Chain) (view_name : string) : option Chain :=
  if String.eqb view_name table then Some chain
  else
    let path := find_path_in_graph graph table view_name None in
    match path with
    | Some ((_ :: _) as p) =>
        e <- Dict.get view_name chain ;;
        let e := mkEntry (Z.of_nat (length p) - 1) (source e) (children e) in
        if (2 <? length p)%nat then
          src <- second_to_last p ;;
          Some (Dict.set view_name (mkEntry (level e) src (children e)) chain)
        else Some (Dict.set view_name e chain)
    | _ => Some chain
    end.

(** Lines 172-192. *)
Definition graph_correct (graph : DependencyGraph)
    (complete_chains : CompleteChains) : option CompleteChains :=
  for_each
    (fun cc table =>
       chain <- Dict.get table cc ;;
       chain <- for_each (graph_fix_view graph table) (Dict.keys chain) chain ;;
       Some (Dict.set table chain cc))
    (Dict.keys complete_chains) complete_chains.

(** [build_aggregate_chains(agg_chain, view_definitions, dependency_graph)];
    [None] for the graph is the default argument, and an empty graph is as
    false as [None] in [if dependency_graph]. *)
Definition build_aggregate_chains (agg_chain : AggChain)
    (view_definitions : ViewDefinitions) (dependency_graph : option DependencyGraph)
  : option CompleteChains :=
  let complete_chains := fold_left (process_table view_definitions) agg_chain [] in
  complete_chains <- reconcile view_definitions complete_chains ;;
  match dependency_graph with
  | Some ((_ :: _) as graph) => graph_correct graph complete_chains
  | _ => Some complete_chains
  end.

(** ** The relationship collector ([policies.py],
    [get_all_continuous_aggregates]), from the rows its queries return *)

(** A relationship row: a dict of column name to text. *)
Definition Row := Dict.t string.

(** Lines 324-336, the body of [for row in direct_aggs]. *)
Definition add_direct_row (st : list Row * AggChain) (row : Row)
  : option (list Row * AggChain) :=
  let (result, agg_chain) := st in
  let result := result ++ [row] in
  table_name <- Dict.get "raw_table_name" row ;;
  agg_name <- Dict.get "agg_view_name" row ;;
  let agg_chain :=
    if negb (Dict.mem table_name agg_chain)
    then Dict.set table_name [("direct", []); ("indirect", [])] agg_chain
    else agg_chain in
  aggs <- Dict.get table_name agg_chain ;;
  d <- Dict.get "direct" aggs ;;
  Some (result, Dict.set table_name (Dict.set "direct" (d ++ [agg_name]) aggs) agg_chain).

(** Lines 339-352: one chained row per ordered pair of distinct views where
    the second one's name occurs in the first one's definition. *)
Definition find_chained (view_definitions : ViewDefinitions) : list Row :=
  flat_map
    (fun '(view_name, definition) =>
       flat_map
         (fun other_view_name =>
            if negb (String.eqb view_name other_view_name)
               && PyStr.contains other_view_name definition
            then [[("raw_table_name", other_view_name);
                   ("agg_view_name", view_name);
                   ("relationship_type", "chained")]]
            else [])
         (Dict.keys view_definitions))
    view_definitions.

(** Lines 373-377 and 391-396: [target] joins the indirect aggregates of
    [base_table] unless it is there; the flag tells whether it was added. *)
Definition link_indirect (target : string) (agg_chain : AggChain) (base_table : string)
  : option (AggChain * bool) :=
  aggs <- Dict.get base_table agg_chain ;;
  let aggs := if negb (Dict.mem "indirect" aggs) then Dict.set "indirect" [] aggs else aggs in
  ind <- Dict.get "indirect" aggs ;;
  if negb (PyStr.mem target ind)
  then Some (Dict.set base_table (Dict.set "indirect" (ind ++ [target]) aggs) agg_chain, true)
  else Some (Dict.set base_table aggs agg_chain, false).

(** Lines 355-377, the body of [for chain in chained_aggs]. *)
Definition process_chained (st : list Row * AggChain) (chain : Row)
  : option (list Row * AggChain) :=
  let (result, agg_chain) := st in
  source <- Dict.get "raw_table_name" chain ;;
  target <- Dict.get "agg_view_name" chain ;;
  let result :=
    result ++ [[("raw_table", source); ("raw_table_name", source);
                ("agg_view", target); ("agg_view_name", target);
                ("relationship_type", "chained")]] in
  agg_chain <-
    for_each
      (fun agg_chain base_table =>
         aggs <- Dict.get base_table agg_chain ;;
         d <- Dict.get "direct" aggs ;;
         if PyStr.mem source d then
           r <- link_indirect target agg_chain base_table ;; Some (fst r)
         else Some agg_chain)
      (Dict.keys agg_chain) agg_chain ;;
  Some (result, agg_chain).

(** Lines 383-396, one pass of the deep-chain loop; the number counts the
    links added ([chains_found]). *)
Definition deep_pass (chained_aggs : list Row) (agg_chain : AggChain)
  : option (AggChain * nat) :=
  for_each
    (fun st chain =>
       source <- Dict.get "raw_table_name" chain ;;
       target <- Dict.get "agg_view_name" chain ;;
       for_each
         (fun (st : AggChain * nat) base_table =>
            let (agg_chain, chains_found) := st in
            aggs <- Dict.get base_table agg_chain ;;
            if PyStr.mem source (Dict.get_default "indirect" [] aggs) then
              r <- link_indirect target agg_chain base_table ;;
              Some (fst r, if snd r then S chains_found else chains_found)
            else Some st)
         (Dict.keys (fst st)) st)
    chained_aggs (agg_chain, 0).

(** Lines 381-399: [for _ in range(passes)] with its [break]. *)
Fixpoint deep_passes (passes : nat) (chained_aggs : list Row) (agg_chain : AggChain)
  : option AggChain :=
  match passes with
  | O => Some agg_chain
  | S passes' =>
      r <- deep_pass chained_aggs agg_chain ;;
      if Nat.eqb (snd r) 0 then Some (fst r)
      else deep_passes passes' chained_aggs (fst r)
  end.

(** Lines 408-411: the edge [source -> target] is added to the graph. *)
Definition add_edge (graph : DependencyGraph) (source target : string) : DependencyGraph :=
  let graph := if negb (Dict.mem source graph) then Dict.set source [] graph else graph in
  let targets := Dict.get_default source [] graph in
  if negb (PyStr.mem target targets)
  then Dict.set source (targets ++ [target]) graph
  else graph.

(** Lines 403-411, the body of [for row in result]. *)
Definition graph_step (graph : DependencyGraph) (row : Row) : DependencyGraph :=
  match Dict.get "raw_table_name" row, Dict.get "agg_view_name" row with
  | Some source, Some target => add_edge graph source target
  | _, _ => graph
  end.

(** Lines 402-412 from a given graph, and from the empty one as the code
    starts. *)
Definition build_graph_from (graph : DependencyGraph) (result : list Row) : DependencyGraph :=
  fold_left graph_step result graph.

Definition build_graph (result : list Row) : DependencyGraph :=
  build_graph_from [] result.

(** A row of the catalog query of lines 417-429; only these two columns
    are read. *)
Record CaggRow := mkCagg {
  raw_id : Z;
  view_name : string
}.

(** [list.sort()] on [str] values: ascending, compared character by
    character. *)
Fixpoint sort_insert (x : string) (xs : list string) : list string :=
  match xs with
  | [] => [x]
  | y :: ys => if String.leb x y then x :: y :: ys else y :: sort_insert x ys
  end.

Fixpoint sort_strings (xs : list string) : list string :=
  match xs with
  | [] => []
  | x :: xs' => sort_insert x (sort_strings xs')
  end.

(** Lines 450-457. *)
Definition health_views_of (caggs : list CaggRow) : list string :=
  sort_strings
    (filter (PyStr.startswith "health_metrics_") (map view_name caggs)).

(** Lines 463-474, the body of [for i in range(1, len(health_views))]. *)
Definition add_health_link (health_views : list string) (agg_chain : AggChain) (i : nat)
  : option AggChain :=
  current <- nth_error health_views i ;;
  aggs <- Dict.get "health_metrics_raw" agg_chain ;;
  if negb (PyStr.mem current (Dict.get_default "direct" [] aggs))
     && negb (PyStr.mem current (Dict.get_default "indirect" [] aggs)) then
    let aggs :=
      if negb (Dict.mem "indirect" aggs) then Dict.set "indirect" [] aggs else aggs in
    ind <- Dict.get "indirect" aggs ;;
    Some (Dict.set "health_metrics_raw"
            (Dict.set "indirect" (ind ++ [current]) aggs) agg_chain)
  else Some agg_chain.

(** Lines 431-474: the health-metrics special case. *)
Definition health_metrics_chain (caggs : list CaggRow) (agg_chain : AggChain)
  : option AggChain :=
  match caggs with
  | [] => Some agg_chain
  | _ :: _ =>
      let health_views := health_views_of caggs in
      if (2 <=? length health_views)%nat then
        if Dict.mem "health_metrics_raw" agg_chain then
          for_each (add_health_link health_views)
            (seq 1 (length health_views - 1)) agg_chain
        else Some agg_chain
      else Some agg_chain
  end.

(** What [get_all_continuous_aggregates] returns (the materialized-table
    map plays no part in the chains). *)
Record Collected := mkCollected {
  agg_relationships : list Row;
  agg_chain_of : AggChain;
  view_definitions_of : ViewDefinitions;
  dependency_graph_of : DependencyGraph
}.

(** Steps 3 to 7 of [get_all_continuous_aggregates], on the rows of the
    direct-relationship query, the view definitions gathered by step 1 and
    the rows of the catalog query of step 7. *)
Definition get_all_continuous_aggregates (direct_aggs : list Row)
    (view_definitions : ViewDefinitions) (caggs : list CaggRow) : option Collected :=
  st <- for_each add_direct_row direct_aggs ([], []) ;;
  let chained_aggs := find_chained view_definitions in
  st <- for_each process_chained chained_aggs st ;;
  let (result, agg_chain) := st in
  agg_chain <- deep_passes 3 chained_aggs agg_chain ;;
  let graph := build_graph result in
  agg_chain <- health_metrics_chain caggs agg_chain ;;
  Some (mkCollected result agg_chain view_definitions graph).

(** ** The scenarios used below *)

Module Scenario.

Definition direct_row (table agg : string) : Row :=
  [("raw_table", "public." ++ table); ("raw_table_name", table);
   ("agg_view", "public." ++ agg); ("agg_view_name", agg);
   ("relationship_type", "direct")]%string.

(** raw -> agg_1min -> agg_1hour -> agg_1day *)
Definition three_level_defs : ViewDefinitions :=
  [("agg_1min", "SELECT time_bucket('1 minute', ts) AS b, avg(v) FROM raw GROUP BY b");
   ("agg_1hour", "SELECT time_bucket('1 hour', b) AS h, avg(v) FROM agg_1min GROUP BY h");
   ("agg_1day", "SELECT time_bucket('1 day', h) AS d, avg(v) FROM agg_1hour GROUP BY d")].

Definition line_graph : DependencyGraph :=
  [("A", ["B"]); ("B", ["C"]); ("C", [])].

Definition cycle_graph : DependencyGraph :=
  [("A", ["B"]); ("B", ["A"])].

(** A view that the definitions place at level 2 and the graph at level 3:
  raw -> agg_a -> agg_b -> agg_c, where the text of agg_c names agg_a. *)
Definition override_chain : AggChain :=
[("raw", [("direct", ["agg_a"]); ("indirect", ["agg_c"])])].

Definition override_defs : ViewDefinitions :=
[("agg_c", "SELECT b, sum(n) FROM agg_b GROUP BY b -- rollup of agg_a")].

Definition override_graph : DependencyGraph :=
[("raw", ["agg_a"]); ("agg_a", ["agg_b"]); ("agg_b", ["agg_c"])].

(** An indirect aggregate whose definition reads the materialized
  hypertable of its source, so that it names no other view. *)
Definition unmatched_chain : AggChain :=
[("health_metrics_raw",
  [("direct", ["health_metrics_1min"]); ("indirect", ["health_metrics_1hour"])])].

Definition unmatched_defs : ViewDefinitions :=
[("health_metrics_1min",
  "SELECT time_bucket('1 minute', ts) AS b, avg(v) FROM health_metrics_raw GROUP BY b");
 ("health_metrics_1hour",
  "SELECT time_bucket('1 hour', b) AS h, avg(v) FROM _timescaledb_internal._materialized_hypertable_2 GROUP BY h")].

(** An indirect aggregate whose definition names two direct aggregates. *)
Definition tie_chain : AggChain :=
[("raw", [("direct", ["agg_a"; "agg_b"]); ("indirect", ["agg_c"])])].

Definition tie_defs : ViewDefinitions :=
[("agg_c", "SELECT a.b, a.n + b.n FROM agg_a a JOIN agg_b b USING (b)")].

(** A continuous aggregate that has the name of its hypertable (it lives
  in another schema). *)
Definition self_chain : AggChain :=
[("metrics", [("direct", ["metrics"]); ("indirect", [])])].

End Scenario.

(** ** The resolver over an explicit object store

    The same two functions of [report.py], written against a heap of
    Python objects, so that a list or a dict is a reference that can be
    shared and mutated in place.  Lists hold [str] values, dict keys are
    [str] values. *)

Module Store.

Inductive value :=
| VNone
| VInt (n : Z)
| VStr (s : string)
| VRef (l : nat).

Inductive object :=
| OList (items : list string)
| ODict (items : Dict.t value).

(** Objects by address; a new object gets the next address. *)
Definition heap := list object.

(** A computation returns a result or raises ([None]), and in both cases
    leaves a heap. *)
Definition M (A : Type) := heap -> option A * heap.

Definition ret {A} (a : A) : M A := fun h => (Some a, h).

Definition raise {A} : M A := fun h => (None, h).

Definition mbind {A B} (m : M A) (f : A -> M B) : M B :=
  fun h =>
    match m h with
    | (Some a, h') => f a h'
    | (None, h') => (None, h')
    end.

Notation "x <-- m ;; k" := (mbind m (fun x => k))
  (at level 61, m at next level, right associativity).
Notation "m ;;; k" := (mbind m (fun _ => k))
  (at level 61, right associativity).

Definition alloc (o : object) : M nat :=
  fun h => (Some (length h), h ++ [o]).

Definition load (l : nat) : M object :=
  fun h => (nth_error h l, h).

(** The heap with the object at address [l] replaced. *)
Fixpoint replace (l : nat) (o : object) (h : heap) : heap :=
  match h, l with
  | [], _ => []
  | _ :: h', O => o :: h'
  | x :: h', S l' => x :: replace l' o h'
  end.

Definition store (l : nat) (o : object) : M unit :=
  fun h =>
    if (l <? length h)%nat
    then (Some tt, replace l o h)
    else (None, h).

Fixpoint for_eachM {A} (body : A -> M unit) (xs : list A) : M unit :=
  match xs with
  | [] => ret tt
  | x :: xs' => body x ;;; for_eachM body xs'
  end.

(** *** Operations on values *)

Definition new_list (items : list string) : M value :=
  l <-- alloc (OList items) ;; ret (VRef l).

Definition new_dict (items : Dict.t value) : M value :=
  l <-- alloc (ODict items) ;; ret (VRef l).

Definition load_list (v : value) : M (list string) :=
  match v with
  | VRef l => o <-- load l ;; match o with OList xs => ret xs | _ => raise end
  | _ => raise
  end.

Definition load_dict (v : value) : M (Dict.t value) :=
  match v with
  | VRef l => o <-- load l ;; match o with ODict d => ret d | _ => raise end
  | _ => raise
  end.

Definition as_str (v : value) : M string :=
  match v with VStr s => ret s | _ => raise end.

Definition as_int (v : value) : M Z :=
  match v with VInt n => ret n | _ => raise end.

(** [d[k]] *)
Definition dict_getitem (d : value) (k : string) : M value :=
  items <-- load_dict d ;;
  match Dict.get k items with Some v => ret v | None => raise end.

(** [k in d] *)
Definition dict_contains (d : value) (k : string) : M bool :=
  items <-- load_dict d ;; ret (Dict.mem k items).

(** [list(d.keys())] *)
Definition dict_keys (d : value) : M (list string) :=
  items <-- load_dict d ;; ret (Dict.keys items).

(** [d[k] = v] *)
Definition dict_setitem (d : value) (k : string) (v : value) : M unit :=
  items <-- load_dict d ;;
  match d with
  | VRef l => store l (ODict (Dict.set k v items))
  | _ => raise
  end.

(** [xs.append(x)] *)
Definition list_append (xs : value) (x : string) : M unit :=
  items <-- load_list xs ;;
  match xs with
  | VRef l => store l (OList (items ++ [x]))
  | _ => raise
  end.

(** [d.get(k, [])] *)
Definition get_or_empty (d : value) (k : string) : M value :=
  items <-- load_dict d ;;
  match Dict.get k items with Some v => ret v | None => new_list [] end.

(** Truth value of an object in an [if]. *)
Definition truthy (v : value) : M bool :=
  match v with
  | VNone => ret false
  | VInt n => ret (negb (Z.eqb n 0))
  | VStr s => ret (negb (String.eqb s ""))
  | VRef l =>
      o <-- load l ;;
      match o with
      | OList xs => ret (match xs with [] => false | _ => true end)
      | ODict d => ret (match d with [] => false | _ => true end)
      end
  end.

(** *** [find_path_in_graph] *)

Fixpoint try_neighbors (rec : string -> M value) (path : value) (nodes : list string)
  : M value :=
  match nodes with
  | [] => ret VNone
  | node :: rest =>
      p <-- load_list path ;;
      if negb (PyStr.mem node p) then
        new_path <-- rec node ;;
        t <-- truthy new_path ;;
        if t then ret new_path else try_neighbors rec path rest
      else try_neighbors rec path rest
  end.

Fixpoint find_path_in_graph (fuel : nat) (graph : value) (start end_ : string)
    (path : value) : M value :=
  match fuel with
  | O => raise
  | S fuel' =>
      path <-- match path with VNone => new_list [] | _ => ret path end ;;
      p <-- load_list path ;;
      path <-- new_list (p ++ [start]) ;;
      if String.eqb start end_ then ret path
      else
        present <-- dict_contains graph start ;;
        if negb present then ret VNone
        else
          neighbors <-- get_or_empty graph start ;;
          nodes <-- load_list neighbors ;;
          try_neighbors
            (fun node => find_path_in_graph fuel' graph node end_ path)
            path nodes
  end.

(** *** [build_aggregate_chains] *)

(** [{'level': level, 'source': source, 'children': []}] *)
Definition new_entry (level : Z) (source : string) : M value :=
  children <-- new_list [] ;;
  new_dict [("level", VInt level); ("source", VStr source); ("children", children)].

Definition def_contains (view_definitions : value) (view name : string) : M bool :=
  present <-- dict_contains view_definitions view ;;
  if present then
    d <-- dict_getitem view_definitions view ;;
    definition <-- as_str d ;;
    ret (PyStr.contains name definition)
  else ret false.

(** Lines 98-108 and 119-129: [indirect] becomes a child of [parent] and
    gets an entry of its own. *)
Definition place (complete_chains : value) (table indirect parent : string) (level : Z)
  : M unit :=
  chain <-- dict_getitem complete_chains table ;;
  present <-- dict_contains chain parent ;;
  if present then
    chain <-- dict_getitem complete_chains table ;;
    entry <-- dict_getitem chain parent ;;
    children <-- dict_getitem entry "children" ;;
    list_append children indirect ;;;
    entry <-- new_entry level parent ;;
    chain <-- dict_getitem complete_chains table ;;
    dict_setitem chain indirect entry
  else ret tt.

Definition place_on_direct (complete_chains view_definitions : value)
    (table indirect direct : string) : M unit :=
  c <-- def_contains view_definitions indirect direct ;;
  if c then place complete_chains table indirect direct 2 else ret tt.

Definition place_on_level2 (complete_chains view_definitions : value)
    (table indirect level2_agg : string) : M unit :=
  if negb (String.eqb indirect level2_agg) then
    c <-- def_contains view_definitions indirect level2_agg ;;
    if c then place complete_chains table indirect level2_agg 3 else ret tt
  else ret tt.

Definition process_table (complete_chains view_definitions : value)
    (item : string * value) : M unit :=
  let (table, aggregates) := item in
  direct_aggs <-- get_or_empty aggregates "direct" ;;
  indirect_aggs <-- get_or_empty aggregates "indirect" ;;
  t <-- truthy direct_aggs ;;
  if t then
    present <-- dict_contains complete_chains table ;;
    (if negb present then
       chain <-- new_dict [] ;; dict_setitem complete_chains table chain
     else ret tt) ;;;
    directs <-- load_list direct_aggs ;;
    for_eachM
      (fun agg =>
         entry <-- new_entry 1 table ;;
         chain <-- dict_getitem complete_chains table ;;
         dict_setitem chain agg entry)
      directs ;;;
    indirects <-- load_list indirect_aggs ;;
    for_eachM
      (fun indirect =>
         for_eachM (place_on_direct complete_chains view_definitions table indirect)
           directs ;;;
         for_eachM (place_on_level2 complete_chains view_definitions table indirect)
           indirects)
      indirects
  else ret tt.

Definition reconcile_pair (complete_chains : value) (table view : string)
    (view_def : value) (other_view : string) : M unit :=
  if negb (String.eqb view other_view) then
    definition <-- as_str view_def ;;
    if PyStr.contains other_view definition then
      chain <-- dict_getitem complete_chains table ;;
      other <-- dict_getitem chain other_view ;;
      other_view_level <-- (v <-- dict_getitem other "level" ;; as_int v) ;;
      let new_level := (other_view_level + 1)%Z in
      entry <-- dict_getitem chain view ;;
      view_level <-- (v <-- dict_getitem entry "level" ;; as_int v) ;;
      if (view_level <? new_level)%Z then
        dict_setitem entry "level" (VInt new_level) ;;;
        dict_setitem entry "source" (VStr other_view) ;;;
        children <-- dict_getitem other "children" ;;
        items <-- load_list children ;;
        if negb (PyStr.mem view items) then list_append children view else ret tt
      else ret tt
    else ret tt
  else ret tt.

Definition reconcile (complete_chains view_definitions : value) : M unit :=
  tables <-- dict_keys complete_chains ;;
  for_eachM
    (fun table =>
       chain <-- dict_getitem complete_chains table ;;
       views <-- dict_keys chain ;;
       for_eachM
         (fun view =>
            defs <-- load_dict view_definitions ;;
            let view_def := Dict.get_default view (VStr "") defs in
            for_eachM (reconcile_pair complete_chains table view view_def) views)
         views)
    tables.

Definition graph_fix_view (fuel : nat) (complete_chains dependency_graph : value)
    (table view_name : string) : M unit :=
  if String.eqb view_name table then ret tt
  else
    path <-- find_path_in_graph fuel dependency_graph table view_name VNone ;;
    t <-- truthy path ;;
    if t then
      p <-- load_list path ;;
      chain <-- dict_getitem complete_chains table ;;
      entry <-- dict_getitem chain view_name ;;
      dict_setitem entry "level" (VInt (Z.of_nat (length p) - 1)) ;;;
      if (2 <? length p)%nat then
        match second_to_last p with
        | Some src =>
            chain <-- dict_getitem complete_chains table ;;
            entry <-- dict_getitem chain view_name ;;
            dict_setitem entry "source" (VStr src)
        | None => raise
        end
      else ret tt
    else ret tt.

Definition graph_correct (fuel : nat) (complete_chains dependency_graph : value)
  : M unit :=
  tables <-- dict_keys complete_chains ;;
  for_eachM
    (fun table =>
       chain <-- dict_getitem complete_chains table ;;
       names <-- dict_keys chain ;;
       for_eachM (graph_fix_view fuel complete_chains dependency_graph table) names)
    tables.

Definition build_aggregate_chains (fuel : nat)
    (agg_chain view_definitions dependency_graph : value) : M value :=
  complete_chains <-- new_dict [] ;;
  items <-- load_dict agg_chain ;;
  for_eachM (process_table complete_chains view_definitions) items ;;;
  reconcile complete_chains view_definitions ;;;
  t <-- truthy dependency_graph ;;
  (if t then graph_correct fuel complete_chains dependency_graph else ret tt) ;;;
  ret complete_chains.

(** *** Reading a result back *)

Definition read_entry (h : heap) (v : value) : option ChainEntry :=
  match fst (load_dict v h) with
  | Some d =>
      match Dict.get "level" d, Dict.get "source" d, Dict.get "children" d with
      | Some (VInt n), Some (VStr s), Some c =>
          match fst (load_list c h) with
          | Some xs => Some (mkEntry n s xs)
          | None => None
          end
      | _, _, _ => None
      end
  | None => None
  end.

Fixpoint read_all {A} (f : value -> option A) (d : Dict.t value) : option (Dict.t A) :=
  match d with
  | [] => Some []
  | (k, v) :: d' =>
      match f v, read_all f d' with
      | Some a, Some r => Some ((k, a) :: r)
      | _, _ => None
      end
  end.

Definition read_chain (h : heap) (v : value) : option Chain :=
  match fst (load_dict v h) with
  | Some d => read_all (read_entry h) d
  | None => None
  end.

(** The list behind what [find_path_in_graph] returned. *)
Definition read_list (h : heap) (r : option value) : option (list string) :=
  match r with
  | Some v => fst (load_list v h)
  | None => None
  end.

Definition read_chains (h : heap) (v : value) : option CompleteChains :=
  match fst (load_dict v h) with
  | Some d => read_all (read_chain h) d
  | None => None
  end.

(** The three-level scenario as a heap: the argument objects of a call. *)
Definition three_level_heap : heap :=
  [ OList ["agg_1min"];
    OList ["agg_1hour"; "agg_1day"];
    ODict [("direct", VRef 0); ("indirect", VRef 1)];
    ODict [("raw", VRef 2)];
    ODict (map (fun kv => (fst kv, VStr (snd kv))) Scenario.three_level_defs);
    OList ["agg_1min"];
    OList ["agg_1hour"];
    OList ["agg_1day"];
    ODict [("raw", VRef 5); ("agg_1min", VRef 6); ("agg_1hour", VRef 7)] ].

(** *** What a computation may write *)

(** A value that is not a reference to an object older than [n0]. *)
Definition fresh_val (n0 : nat) (v : value) : Prop :=
  match v with
  | VRef l => n0 <= l
  | _ => True
  end.

(** An object that holds no reference to an object older than [n0]. *)
Definition closed_obj (n0 : nat) (o : object) : Prop :=
  match o with
  | OList _ => True
  | ODict d => forall k v, In (k, v) d -> fresh_val n0 v
  end.

(** The objects from address [n0] on refer to each other only. *)
Definition fresh_closed (n0 : nat) (h : heap) : Prop :=
  forall l o, n0 <= l -> nth_error h l = Some o -> closed_obj n0 o.

(** [m] allocates, and writes only to objects at addresses from [n0] on;
    [Q] holds of what it returns. *)
Definition safe {A} (n0 : nat) (m : M A) (Q : A -> Prop) : Prop :=
  forall h, n0 <= length h -> fresh_closed n0 h ->
    length h <= length (snd (m h))
    /\ (forall l, l < n0 -> nth_error (snd (m h)) l = nth_error h l)
    /\ fresh_closed n0 (snd (m h))
    /\ (forall a, fst (m h) = Some a -> Q a).

(** The postcondition that asks nothing. *)
Definition any {A} (a : A) : Prop := True.

End Store.

(** ** The chain formatter ([report.py], [format_aggregate_chain]) *)

(** [level_groups]: a dict from a level to the views at that level, in
    insertion order. *)
Module Levels.

Definition t := list (Z * list (string * ChainEntry)).

Fixpoint get (level : Z) (groups : t) : option (list (string * ChainEntry)) :=
  match groups with
  | [] => None
  | (l, items) :: groups' => if Z.eqb l level then Some items else get level groups'
  end.

Fixpoint set (level : Z) (items : list (string * ChainEntry)) (groups : t) : t :=
  match groups with
  | [] => [(level, items)]
  | (l, its) :: groups' =>
      if Z.eqb l level then (level, items) :: groups'
      else (l, its) :: set level items groups'
  end.

Definition keys (groups : t) : list Z := map fst groups.

End Levels.










Section Formatter.

(** [get_string(path, default)] of [strings.py], with the configuration
    that is loaded. *)
Variable get_string : string -> string -> string.




End Formatter.

(** ** The aggregates of one table ([report.py],
    [get_continuous_aggregates_for_table]) *)

(** [s.split(sep)] for a separator of one character. *)
Fixpoint split_on (sep : ascii) (s : string) : list string :=
  match s with
  | EmptyString => [EmptyString]
  | String c s' =>
      if Ascii.eqb c sep then EmptyString :: split_on sep s'
      else match split_on sep s' with
           | [] => [String c EmptyString]
           | part :: parts => String c part :: parts
           end
  end.

(** The dict that [get_continuous_aggregates_for_table] returns. *)
Record TableAggregates := mkTableAggregates {
  direct_of : list string;
  indirect_of : list string;
  complete_chains_of : CompleteChains
}.

(** Lines 369-378, the body of [for agg in direct_aggs]. *)
Definition add_fallback_row (direct : list string) (agg : Row) : list string :=
  if Dict.mem "view_short_name" agg then
    match Dict.get "view_short_name" agg with
    | Some short => direct ++ [short]
    | None => direct
    end
  else
    match Dict.get "view_name" agg with
    | Some view_name =>
        let view_name :=
          if PyStr.contains "." view_name
          then last (split_on "." view_name) view_name
          else view_name in
        direct ++ [view_name]
    | None => direct
    end.

(** Lines 319-384, for an [agg_info] that the collector returned.
    [fallback] is what [get_continuous_aggregates] returns for the table:
    [None] when it returns [None] or raises. *)
Definition get_continuous_aggregates_for_table (fallback : option (list Row))
    (table_name : string) (agg_info : Collected) : option TableAggregates :=
  let agg_chain := agg_chain_of agg_info in
  let view_definitions := view_definitions_of agg_info in
  let dependency_graph := dependency_graph_of agg_info in
  chains <- build_aggregate_chains agg_chain view_definitions (Some dependency_graph) ;;
  let direct := [] in
  let indirect := [] in
  let '(direct, indirect) :=
    match Dict.get table_name agg_chain with
    | Some aggs =>
        (match Dict.get "direct" aggs with Some d => d | None => direct end,
         match Dict.get "indirect" aggs with Some i => i | None => indirect end)
    | None => (direct, indirect)
    end in
  let direct :=
    match direct, indirect with
    | [], [] =>
        match fallback with
        | Some ((_ :: _) as direct_aggs) => fold_left add_fallback_row direct_aggs direct
        | _ => direct
        end
    | _, _ => direct
    end in
  Some (mkTableAggregates direct indirect chains).

(** ** The configured strings ([strings.py], [get_string]) *)

(** A value of the loaded TOML configuration. *)
#[warnings="-register-all"]
Inductive toml :=
| TStr (s : string)
| TInt (n : Z)
| TBool (b : bool)
| TOther (text : string)  (* a float or a date: like an integer below *)
| TArray (items : list toml)
| TTable (entries : list (string * toml)).

(** [part in value]; [None] is the [TypeError] of a value that is not
    iterable. *)
Definition py_in (part : string) (value : toml) : option bool :=
  match value with
  | TTable entries => Some (Dict.mem part entries)
  | TStr s => Some (PyStr.contains part s)
  | TArray items =>
      Some (existsb (fun item => match item with
                                 | TStr s => String.eqb s part
                                 | _ => false
                                 end) items)
  | TInt _ | TBool _ | TOther _ => None
  end.

(** [value[part]] for a [str] index; [None] is the [TypeError] of a string
    or a list, or a [KeyError]. *)
Definition py_item (value : toml) (part : string) : option toml :=
  match value with
  | TTable entries => Dict.get part entries
  | _ => None
  end.

(** Lines 90-94, the loop over the parts; [otherwise] is what line 94
    returns. *)
Fixpoint navigate (parts : list string) (value otherwise : toml) : option toml :=
  match parts with
  | [] => Some value
  | part :: parts' =>
      found <- py_in part value ;;
      if found then
        value <- py_item value part ;;
        navigate parts' value otherwise
      else Some otherwise
  end.

(** [get_string(path, default)] without format arguments, on the
    configuration [config]; [None] when it raises. *)
Definition get_string (config : list (string * toml)) (path : string)
    (default : option string) : option toml :=
  navigate (split_on "." path) (TTable config)
    (TStr (match default with Some d => d | None => path end)).

(** ** The health score ([stats.py], [get_database_health_score]) *)

(** [str(len(xs))] *)
Definition str_of_len {A} (xs : list A) : string :=
  NilZero.string_of_uint (Nat.to_uint (length xs)).

(** The dict that [get_database_health_score] returns; [score] is [None]
    when the computation raised. *)
Record HealthInfo := mkHealth {
  score : option Z;
  issues : list string;
  warnings : list string
}.

Section HealthScore.

(** The rows of the four statistics queries.  The functions that run them
    catch every exception and return a list; nothing but the number of
    rows is read, except for the mean time of the slow queries. *)
Context {IndexRow TableRow HypertableRow QueryRow : Type}.

(** The floating-point part of lines 81-84:
    [sum(q['mean_exec_time'] ...) / len(slow_queries)], which raises on a
    value that is no number, the test [avg_time > 1000] and the format
    [{avg_time:.1f}]. *)
Context {Average : Type}.
Variable average : list QueryRow -> option Average.
Variable above_1000 : Average -> bool.
Variable format_1f : Average -> string.

(** Lines 52-98. *)
Definition get_database_health_score
    (unused_indexes : list IndexRow) (bloated_tables : list TableRow)
    (uncompressed : list HypertableRow) (slow_queries : list QueryRow) : HealthInfo :=
  let score := 100%Z in
  let issues := [] in
  let warnings := [] in
  let '(score, warnings) :=
    match unused_indexes with
    | [] => (score, warnings)
    | _ :: _ =>
        let deduction := Z.min (Z.of_nat (length unused_indexes) * 2) 20 in
        ((score - deduction)%Z,
         warnings ++ [str_of_len unused_indexes ++ " unused indexes found"]%string)
    end in
  let '(score, issues) :=
    match bloated_tables with
    | [] => (score, issues)
    | _ :: _ =>
        let deduction := Z.min (Z.of_nat (length bloated_tables) * 5) 25 in
        ((score - deduction)%Z,
         issues ++ [str_of_len bloated_tables ++ " tables with significant bloat"]%string)
    end in
  let '(score, warnings) :=
    match uncompressed with
    | [] => (score, warnings)
    | _ :: _ =>
        let deduction := Z.min (Z.of_nat (length uncompressed) * 3) 15 in
        ((score - deduction)%Z,
         warnings ++ [str_of_len uncompressed ++ " hypertables without compression"]%string)
    end in
  let slow :=
    match slow_queries with
    | [] => Some (score, issues)
    | _ :: _ =>
        match average slow_queries with
        | None => None
        | Some avg_time =>
            if above_1000 avg_time then
              Some ((score - 10)%Z,
                    issues ++ ["Average slow query time: " ++ format_1f avg_time ++ "ms"]%string)
            else Some (score, issues)
        end
    end in
  match slow with
  | Some (score, issues) => mkHealth (Some (Z.max score 0)) issues warnings
  | None => mkHealth None ["Unable to calculate health score"] []
  end.

End HealthScore.

(** ** Vocabulary of the statements *)

(** Tables and, per table, the views of their chains. *)
Definition shape (cc : CompleteChains) : list (string * list string) :=
  map (fun tc => (fst tc, Dict.keys (snd tc))) cc.

(** The chains after the first loop (lines 69-129). *)
Definition placed_chains (agg_chain : AggChain) (view_definitions : ViewDefinitions)
  : CompleteChains :=
  fold_left (process_table view_definitions) agg_chain [].

(** What step 5 leaves in the entry of [view] in the chain of [table]. *)
Definition graph_verified (graph : DependencyGraph) (table view : string)
    (e : ChainEntry) : Prop :=
  view <> table ->
  forall p, find_path_in_graph graph table view None = Some p ->
    level e = (Z.of_nat (length p) - 1)%Z
    /\ (2 < length p -> second_to_last p = Some (source e)).

(** The two lists of a table's entry in [agg_chain]. *)
Definition directs_of (aggregates : Aggregates) : list string :=
  Dict.get_default "direct" [] aggregates.

Definition indirects_of (aggregates : Aggregates) : list string :=
  Dict.get_default "indirect" [] aggregates.

(** A view enters a chain as a direct aggregate, or as an indirect one
    whose definition names some other view. *)
Definition admitted (vd : ViewDefinitions) (aggregates : Aggregates) (k : string) : Prop :=
  In k (directs_of aggregates)
  \/ (In k (indirects_of aggregates)
      /\ exists parent, def_contains vd k parent = true).

(** Whether the turn of [indirect] in the loop of line 88 gives it an
    entry, when [views] are the keys of the chain at that turn: its
    definition names a direct aggregate that is a key (lines 91-98), or
    another indirect aggregate that is a key (lines 111-119). *)
Definition placed_at_turn (vd : ViewDefinitions) (directs indirects views : list string)
    (indirect : string) : bool :=
  existsb (fun direct => def_contains vd indirect direct && PyStr.mem direct views)
    directs
  || existsb (fun level2_agg =>
                negb (String.eqb indirect level2_agg)
                && def_contains vd indirect level2_agg
                && PyStr.mem level2_agg views)
       indirects.

(** The keys of the chain after the turns of [todo]. *)
Fixpoint views_after (vd : ViewDefinitions) (directs indirects todo views : list string)
  : list string :=
  match todo with
  | [] => views
  | indirect :: todo' =>
      views_after vd directs indirects todo'
        (if placed_at_turn vd directs indirects views indirect
         then views ++ [indirect] else views)
  end.

(** The views of the chain of a table: its direct aggregates, and the
    indirect ones that get an entry at one of their turns. *)
Definition chain_views (vd : ViewDefinitions) (aggregates : Aggregates) : list string :=
  views_after vd (directs_of aggregates) (indirects_of aggregates)
    (indirects_of aggregates) (directs_of aggregates).

(** The candidates of step 3 for [indirect]: the other indirect
    aggregates that its definition names and that are in the chain. *)
Definition level2_candidates (vd : ViewDefinitions) (indirect : string)
    (chain : Chain) (indirects : list string) : list string :=
  filter (fun a => negb (String.eqb indirect a)
                   && def_contains vd indirect a && Dict.mem a chain) indirects.

(** The edge [source -> target] is in the graph. *)
Definition edge_in (graph : DependencyGraph) (source target : string) : Prop :=
  exists targets, Dict.get source graph = Some targets /\ In target targets.


(** The order of [list.sort()] on names. *)
Definition str_le (a b : string) : Prop := String.leb a b = true.

(** What one round of lines 466-474 does to the entry of
    [health_metrics_raw] for the view [current]. *)
Definition link_value (current : string) (aggs : Aggregates) : Aggregates :=
  if negb (PyStr.mem current (directs_of aggs))
     && negb (PyStr.mem current (indirects_of aggs))
  then Dict.set "indirect" (indirects_of aggs ++ [current]) aggs
  else aggs.

(** A list of nodes where each one has an edge to the next. *)
Fixpoint walk (graph : DependencyGraph) (p : list string) : Prop :=
  match p with
  | [] => True
  | x :: rest =>
      match rest with
      | [] => True
      | y :: _ => edge_in graph x y /\ walk graph rest
      end
  end.

(** Reachability along the edges of the graph. *)
Definition reachable (graph : DependencyGraph) : string -> string -> Prop :=
  clos_refl_trans_1n string (edge_in graph).

(** Every entry of a dict satisfies [P]. *)
Definition all_values {V} (P : V -> Prop) (d : list (string * V)) : Prop :=
  forall k v, Dict.get k d = Some v -> P v.

(** A level that counts at least one hop. *)
Definition level_pos (e : ChainEntry) : Prop := (1 <= level e)%Z.

(** Every entry of a dict satisfies [P] of its key and value. *)
Definition all_entries {V} (P : string -> V -> Prop) (d : list (string * V)) : Prop :=
  forall k v, Dict.get k d = Some v -> P k v.

(** The source of an entry is the table or one of [views], and so are
    its children. *)
Definition entry_linked (table : string) (views : list string) (e : ChainEntry) : Prop :=
  (source e = table \/ In (source e) views) /\ incl (children e) views.

(** Every entry of a chain is linked inside the chain. *)
Definition well_linked (table : string) (chain : Chain) : Prop :=
  all_values (entry_linked table (Dict.keys chain)) chain.

(** The edge that a relationship row stands for. *)
Definition row_edge (row : Row) (source target : string) : Prop :=
  Dict.get "raw_table_name" row = Some source
  /\ Dict.get "agg_view_name" row = Some target.

(** Adjacency lists are non-empty and free of duplicates. *)
Definition adjacency_ok (targets : list string) : Prop :=
  targets <> [] /\ NoDup targets.

(** An entry of [agg_chain] as the collector keeps it: both keys are
    there, the direct list is not empty and the indirect list has no
    duplicates. *)
Definition aggregates_ok (aggs : Aggregates) : Prop :=
  (exists d, Dict.get "direct" aggs = Some d /\ d <> [])
  /\ (exists i, Dict.get "indirect" aggs = Some i /\ NoDup i).

(** A row that has the two columns the collector reads. *)
Definition has_both_names (row : Row) : Prop :=
  (exists s, Dict.get "raw_table_name" row = Some s)
  /\ (exists t, Dict.get "agg_view_name" row = Some t).

(** Some row of the list stands for the edge. *)
Definition rows_edge (rows : list Row) (a b : string) : Prop :=
  exists row, In row rows /\ row_edge row a b.

(** The lists of a table agree with the rows: every direct aggregate has
    its row, every indirect aggregate is reached along rows. *)
Definition linked (rows : list Row) (table : string) (aggs : Aggregates) : Prop :=
  (forall d, In d (directs_of aggs) -> rows_edge rows table d)
  /\ (forall i, In i (indirects_of aggs) ->
                clos_refl_trans_1n string (rows_edge rows) table i).

(** A dict proper: no key twice. *)
Definition distinct_keys {V} (d : list (string * V)) : Prop := NoDup (Dict.keys d).

(** What the findings take off the score. *)
Definition deductions (unused bloated uncompressed : nat) (slow : bool) : Z :=
  (if (0 <? unused)%nat then Z.min (Z.of_nat unused * 2) 20 else 0)
  + (if (0 <? bloated)%nat then Z.min (Z.of_nat bloated * 5) 25 else 0)
  + (if (0 <? uncompressed)%nat then Z.min (Z.of_nat uncompressed * 3) 15 else 0)
  + (if slow then 10 else 0).

(** The outcome of the check of the slow queries: [None] when the average
    raises, else whether it is above one second. *)
Definition slow_finding {Q A} (average : list Q -> option A) (above_1000 : A -> bool)
    (slow_queries : list Q) : option bool :=
  match slow_queries with
  | [] => Some false
  | _ :: _ => option_map above_1000 (average slow_queries)
  end.




(** *** The results of the scenarios *)

(** What the collector returns on the three-level scenario. *)
Definition three_level_collected : Collected :=
  mkCollected
    [Scenario.direct_row "raw" "agg_1min";
     [("raw_table", "agg_1min"); ("raw_table_name", "agg_1min");
      ("agg_view", "agg_1hour"); ("agg_view_name", "agg_1hour");
      ("relationship_type", "chained")];
     [("raw_table", "agg_1hour"); ("raw_table_name", "agg_1hour");
      ("agg_view", "agg_1day"); ("agg_view_name", "agg_1day");
      ("relationship_type", "chained")]]
    [("raw", [("direct", ["agg_1min"]); ("indirect", ["agg_1hour"; "agg_1day"])])]
    Scenario.three_level_defs
    [("raw", ["agg_1min"]); ("agg_1min", ["agg_1hour"]); ("agg_1hour", ["agg_1day"])].

(** The chain that the resolver returns for it. *)
Definition three_level_result : Chain :=
  [("agg_1min", mkEntry 1 "raw" ["agg_1hour"]);
   ("agg_1hour", mkEntry 2 "agg_1min" ["agg_1day"]);
   ("agg_1day", mkEntry 3 "agg_1hour" [])].

(** The chain of the scenario with two matching direct aggregates. *)
Definition tie_result : Chain :=
  [("agg_a", mkEntry 1 "raw" ["agg_c"]);
   ("agg_b", mkEntry 1 "raw" ["agg_c"]);
   ("agg_c", mkEntry 2 "agg_b" [])].

(** * Properties *)

(** ** Facts about the string and dictionary operations *)

Module PyStrFacts.

Lemma mem_In x xs : PyStr.mem x xs = true <-> In x xs.
Proof.
  unfold PyStr.mem. rewrite existsb_exists. split.
  - intros [y [Hy He]]. apply String.eqb_eq in He. now subst.
  - intros H. exists x. split; [assumption | apply String.eqb_refl].
Qed.

Lemma mem_false x xs : PyStr.mem x xs = false <-> ~ In x xs.
Proof.
  rewrite <- mem_In. destruct (PyStr.mem x xs); split; congruence.
Qed.

Lemma mem_app x xs ys : PyStr.mem x (xs ++ ys) = PyStr.mem x xs || PyStr.mem x ys.
Proof. unfold PyStr.mem. apply existsb_app. Qed.

End PyStrFacts.

Module DictFacts.

Section Facts.
Context {V : Type}.
Implicit Types (d : list (string * V)) (k : string) (v : V).

Lemma get_set_eq k v d : Dict.get k (Dict.set k v d) = Some v.
Proof.
  induction d as [|[k' v'] d IH]; simpl.
  - now rewrite String.eqb_refl.
  - destruct (String.eqb k' k) eqn:E; simpl.
    + now rewrite String.eqb_refl.
    + now rewrite E.
Qed.

Lemma get_set_ne k k' v d : k <> k' -> Dict.get k' (Dict.set k v d) = Dict.get k' d.
Proof.
  intros Hne. induction d as [|[k0 v0] d IH]; simpl.
  - apply String.eqb_neq in Hne. now rewrite Hne.
  - destruct (String.eqb k0 k) eqn:E; simpl.
    + apply String.eqb_eq in E. subst k0.
      apply String.eqb_neq in Hne. now rewrite Hne.
    + destruct (String.eqb k0 k'); [reflexivity | exact IH].
Qed.

Lemma get_set k k' v d :
  Dict.get k' (Dict.set k v d) = if String.eqb k k' then Some v else Dict.get k' d.
Proof.
  destruct (String.eqb_spec k k') as [->|Hne].
  - apply get_set_eq.
  - now apply get_set_ne.
Qed.

Lemma get_Some_In k v d : Dict.get k d = Some v -> In (k, v) d.
Proof.
  induction d as [|[k' v'] d IH]; simpl; [discriminate|].
  destruct (String.eqb_spec k' k) as [->|Hne].
  - intros [= ->]. now left.
  - intros H. right. now apply IH.
Qed.

Lemma get_None_keys k d : Dict.get k d = None <-> ~ In k (Dict.keys d).
Proof.
  induction d as [|[k' v'] d IH]; simpl.
  - tauto.
  - destruct (String.eqb_spec k' k) as [->|Hne].
    + split; [discriminate | intros H; exfalso; apply H; now left].
    + rewrite IH. tauto.
Qed.

Lemma get_Some_keys k d : In k (Dict.keys d) <-> exists v, Dict.get k d = Some v.
Proof.
  destruct (Dict.get k d) as [v|] eqn:E.
  - split; [eauto|]. intros _.
    apply get_Some_In in E. unfold Dict.keys.
    change k with (fst (k, v)). now apply in_map.
  - apply get_None_keys in E. split; [tauto | intros [v Hv]; discriminate].
Qed.

Lemma mem_keys k d : Dict.mem k d = true <-> In k (Dict.keys d).
Proof.
  rewrite get_Some_keys. unfold Dict.mem.
  destruct (Dict.get k d); split; eauto; try discriminate.
  intros [v Hv]. discriminate.
Qed.

Lemma keys_set k v d :
  Dict.keys (Dict.set k v d) =
  if Dict.mem k d then Dict.keys d else Dict.keys d ++ [k].
Proof.
  unfold Dict.mem. induction d as [|[k' v'] d IH]; simpl; [reflexivity|].
  destruct (String.eqb_spec k' k) as [->|Hne]; simpl; [reflexivity|].
  rewrite IH. now destruct (Dict.get k d).
Qed.

Lemma keys_set_present k v d :
  In k (Dict.keys d) -> Dict.keys (Dict.set k v d) = Dict.keys d.
Proof.
  intros H. rewrite keys_set. apply mem_keys in H. now rewrite H.
Qed.

Lemma in_keys_set k k' v d :
  In k' (Dict.keys (Dict.set k v d)) <-> k' = k \/ In k' (Dict.keys d).
Proof.
  rewrite keys_set. destruct (Dict.mem k d) eqn:E.
  - apply mem_keys in E. split; [tauto | intros [->|H]; assumption].
  - rewrite in_app_iff. simpl. intuition congruence.
Qed.

Lemma set_get_same k v d : Dict.get k d = Some v -> Dict.set k v d = d.
Proof.
  induction d as [|[k' v'] d IH]; simpl; [discriminate|].
  destruct (String.eqb_spec k' k) as [->|Hne].
  - now intros [= ->].
  - intros H. now rewrite IH.
Qed.

End Facts.

End DictFacts.

(** ** The path finder *)

Section PathFinder.

Variable graph : DependencyGraph.

Lemma neighbors_are_targets start node :
  In node (Dict.get_default start [] graph) -> In node (graph_targets graph).
Proof.
  unfold Dict.get_default, graph_targets.
  destruct (Dict.get start graph) as [ns|] eqn:E; [|intros []].
  intros Hin. apply DictFacts.get_Some_In in E.
  apply in_concat. exists ns. split; [|assumption].
  change ns with (snd (start, ns)). now apply in_map.
Qed.

(** Visiting a target that was not on the path leaves strictly fewer
    unvisited targets. *)
Lemma unvisited_shrinks path node :
  In node (graph_targets graph) ->
  PyStr.mem node path = false ->
  length (unvisited graph (path ++ [node])) < length (unvisited graph path).
Proof.
  unfold unvisited. generalize (graph_targets graph) as ts.
  induction ts as [|t ts IH]; simpl; [intros []|].
  intros Hin Hnot.
  assert (Hle : forall l, length (filter (fun n => negb (PyStr.mem n (path ++ [node]))) l)
                          <= length (filter (fun n => negb (PyStr.mem n path)) l)).
  { induction l as [|x l IHl]; simpl; [lia|].
    rewrite PyStrFacts.mem_app.
    destruct (PyStr.mem x path), (PyStr.mem x [node]); simpl; lia. }
  assert (Hself : PyStr.mem node [node] = true)
    by (apply PyStrFacts.mem_In; now left).
  specialize (Hle ts).
  destruct Hin as [->|Hin].
  - rewrite PyStrFacts.mem_app, Hnot, Hself. simpl. lia.
  - specialize (IH Hin Hnot). rewrite PyStrFacts.mem_app.
    destruct (PyStr.mem t path), (PyStr.mem t [node]); simpl; lia.
Qed.

Lemma try_neighbors_returns rec path nodes :
  (forall node, In node nodes -> PyStr.mem node path = false ->
                exists r, rec node = Some r) ->
  exists r, try_neighbors rec path nodes = Some r.
Proof.
  induction nodes as [|node rest IH]; simpl; intros Hrec; [eauto|].
  destruct (PyStr.mem node path) eqn:Hm; simpl.
  - apply IH. intros n Hn. apply Hrec. now right.
  - destruct (Hrec node (or_introl eq_refl) Hm) as [r ->].
    destruct (truthy_path r); [eauto|].
    apply IH. intros n Hn. apply Hrec. now right.
Qed.

(** More fuel than unvisited targets is enough for a call to return. *)
Lemma find_path_fuel_enough fuel : forall start end_ path,
  length (unvisited graph (path_so_far path ++ [start])) < fuel ->
  exists r, find_path_fuel fuel graph start end_ path = Some r.
Proof.
  induction fuel as [|fuel IH]; intros start end_ path Hlt; [lia|].
  simpl. fold (path_so_far path).
  destruct (String.eqb start end_); [eauto|].
  destruct (Dict.mem start graph); simpl; [|eauto].
  apply try_neighbors_returns. intros node Hin Hm.
  apply IH. simpl.
  pose proof (unvisited_shrinks (path_so_far path ++ [start]) node
                (neighbors_are_targets _ _ Hin) Hm).
  lia.
Qed.

Lemma try_neighbors_ext rec rec' path nodes r :
  (forall node r, rec node = Some r -> rec' node = Some r) ->
  try_neighbors rec path nodes = Some r ->
  try_neighbors rec' path nodes = Some r.
Proof.
  intros Hext. induction nodes as [|node rest IH]; simpl; [auto|].
  destruct (PyStr.mem node path); simpl; [exact IH|].
  destruct (rec node) as [q|] eqn:E; [|discriminate].
  rewrite (Hext _ _ E). destruct (truthy_path q); auto.
Qed.

(** A call that returned keeps its result with any larger fuel. *)
Lemma find_path_fuel_mono fuel : forall fuel' start end_ path r,
  fuel <= fuel' ->
  find_path_fuel fuel graph start end_ path = Some r ->
  find_path_fuel fuel' graph start end_ path = Some r.
Proof.
  induction fuel as [|fuel IH]; intros fuel' start end_ path r Hle; [discriminate|].
  destruct fuel' as [|fuel']; [lia|]. simpl.
  destruct (String.eqb start end_); [auto|].
  destruct (Dict.mem start graph); simpl; [|auto].
  apply try_neighbors_ext. intros node q. apply IH. lia.
Qed.

Lemma unvisited_le path : length (unvisited graph path) <= length (graph_targets graph).
Proof. unfold unvisited. apply filter_length_le. Qed.

Lemma find_path_in_graph_fuel start end_ path :
  find_path_fuel (S (length (graph_targets graph))) graph start end_ path
  = Some (find_path_in_graph graph start end_ path).
Proof.
  unfold find_path_in_graph.
  destruct (find_path_fuel_enough (S (length (graph_targets graph))) start end_ path)
    as [r Hr].
  - pose proof (unvisited_le (path_so_far path ++ [start])). lia.
  - now rewrite Hr.
Qed.

(** C4. The path finder terminates on every graph, cyclic or not: every
    call with more fuel than the graph has adjacency entries returns (a
    path or not-found), and what it returns is the result of
    [find_path_in_graph]; each recursive call is made on a path extended
    by a target that was not on it ([unvisited_shrinks]). *)
Theorem find_path_terminates (start end_ : string) (path : option (list string))
    (fuel : nat) :
  length (graph_targets graph) < fuel ->
  exists r, find_path_fuel fuel graph start end_ path = Some r
            /\ find_path_in_graph graph start end_ path = r.
Proof.
  intros Hlt. exists (find_path_in_graph graph start end_ path). split; [|reflexivity].
  apply find_path_fuel_mono with (fuel := S (length (graph_targets graph))); [lia|].
  apply find_path_in_graph_fuel.
Qed.

End PathFinder.

Lemma find_path_terminates_witness :
  exists r, find_path_fuel 3 Scenario.cycle_graph "A" "A" None = Some r
            /\ find_path_in_graph Scenario.cycle_graph "A" "A" None = r.
Proof.
  apply (find_path_terminates Scenario.cycle_graph "A" "A" None 3).
  simpl. lia.
Defined.

(** C3. On the line graph [{A: [B], B: [C], C: []}] over three distinct
    nodes, the path from [A] to [C] is [[A, B, C]], there is no path from
    [C] to [A], and the path from [A] to itself is [[A]]. *)
Theorem find_path_line_graph (a b c : string) :
  a <> b -> b <> c -> a <> c ->
  find_path_in_graph [(a, [b]); (b, [c]); (c, [])] a c None = Some [a; b; c]
  /\ find_path_in_graph [(a, [b]); (b, [c]); (c, [])] c a None = None
  /\ find_path_in_graph [(a, [b]); (b, [c]); (c, [])] a a None = Some [a].
Proof.
  intros Hab Hbc Hac.
  assert (Eab : String.eqb a b = false) by now apply String.eqb_neq.
  assert (Eba : String.eqb b a = false) by (apply String.eqb_neq; congruence).
  assert (Ebc : String.eqb b c = false) by now apply String.eqb_neq.
  assert (Ecb : String.eqb c b = false) by (apply String.eqb_neq; congruence).
  assert (Eac : String.eqb a c = false) by now apply String.eqb_neq.
  assert (Eca : String.eqb c a = false) by (apply String.eqb_neq; congruence).
  unfold find_path_in_graph, graph_targets.
  repeat split; simpl;
    repeat (progress (unfold Dict.mem, Dict.get_default, PyStr.mem; simpl;
                      rewrite ?String.eqb_refl, ?Eab, ?Eba, ?Ebc, ?Ecb, ?Eac, ?Eca));
    reflexivity.
Qed.

Lemma find_path_line_graph_witness :
  find_path_in_graph Scenario.line_graph "A" "C" None = Some ["A"; "B"; "C"]
  /\ find_path_in_graph Scenario.line_graph "C" "A" None = None
  /\ find_path_in_graph Scenario.line_graph "A" "A" None = Some ["A"].
Proof.
  apply (find_path_line_graph "A" "B" "C"); discriminate.
Defined.

Lemma find_path_fuel_truthy fuel : forall graph start end_ path r,
  find_path_fuel fuel graph start end_ path = Some r ->
  r = None \/ truthy_path r = true.
Proof.
  induction fuel as [|fuel IH]; intros graph start end_ path r; [discriminate|].
  simpl. destruct (String.eqb start end_).
  - intros [= <-]. right. now destruct path as [[|x p]|].
  - destruct (Dict.mem start graph); simpl; [|intros [= <-]; now left].
    generalize (Dict.get_default start [] graph) as nodes.
    induction nodes as [|node rest IHn]; simpl; [intros [= <-]; now left|].
    destruct (PyStr.mem node _); simpl; [exact IHn|].
    destruct (find_path_fuel fuel graph node end_ _) as [q|] eqn:E; [|discriminate].
    destruct (truthy_path q) eqn:T; [|exact IHn].
    intros [= <-]. now right.
Qed.

(** The path finder never returns an empty path. *)
Lemma find_path_nonempty graph start end_ path p :
  find_path_in_graph graph start end_ path = Some p -> p <> [].
Proof.
  intros H. pose proof (find_path_in_graph_fuel graph start end_ path) as F.
  apply find_path_fuel_truthy in F. rewrite H in F.
  destruct F as [F|F]; [discriminate|]. now destruct p.
Qed.

(** ** Loops that can raise *)

Section ForEach.

Context {S A : Type}.
Implicit Types (body : S -> A -> option S) (xs : list A) (s : S).

Lemma for_each_app body xs ys s :
  for_each body (xs ++ ys) s = s' <- for_each body xs s ;; for_each body ys s'.
Proof.
  revert s. induction xs as [|x xs IH]; intros s; simpl; [reflexivity|].
  destruct (body s x); simpl; [apply IH | reflexivity].
Qed.

(** A loop whose body never raises under an invariant does not raise and
    keeps the invariant. *)
Lemma for_each_invariant (P : S -> Prop) body xs s :
  P s ->
  (forall s x, In x xs -> P s -> exists s', body s x = Some s' /\ P s') ->
  exists s', for_each body xs s = Some s' /\ P s'.
Proof.
  revert s. induction xs as [|x xs IH]; intros s Hs Hbody; simpl; [eauto|].
  destruct (Hbody s x (or_introl eq_refl) Hs) as [s1 [-> H1]]. simpl.
  apply IH; [assumption|]. intros s2 y Hy. apply Hbody. now right.
Qed.

End ForEach.

(** A loop over keys whose body rewrites the entry of its key only:
    afterwards every entry of a visited key is as the body leaves it, and
    every other entry is as before. *)
Lemma for_each_keys {V : Type} (G : string -> V -> Prop)
    (body : list (string * V) -> string -> option (list (string * V))) :
  (forall d k d', body d k = Some d' ->
     forall k2 v, Dict.get k2 d' = Some v ->
       (k2 = k -> G k2 v) /\ (k2 <> k -> Dict.get k2 d = Some v)) ->
  forall ks d d', for_each body ks d = Some d' ->
    forall k v, Dict.get k d' = Some v ->
      (In k ks -> G k v) /\ (~ In k ks -> Dict.get k d = Some v).
Proof.
  intros Hbody ks. induction ks as [|k0 ks IH]; intros d d' Hrun k v Hget; simpl in *.
  - injection Hrun as <-. split; [intros [] | auto].
  - destruct (body d k0) as [d1|] eqn:E; simpl in Hrun; [|discriminate].
    destruct (IH _ _ Hrun _ _ Hget) as [Hin Hout].
    destruct (in_dec String.string_dec k ks) as [Hk|Hk].
    + split; [auto | tauto].
    + specialize (Hout Hk). destruct (Hbody _ _ _ E _ _ Hout) as [Hsame Hother].
      split.
      * intros [<-|Hk']; [now apply Hsame | contradiction].
      * intros Hn. apply Hother. intros ->. apply Hn. now left.
Qed.

(** ** The shape of the chains: tables and, per table, the views *)

Lemma shape_keys cc : map fst (shape cc) = Dict.keys cc.
Proof. unfold shape, Dict.keys. rewrite map_map. reflexivity. Qed.

Lemma shape_get cc cc' table chain :
  shape cc = shape cc' ->
  Dict.get table cc = Some chain ->
  exists chain', Dict.get table cc' = Some chain' /\ Dict.keys chain' = Dict.keys chain.
Proof.
  revert cc'. induction cc as [|[t c] cc IH]; intros [|[t' c'] cc']; simpl;
    try discriminate.
  intros [= -> Hk Hs].
  destruct (String.eqb t' table).
  - intros [= <-]. eauto.
  - now apply IH.
Qed.

Lemma shape_set cc table chain chain' :
  Dict.get table cc = Some chain ->
  Dict.keys chain' = Dict.keys chain ->
  shape (Dict.set table chain' cc) = shape cc.
Proof.
  induction cc as [|[t c] cc IH]; simpl; [discriminate|].
  destruct (String.eqb_spec t table) as [->|Hne].
  - intros [= ->] Hk. simpl. now rewrite Hk.
  - intros Hg Hk. simpl. now rewrite IH.
Qed.

(** ** Steps 4 and 5 never raise and keep the shape *)

Lemma reconcile_pair_keys view_def view chain other_view :
  In view (Dict.keys chain) -> In other_view (Dict.keys chain) ->
  exists chain', reconcile_pair view_def view chain other_view = Some chain'
                 /\ Dict.keys chain' = Dict.keys chain.
Proof.
  intros Hv Ho. unfold reconcile_pair.
  destruct (negb (String.eqb view other_view) && PyStr.contains other_view view_def);
    [|eauto].
  destruct (proj1 (DictFacts.get_Some_keys _ _) Ho) as [o ->].
  destruct (proj1 (DictFacts.get_Some_keys _ _) Hv) as [v ->]. simpl.
  destruct (level v <? level o + 1)%Z; [|eauto].
  set (chain1 := Dict.set view _ chain).
  assert (K1 : Dict.keys chain1 = Dict.keys chain)
    by now apply DictFacts.keys_set_present.
  assert (Ho1 : In other_view (Dict.keys chain1)) by now rewrite K1.
  destruct (proj1 (DictFacts.get_Some_keys _ _) Ho1) as [o1 ->]. simpl.
  destruct (negb (PyStr.mem view (children o1))); [|eauto].
  eexists. split; [reflexivity|].
  now rewrite DictFacts.keys_set_present.
Qed.

Lemma reconcile_chain_keys view_definitions chain :
  exists chain', reconcile_chain view_definitions chain = Some chain'
                 /\ Dict.keys chain' = Dict.keys chain.
Proof.
  unfold reconcile_chain.
  apply (for_each_invariant (fun c => Dict.keys c = Dict.keys chain)); [reflexivity|].
  intros c view Hview Hc.
  apply (for_each_invariant (fun c => Dict.keys c = Dict.keys chain)); [assumption|].
  intros c' other Hother Hc'.
  destruct (reconcile_pair_keys (Dict.get_default view "" view_definitions)
              view c' other) as [c2 [E K]]; try now rewrite Hc'.
  exists c2. split; [assumption | congruence].
Qed.

Lemma per_table_shape (f : string -> Chain -> option Chain) cc0 :
  (forall table chain, exists chain',
      f table chain = Some chain' /\ Dict.keys chain' = Dict.keys chain) ->
  forall tables, incl tables (Dict.keys cc0) ->
  exists cc,
    for_each (fun cc table =>
                chain <- Dict.get table cc ;;
                chain <- f table chain ;;
                Some (Dict.set table chain cc)) tables cc0 = Some cc
    /\ shape cc = shape cc0.
Proof.
  intros Hf tables Hincl.
  apply (for_each_invariant (fun cc => shape cc = shape cc0)); [reflexivity|].
  intros cc table Hin Hshape.
  assert (Hk : In table (Dict.keys cc)).
  { rewrite <- shape_keys, Hshape, shape_keys. now apply Hincl. }
  destruct (proj1 (DictFacts.get_Some_keys _ _) Hk) as [chain Hget].
  rewrite Hget. simpl.
  destruct (Hf table chain) as [chain' [-> K]]. simpl.
  eexists. split; [reflexivity|].
  rewrite <- Hshape. now apply shape_set with (chain := chain).
Qed.

Lemma reconcile_shape view_definitions cc0 :
  exists cc, reconcile view_definitions cc0 = Some cc /\ shape cc = shape cc0.
Proof.
  unfold reconcile.
  apply (per_table_shape (fun _ => reconcile_chain view_definitions)).
  - intros _ chain. apply reconcile_chain_keys.
  - apply incl_refl.
Qed.

Lemma second_to_last_some p :
  2 < length p -> exists src, second_to_last p = Some src.
Proof.
  intros H. unfold second_to_last.
  destruct (Nat.ltb_spec (length p) 2); [lia|].
  destruct (nth_error p (length p - 2)) eqn:E; [eauto|].
  apply nth_error_None in E. lia.
Qed.

Lemma graph_fix_view_keys graph table chain view_name :
  In view_name (Dict.keys chain) ->
  exists chain', graph_fix_view graph table chain view_name = Some chain'
                 /\ Dict.keys chain' = Dict.keys chain.
Proof.
  intros Hv. unfold graph_fix_view.
  destruct (String.eqb view_name table); [eauto|].
  destruct (find_path_in_graph graph table view_name None) as [[|x p]|]; eauto.
  remember (x :: p) as q.
  destruct (proj1 (DictFacts.get_Some_keys _ _) Hv) as [e ->]. cbn [bind].
  destruct (Nat.ltb_spec 2 (length q)) as [H|H].
  - destruct (second_to_last_some q H) as [src ->]. cbn [bind].
    eexists. split; [reflexivity|]. now apply DictFacts.keys_set_present.
  - eexists. split; [reflexivity|]. now apply DictFacts.keys_set_present.
Qed.

Lemma graph_correct_shape graph cc0 :
  exists cc, graph_correct graph cc0 = Some cc /\ shape cc = shape cc0.
Proof.
  unfold graph_correct.
  apply (per_table_shape
           (fun table chain => for_each (graph_fix_view graph table) (Dict.keys chain) chain)).
  - intros table chain.
    apply (for_each_invariant (fun c => Dict.keys c = Dict.keys chain)); [reflexivity|].
    intros c view Hview Hc.
    destruct (graph_fix_view_keys graph table c view) as [c' [E K]];
      [now rewrite Hc|].
    exists c'. split; [assumption | congruence].
  - apply incl_refl.
Qed.

(** The resolver never raises, and steps 4 and 5 neither add nor drop a
    table or a view. *)
Lemma build_aggregate_chains_total agg_chain view_definitions dependency_graph :
  exists cc,
    build_aggregate_chains agg_chain view_definitions dependency_graph = Some cc
    /\ shape cc = shape (placed_chains agg_chain view_definitions).
Proof.
  unfold build_aggregate_chains. fold (placed_chains agg_chain view_definitions).
  destruct (reconcile_shape view_definitions (placed_chains agg_chain view_definitions))
    as [cc1 [-> S1]]. simpl.
  destruct dependency_graph as [[|n graph]|]; eauto.
  destruct (graph_correct_shape (n :: graph) cc1) as [cc [-> S2]].
  exists cc. split; [reflexivity | congruence].
Qed.

(** ** Step 5: the graph-verified correction *)

Lemma graph_fix_view_effect graph table chain view_name chain' :
  graph_fix_view graph table chain view_name = Some chain' ->
  forall view e, Dict.get view chain' = Some e ->
    (view = view_name -> graph_verified graph table view e)
    /\ (view <> view_name -> Dict.get view chain = Some e).
Proof.
  unfold graph_fix_view. intros Hrun view e Hget. revert Hrun.
  destruct (String.eqb_spec view_name table) as [->|Hne]; intros Hrun.
  - injection Hrun as <-. split; [|auto]. intros -> Hv. contradiction.
  - destruct (find_path_in_graph graph table view_name None) as [q|] eqn:Hpath.
    + pose proof (find_path_nonempty _ _ _ _ _ Hpath) as Hq.
      destruct q as [|x q']; [contradiction|]. remember (x :: q') as q.
      destruct (Dict.get view_name chain) as [e0|]; [|discriminate].
      cbn [bind] in Hrun.
      destruct (Nat.ltb_spec 2 (length q)) as [Hlen|Hlen].
      * destruct (second_to_last q) as [src|] eqn:Hsrc; [|discriminate].
        cbn [bind] in Hrun. injection Hrun as <-.
        rewrite DictFacts.get_set in Hget.
        destruct (String.eqb_spec view_name view) as [->|Hv].
        -- injection Hget as <-. split; [|congruence].
           intros _ _ p Hp. rewrite Hpath in Hp. injection Hp as <-.
           simpl. auto.
        -- split; [congruence | auto].
      * injection Hrun as <-. rewrite DictFacts.get_set in Hget.
        destruct (String.eqb_spec view_name view) as [->|Hv].
        -- injection Hget as <-. split; [|congruence].
           intros _ _ p Hp. rewrite Hpath in Hp. injection Hp as <-.
           simpl. split; [reflexivity | lia].
        -- split; [congruence | auto].
    + injection Hrun as <-. split; [|auto].
      intros -> _ p Hp. congruence.
Qed.

Lemma graph_correct_table_effect graph cc0 table cc :
  (chain <- Dict.get table cc0 ;;
   chain <- for_each (graph_fix_view graph table) (Dict.keys chain) chain ;;
   Some (Dict.set table chain cc0)) = Some cc ->
  forall t chain, Dict.get t cc = Some chain ->
    (t = table -> forall view e, Dict.get view chain = Some e ->
                                 graph_verified graph t view e)
    /\ (t <> table -> Dict.get t cc0 = Some chain).
Proof.
  intros Hbody t chain Ht.
  destruct (Dict.get table cc0) as [c0|] eqn:E0; simpl in Hbody; [|discriminate].
  destruct (for_each (graph_fix_view graph table) (Dict.keys c0) c0) as [c1|] eqn:E1;
    simpl in Hbody; [|discriminate].
  injection Hbody as <-. rewrite DictFacts.get_set in Ht.
  destruct (String.eqb_spec table t) as [->|Hne].
  - injection Ht as <-. split; [|congruence].
    intros _ view e Hview.
    destruct (for_each_keys (graph_verified graph t) _
                (graph_fix_view_effect graph t) _ _ _ E1 _ _ Hview) as [Hin Hout].
    destruct (in_dec String.string_dec view (Dict.keys c0)) as [Hk|Hk]; [auto|].
    specialize (Hout Hk). exfalso. apply Hk. apply DictFacts.get_Some_keys. eauto.
  - split; [congruence | auto].
Qed.

Lemma graph_correct_effect graph cc0 cc :
  graph_correct graph cc0 = Some cc ->
  forall table chain, Dict.get table cc = Some chain ->
  forall view e, Dict.get view chain = Some e -> graph_verified graph table view e.
Proof.
  unfold graph_correct. intros Hrun table chain Hget.
  destruct (for_each_keys
              (fun t c => forall view e, Dict.get view c = Some e ->
                                         graph_verified graph t view e)
              _ (graph_correct_table_effect graph) _ _ _ Hrun _ _ Hget) as [Hin Hout].
  destruct (in_dec String.string_dec table (Dict.keys cc0)) as [Hk|Hk]; [auto|].
  specialize (Hout Hk). exfalso. apply Hk. apply DictFacts.get_Some_keys. eauto.
Qed.

Lemma find_path_empty_graph start end_ p :
  find_path_in_graph [] start end_ None = Some p -> start = end_.
Proof.
  unfold find_path_in_graph. simpl.
  destruct (String.eqb_spec start end_); [auto | discriminate].
Qed.

(** C1. Step 5 is authoritative: when a dependency graph is supplied and
    the path finder returns a path from a base table to a view of its chain
    (other than the table itself), the resolved level of the view is the
    length of that path minus one, and when the path has more than two
    nodes the resolved source is its second-to-last node. *)
Theorem graph_correction_authoritative
    (agg_chain : AggChain) (view_definitions : ViewDefinitions)
    (graph : DependencyGraph) (cc : CompleteChains)
    (table view : string) (chain : Chain) (e : ChainEntry) (p : list string) :
  build_aggregate_chains agg_chain view_definitions (Some graph) = Some cc ->
  Dict.get table cc = Some chain ->
  Dict.get view chain = Some e ->
  view <> table ->
  find_path_in_graph graph table view None = Some p ->
  level e = (Z.of_nat (length p) - 1)%Z
  /\ (2 < length p -> second_to_last p = Some (source e)).
Proof.
  unfold build_aggregate_chains. intros Hrun Htable Hview Hne Hpath.
  destruct (reconcile view_definitions _) as [cc1|]; [|discriminate].
  cbn [bind] in Hrun.
  destruct graph as [|n graph].
  - apply find_path_empty_graph in Hpath. congruence.
  - exact (graph_correct_effect _ _ _ Hrun _ _ Htable _ _ Hview Hne _ Hpath).
Qed.

Lemma graph_correction_authoritative_witness :
  level (mkEntry 3 "agg_b" []) = (Z.of_nat (length ["raw"; "agg_a"; "agg_b"; "agg_c"]) - 1)%Z
  /\ (2 < length ["raw"; "agg_a"; "agg_b"; "agg_c"] ->
      second_to_last ["raw"; "agg_a"; "agg_b"; "agg_c"]
      = Some (source (mkEntry 3 "agg_b" []))).
Proof.
  apply (graph_correction_authoritative
           Scenario.override_chain Scenario.override_defs Scenario.override_graph
           [("raw", [("agg_a", mkEntry 1 "raw" ["agg_c"]);
                     ("agg_c", mkEntry 3 "agg_b" [])])]
           "raw" "agg_c"
           [("agg_a", mkEntry 1 "raw" ["agg_c"]); ("agg_c", mkEntry 3 "agg_b" [])]).
  - reflexivity.
  - reflexivity.
  - reflexivity.
  - discriminate.
  - reflexivity.
Defined.

(** ** Steps 1 to 3: which views enter a chain *)

Lemma fold_left_preserves {A B} (P : A -> Prop) (f : A -> B -> A) xs a :
  (forall a x, P a -> P (f a x)) -> P a -> P (fold_left f xs a).
Proof.
  intros Hf. revert a. induction xs as [|x xs IH]; simpl; auto.
Qed.

Lemma seed_keys table directs chain k :
  In k (Dict.keys (fold_left (seed_direct table) directs chain))
  <-> In k (Dict.keys chain) \/ In k directs.
Proof.
  revert chain. induction directs as [|d ds IH]; intros chain; simpl; [tauto|].
  rewrite IH. unfold seed_direct. rewrite DictFacts.in_keys_set.
  intuition congruence.
Qed.

Lemma place_on_direct_keys vd indirect chain direct k :
  In k (Dict.keys (place_on_direct vd indirect chain direct))
  <-> In k (Dict.keys chain)
      \/ (k = indirect /\ def_contains vd indirect direct = true
          /\ In direct (Dict.keys chain)).
Proof.
  unfold place_on_direct.
  destruct (def_contains vd indirect direct); [|intuition discriminate].
  destruct (Dict.get direct chain) as [e|] eqn:E.
  - assert (Hd : In direct (Dict.keys chain))
      by (apply DictFacts.get_Some_keys; eauto).
    rewrite !DictFacts.in_keys_set. intuition congruence.
  - apply DictFacts.get_None_keys in E. tauto.
Qed.

Lemma place_on_level2_keys vd indirect chain level2_agg k :
  In k (Dict.keys (place_on_level2 vd indirect chain level2_agg))
  <-> In k (Dict.keys chain)
      \/ (k = indirect /\ indirect <> level2_agg
          /\ def_contains vd indirect level2_agg = true
          /\ In level2_agg (Dict.keys chain)).
Proof.
  unfold place_on_level2.
  destruct (String.eqb_spec indirect level2_agg) as [Heq|Hne]; simpl;
    [intuition congruence|].
  destruct (def_contains vd indirect level2_agg); [|intuition discriminate].
  destruct (Dict.get level2_agg chain) as [e|] eqn:E.
  - assert (Hd : In level2_agg (Dict.keys chain))
      by (apply DictFacts.get_Some_keys; eauto).
    rewrite !DictFacts.in_keys_set. intuition congruence.
  - apply DictFacts.get_None_keys in E. tauto.
Qed.

Lemma step2_loop_mono vd indirect directs chain k :
  In k (Dict.keys chain) -> In k (Dict.keys (step2_loop vd indirect directs chain)).
Proof.
  unfold step2_loop. apply fold_left_preserves with (P := fun c => In k (Dict.keys c)).
  intros c d Hc. apply place_on_direct_keys. now left.
Qed.

Lemma step3_loop_mono vd indirect indirects chain k :
  In k (Dict.keys chain) -> In k (Dict.keys (step3_loop vd indirect indirects chain)).
Proof.
  unfold step3_loop. apply fold_left_preserves with (P := fun c => In k (Dict.keys c)).
  intros c d Hc. apply place_on_level2_keys. now left.
Qed.

Lemma step2_loop_keys vd indirect directs chain k :
  In k (Dict.keys (step2_loop vd indirect directs chain)) ->
  In k (Dict.keys chain)
  \/ (k = indirect /\ exists parent, def_contains vd indirect parent = true).
Proof.
  unfold step2_loop. revert chain.
  induction directs as [|d ds IH]; intros chain; simpl; [auto|].
  intros H. apply IH in H. rewrite place_on_direct_keys in H.
  destruct H as [[H|[-> [H _]]]|H]; eauto.
Qed.

Lemma step3_loop_keys vd indirect indirects chain k :
  In k (Dict.keys (step3_loop vd indirect indirects chain)) ->
  In k (Dict.keys chain)
  \/ (k = indirect /\ exists parent, def_contains vd indirect parent = true).
Proof.
  unfold step3_loop. revert chain.
  induction indirects as [|d ds IH]; intros chain; simpl; [auto|].
  intros H. apply IH in H. rewrite place_on_level2_keys in H.
  destruct H as [[H|[-> [_ [H _]]]]|H]; eauto.
Qed.

Lemma step2_loop_places vd indirect directs chain direct :
  In direct directs -> def_contains vd indirect direct = true ->
  In direct (Dict.keys chain) ->
  In indirect (Dict.keys (step2_loop vd indirect directs chain)).
Proof.
  revert chain. induction directs as [|d ds IH]; intros chain; [intros []|].
  intros [->|Hin] Hdef Hkey.
  - apply (step2_loop_mono vd indirect ds). apply place_on_direct_keys. tauto.
  - apply (IH (place_on_direct vd indirect chain d) Hin Hdef).
    apply place_on_direct_keys. now left.
Qed.

Lemma place_indirect_mono vd directs indirects chain indirect k :
  In k (Dict.keys chain) ->
  In k (Dict.keys (place_indirect vd directs indirects chain indirect)).
Proof.
  intros H. unfold place_indirect. now apply step3_loop_mono, step2_loop_mono.
Qed.

Lemma place_indirect_keys vd directs indirects chain indirect k :
  In k (Dict.keys (place_indirect vd directs indirects chain indirect)) ->
  In k (Dict.keys chain)
  \/ (k = indirect /\ exists parent, def_contains vd indirect parent = true).
Proof.
  unfold place_indirect. intros H.
  apply step3_loop_keys in H. destruct H as [H|H]; [|auto].
  now apply step2_loop_keys in H.
Qed.

Lemma place_all_mono vd directs indirects todo chain k :
  In k (Dict.keys chain) ->
  In k (Dict.keys (fold_left (place_indirect vd directs indirects) todo chain)).
Proof.
  apply fold_left_preserves with (P := fun c => In k (Dict.keys c)).
  intros c i. apply place_indirect_mono.
Qed.

Lemma place_all_keys vd directs indirects todo chain k :
  In k (Dict.keys (fold_left (place_indirect vd directs indirects) todo chain)) ->
  In k (Dict.keys chain)
  \/ (In k todo /\ exists parent, def_contains vd k parent = true).
Proof.
  revert chain. induction todo as [|i todo IH]; intros chain; simpl; [auto|].
  intros H. apply IH in H. destruct H as [H|[H P]]; [|auto].
  apply place_indirect_keys in H. destruct H as [H|[-> P]]; auto.
Qed.

Lemma place_all_places vd directs indirects todo chain indirect direct :
  In indirect todo -> In direct directs ->
  def_contains vd indirect direct = true ->
  In direct (Dict.keys chain) ->
  In indirect (Dict.keys (fold_left (place_indirect vd directs indirects) todo chain)).
Proof.
  revert chain. induction todo as [|i todo IH]; intros chain; [intros []|].
  intros [->|Hin] Hd Hdef Hkey; simpl.
  - apply place_all_mono. unfold place_indirect.
    apply step3_loop_mono. now apply step2_loop_places with (direct := direct).
  - apply IH; auto. now apply place_indirect_mono.
Qed.

Lemma process_table_unfold vd cc t aggs :
  process_table vd cc (t, aggs) =
  match directs_of aggs with
  | [] => cc
  | _ :: _ =>
      Dict.set t
        (fold_left (place_indirect vd (directs_of aggs) (indirects_of aggs))
           (indirects_of aggs)
           (fold_left (seed_direct t) (directs_of aggs) (Dict.get_default t [] cc)))
        cc
  end.
Proof. reflexivity. Qed.

Lemma get_default_keys (cc : CompleteChains) t k :
  In k (Dict.keys (Dict.get_default t [] cc)) ->
  exists chain, Dict.get t cc = Some chain /\ In k (Dict.keys chain).
Proof.
  unfold Dict.get_default, CompleteChains, Chain, Dict.t in *.
  destruct (Dict.get t cc); [eauto | simpl; intros []].
Qed.

Lemma process_table_keys vd cc t aggs table chain k :
  Dict.get table (process_table vd cc (t, aggs)) = Some chain ->
  In k (Dict.keys chain) ->
  (exists chain0, Dict.get table cc = Some chain0 /\ In k (Dict.keys chain0))
  \/ (t = table /\ admitted vd aggs k).
Proof.
  rewrite process_table_unfold. unfold admitted.
  destruct (directs_of aggs) as [|d ds] eqn:D; [eauto|]. rewrite <- D.
  rewrite DictFacts.get_set.
  destruct (String.eqb_spec t table) as [->|Hne]; [|eauto].
  intros [= <-] Hk.
  apply place_all_keys in Hk. destruct Hk as [Hk|Hk]; [|auto].
  apply seed_keys in Hk. destruct Hk as [Hk|Hk]; [|auto].
  left. now apply get_default_keys.
Qed.

Lemma process_table_mono vd cc item table chain0 k :
  Dict.get table cc = Some chain0 -> In k (Dict.keys chain0) ->
  exists chain, Dict.get table (process_table vd cc item) = Some chain
                /\ In k (Dict.keys chain).
Proof.
  destruct item as [t aggs]. rewrite process_table_unfold. intros Hget Hk.
  destruct (directs_of aggs) as [|d ds] eqn:D; [eauto|]. rewrite <- D.
  rewrite DictFacts.get_set.
  destruct (String.eqb_spec t table) as [->|Hne]; [|eauto].
  eexists. split; [reflexivity|].
  apply place_all_mono, seed_keys. left.
  unfold Dict.get_default. now rewrite Hget.
Qed.

Lemma process_table_places vd cc t aggs direct indirect :
  In direct (directs_of aggs) -> In indirect (indirects_of aggs) ->
  def_contains vd indirect direct = true ->
  exists chain, Dict.get t (process_table vd cc (t, aggs)) = Some chain
                /\ In indirect (Dict.keys chain).
Proof.
  intros Hd Hi Hdef. rewrite process_table_unfold.
  destruct (directs_of aggs) as [|d ds] eqn:D; [destruct Hd|]. rewrite <- D in *.
  rewrite DictFacts.get_set_eq. eexists. split; [reflexivity|].
  apply place_all_places with (direct := direct); auto.
  apply seed_keys. now right.
Qed.

Lemma placed_mono vd items : forall cc table chain0 k,
  Dict.get table cc = Some chain0 -> In k (Dict.keys chain0) ->
  exists chain, Dict.get table (fold_left (process_table vd) items cc) = Some chain
                /\ In k (Dict.keys chain).
Proof.
  induction items as [|item items IH]; intros cc table chain0 k Hget Hk; simpl; [eauto|].
  destruct (process_table_mono vd cc item table chain0 k Hget Hk) as [c1 [G1 K1]].
  now apply IH with (chain0 := c1).
Qed.

Lemma placed_keys vd items : forall cc table chain k,
  Dict.get table (fold_left (process_table vd) items cc) = Some chain ->
  In k (Dict.keys chain) ->
  (exists chain0, Dict.get table cc = Some chain0 /\ In k (Dict.keys chain0))
  \/ (exists aggs, In (table, aggs) items /\ admitted vd aggs k).
Proof.
  induction items as [|[t aggs] items IH]; intros cc table chain k Hget Hk; simpl in *;
    [eauto|].
  destruct (IH _ _ _ _ Hget Hk) as [[c1 [G1 K1]]|[a [Ha Hadm]]]; [|eauto].
  destruct (process_table_keys _ _ _ _ _ _ _ G1 K1) as [H|[-> H]]; eauto.
Qed.

Lemma placed_places vd items : forall cc table aggs direct indirect,
  In (table, aggs) items ->
  In direct (directs_of aggs) -> In indirect (indirects_of aggs) ->
  def_contains vd indirect direct = true ->
  exists chain, Dict.get table (fold_left (process_table vd) items cc) = Some chain
                /\ In indirect (Dict.keys chain).
Proof.
  induction items as [|item items IH]; intros cc table aggs direct indirect;
    [intros []|].
  intros [->|Hin] Hd Hi Hdef; simpl.
  - destruct (process_table_places vd cc table aggs direct indirect Hd Hi Hdef)
      as [c1 [G1 K1]].
    now apply placed_mono with (chain0 := c1).
  - now apply IH with (aggs := aggs) (direct := direct).
Qed.

(** Every view of a resolved chain was admitted by the first loop. *)
Lemma chain_views_admitted agg_chain vd graph cc table chain k :
  build_aggregate_chains agg_chain vd graph = Some cc ->
  Dict.get table cc = Some chain ->
  In k (Dict.keys chain) ->
  exists aggs, In (table, aggs) agg_chain /\ admitted vd aggs k.
Proof.
  intros Hrun Hget Hk.
  destruct (build_aggregate_chains_total agg_chain vd graph) as [cc' [Hrun' Hshape]].
  rewrite Hrun in Hrun'. injection Hrun' as <-.
  destruct (shape_get _ _ _ _ Hshape Hget) as [chain0 [G0 K0]].
  rewrite <- K0 in Hk.
  destruct (placed_keys _ _ _ _ _ _ G0 Hk) as [[c [Hc _]]|H]; [discriminate | exact H].
Qed.

(** *** Which views a chain has, exactly *)

Lemma step2_loop_keys_iff vd indirect directs : forall chain k,
  In k (Dict.keys (step2_loop vd indirect directs chain))
  <-> In k (Dict.keys chain)
      \/ (k = indirect
          /\ exists direct, In direct directs
               /\ def_contains vd indirect direct = true
               /\ In direct (Dict.keys chain)).
Proof.
  unfold step2_loop.
  induction directs as [|d ds IH]; intros chain k; cbn [fold_left].
  - split; [auto | intros [H|[_ [x [[] _]]]]; exact H].
  - rewrite IH. split.
    + intros [H|[-> [x [Hx [Hdef Hk]]]]].
      * apply place_on_direct_keys in H.
        destruct H as [H|[-> [Hdef Hk]]]; [auto|].
        right. split; [reflexivity|]. exists d. simpl. auto.
      * apply place_on_direct_keys in Hk.
        destruct Hk as [Hk|[-> [Hdef' Hk]]]; right; (split; [reflexivity|]).
        -- exists x. simpl. auto.
        -- exists d. simpl. auto.
    + intros [H|[-> [x [[<-|Hx] [Hdef Hk]]]]].
      * left. apply place_on_direct_keys. auto.
      * left. apply place_on_direct_keys. auto.
      * right. split; [reflexivity|]. exists x.
        split; [exact Hx|]. split; [exact Hdef|].
        apply place_on_direct_keys. auto.
Qed.

Lemma step3_loop_keys_iff vd indirect indirects : forall chain k,
  In k (Dict.keys (step3_loop vd indirect indirects chain))
  <-> In k (Dict.keys chain)
      \/ (k = indirect
          /\ exists level2_agg, In level2_agg indirects
               /\ indirect <> level2_agg
               /\ def_contains vd indirect level2_agg = true
               /\ In level2_agg (Dict.keys chain)).
Proof.
  unfold step3_loop.
  induction indirects as [|d ds IH]; intros chain k; cbn [fold_left].
  - split; [auto | intros [H|[_ [x [[] _]]]]; exact H].
  - rewrite IH. split.
    + intros [H|[-> [x [Hx [Hne [Hdef Hk]]]]]].
      * apply place_on_level2_keys in H.
        destruct H as [H|[-> [Hne [Hdef Hk]]]]; [auto|].
        right. split; [reflexivity|]. exists d. simpl. auto.
      * apply place_on_level2_keys in Hk.
        destruct Hk as [Hk|[Heq _]]; [|congruence].
        right. split; [reflexivity|]. exists x. simpl. auto.
    + intros [H|[-> [x [[<-|Hx] [Hne [Hdef Hk]]]]]].
      * left. apply place_on_level2_keys. auto.
      * left. apply place_on_level2_keys. auto.
      * right. split; [reflexivity|]. exists x.
        split; [exact Hx|]. split; [exact Hne|]. split; [exact Hdef|].
        apply place_on_level2_keys. auto.
Qed.

Lemma placed_at_turn_spec vd directs indirects views indirect :
  placed_at_turn vd directs indirects views indirect = true
  <-> (exists direct, In direct directs
         /\ def_contains vd indirect direct = true /\ In direct views)
      \/ (exists level2_agg, In level2_agg indirects
            /\ indirect <> level2_agg
            /\ def_contains vd indirect level2_agg = true
            /\ In level2_agg views).
Proof.
  unfold placed_at_turn. rewrite orb_true_iff, !existsb_exists.
  split; intros [[x [Hx H]]|[x [Hx H]]]; [left | right | left | right]; exists x.
  - apply andb_true_iff in H. destruct H as [H1 H2].
    apply PyStrFacts.mem_In in H2. auto.
  - apply andb_true_iff in H. destruct H as [H H3].
    apply andb_true_iff in H. destruct H as [H1 H2].
    apply negb_true_iff, String.eqb_neq in H1.
    apply PyStrFacts.mem_In in H3. auto.
  - destruct H as [H1 H2]. split; [exact Hx|].
    apply andb_true_iff. split; [exact H1 | now apply PyStrFacts.mem_In].
  - destruct H as [H1 [H2 H3]]. split; [exact Hx|].
    rewrite !andb_true_iff. repeat split; auto.
    + now apply negb_true_iff, String.eqb_neq.
    + now apply PyStrFacts.mem_In.
Qed.

(** One turn of the loop of line 88, on the keys. *)
Lemma place_indirect_keys_iff vd directs indirects chain indirect k :
  In k (Dict.keys (place_indirect vd directs indirects chain indirect))
  <-> In k (Dict.keys chain)
      \/ (k = indirect
          /\ placed_at_turn vd directs indirects (Dict.keys chain) indirect = true).
Proof.
  unfold place_indirect. rewrite step3_loop_keys_iff, step2_loop_keys_iff.
  rewrite placed_at_turn_spec. split.
  - intros [[H|[-> H]]|[-> [x [Hx [Hne [Hdef Hk]]]]]]; [auto | auto |].
    apply step2_loop_keys_iff in Hk. destruct Hk as [Hk|[Heq H]].
    + right. split; [reflexivity|]. right. exists x. auto.
    + congruence.
  - intros [H|[-> [H|[x [Hx [Hne [Hdef Hk]]]]]]]; [auto | auto |].
    right. split; [reflexivity|]. exists x.
    split; [exact Hx|]. split; [exact Hne|]. split; [exact Hdef|].
    apply step2_loop_keys_iff. auto.
Qed.

Lemma existsb_pointwise {A} (f g : A -> bool) xs :
  (forall x, f x = g x) -> existsb f xs = existsb g xs.
Proof.
  intros H. induction xs as [|x xs IH]; simpl; [reflexivity | now rewrite H, IH].
Qed.

Lemma placed_at_turn_ext vd directs indirects views views' indirect :
  (forall k, In k views <-> In k views') ->
  placed_at_turn vd directs indirects views indirect
  = placed_at_turn vd directs indirects views' indirect.
Proof.
  intros Heq.
  assert (Hm : forall x, PyStr.mem x views = PyStr.mem x views').
  { intros x. destruct (PyStr.mem x views) eqn:E; symmetry.
    - apply PyStrFacts.mem_In. apply Heq. now apply PyStrFacts.mem_In.
    - apply PyStrFacts.mem_false. rewrite <- Heq. now apply PyStrFacts.mem_false. }
  unfold placed_at_turn. f_equal; apply existsb_pointwise; intros x; now rewrite Hm.
Qed.

(** The whole loop of line 88, on the keys. *)
Lemma place_all_keys_iff vd directs indirects todo : forall chain views,
  (forall k, In k (Dict.keys chain) <-> In k views) ->
  forall k,
    In k (Dict.keys (fold_left (place_indirect vd directs indirects) todo chain))
    <-> In k (views_after vd directs indirects todo views).
Proof.
  induction todo as [|i todo IH]; intros chain views Heq k; cbn [fold_left views_after];
    [apply Heq|].
  apply IH. intros x. rewrite place_indirect_keys_iff.
  rewrite (placed_at_turn_ext vd directs indirects _ views i Heq).
  destruct (placed_at_turn vd directs indirects views i).
  - rewrite in_app_iff, Heq. simpl. intuition congruence.
  - rewrite Heq. intuition discriminate.
Qed.

Lemma process_table_other vd cc t aggs table :
  t <> table ->
  Dict.get table (process_table vd cc (t, aggs)) = Dict.get table cc.
Proof.
  intros Hne. rewrite process_table_unfold.
  destruct (directs_of aggs); [reflexivity|].
  now apply DictFacts.get_set_ne.
Qed.

Lemma placed_other vd items : forall cc table,
  ~ In table (Dict.keys items) ->
  Dict.get table (fold_left (process_table vd) items cc) = Dict.get table cc.
Proof.
  induction items as [|[t aggs] items IH]; intros cc table Hn; cbn [fold_left];
    [reflexivity|].
  simpl in Hn. rewrite IH by tauto. apply process_table_other. tauto.
Qed.

(** The chain that the first loop builds for a table. *)
Lemma placed_chain_views agg_chain vd table aggs :
  NoDup (Dict.keys agg_chain) ->
  In (table, aggs) agg_chain ->
  directs_of aggs <> [] ->
  exists chain,
    Dict.get table (placed_chains agg_chain vd) = Some chain
    /\ forall view, In view (Dict.keys chain) <-> In view (chain_views vd aggs).
Proof.
  intros Hnd Hin Hd. unfold placed_chains.
  apply in_split in Hin. destruct Hin as [pre [post ->]].
  unfold Dict.keys in Hnd. rewrite map_app in Hnd. cbn [map fst] in Hnd.
  pose proof (NoDup_remove_2 _ _ _ Hnd) as Hn.
  rewrite fold_left_app. cbn [fold_left].
  rewrite placed_other by (intros H; apply Hn; apply in_or_app; now right).
  rewrite process_table_unfold.
  destruct (directs_of aggs) as [|d ds] eqn:D; [contradiction|]. rewrite <- D.
  rewrite DictFacts.get_set_eq. eexists. split; [reflexivity|].
  intros view. unfold chain_views. apply place_all_keys_iff.
  intros k. rewrite seed_keys.
  assert (Hnone : Dict.get table (fold_left (process_table vd) pre []) = None).
  { rewrite placed_other; [reflexivity|].
    intros H. apply Hn. apply in_or_app. now left. }
  unfold Dict.get_default, CompleteChains, Chain, Dict.t in *.
  rewrite Hnone. simpl. tauto.
Qed.

(** The keys of a resolved chain. *)
Lemma resolved_chain_views agg_chain vd graph table aggs :
  NoDup (Dict.keys agg_chain) ->
  In (table, aggs) agg_chain ->
  directs_of aggs <> [] ->
  exists cc chain,
    build_aggregate_chains agg_chain vd graph = Some cc
    /\ Dict.get table cc = Some chain
    /\ forall view, In view (Dict.keys chain) <-> In view (chain_views vd aggs).
Proof.
  intros Hnd Hin Hd.
  destruct (build_aggregate_chains_total agg_chain vd graph) as [cc [Hrun Hshape]].
  destruct (placed_chain_views agg_chain vd table aggs Hnd Hin Hd) as [chain0 [G0 K0]].
  destruct (shape_get _ _ _ _ (eq_sym Hshape) G0) as [chain [G K]].
  exists cc, chain. split; [exact Hrun|]. split; [exact G|].
  intros view. rewrite K. apply K0.
Qed.

Lemma views_after_in vd directs indirects todo : forall views k,
  In k (views_after vd directs indirects todo views) ->
  In k views
  \/ exists views', placed_at_turn vd directs indirects views' k = true.
Proof.
  induction todo as [|i todo IH]; intros views k; cbn [views_after]; [auto|].
  intros H. apply IH in H. destruct H as [H|H]; [|auto].
  destruct (placed_at_turn vd directs indirects views i) eqn:E; [|auto].
  apply in_app_or in H. destruct H as [H|[<-|[]]]; eauto.
Qed.

(** An indirect aggregate that is not also a direct one and whose
    definition is missing, or names none of the table's other aggregates,
    is no view of the chain. *)
Lemma unplaced_indirect_is_no_view vd aggs indirect :
  ~ In indirect (directs_of aggs) ->
  (forall other, In other (directs_of aggs ++ indirects_of aggs) ->
                 other <> indirect -> def_contains vd indirect other = false) ->
  ~ In indirect (chain_views vd aggs).
Proof.
  intros Hnd Hdef H. unfold chain_views in H.
  apply views_after_in in H. destruct H as [H|[views' H]]; [contradiction|].
  apply placed_at_turn_spec in H.
  destruct H as [[d [Hd [Hc _]]]|[a [Ha [Hne [Hc _]]]]].
  - rewrite Hdef in Hc; [discriminate | apply in_or_app; now left |].
    intros ->. contradiction.
  - rewrite Hdef in Hc; [discriminate | apply in_or_app; now right | congruence].
Qed.

(** C5, in the form that holds of the code.  The resolver never raises.
    For a table of [agg_chain] with a direct aggregate, the keys of the
    resolved chain are exactly the direct aggregates and the indirect
    aggregates that get an entry at one of their turns: when the
    definition names a direct aggregate, or another indirect aggregate
    that is a key of the chain at that turn.  So an indirect aggregate
    whose definition names a direct aggregate is kept, and one that is
    not also direct and whose definition is missing or names none of the
    table's other aggregates has no entry: there is no default entry. *)
Theorem indirect_kept_iff_placed
    (agg_chain : AggChain) (vd : ViewDefinitions) (graph : option DependencyGraph)
    (table : string) (aggs : Aggregates) :
  NoDup (Dict.keys agg_chain) ->
  In (table, aggs) agg_chain ->
  directs_of aggs <> [] ->
  exists cc chain,
    build_aggregate_chains agg_chain vd graph = Some cc
    /\ Dict.get table cc = Some chain
    /\ (forall view, In view (Dict.keys chain) <-> In view (chain_views vd aggs))
    /\ (forall indirect direct,
          In indirect (indirects_of aggs) -> In direct (directs_of aggs) ->
          def_contains vd indirect direct = true ->
          exists e, Dict.get indirect chain = Some e)
    /\ (forall indirect,
          ~ In indirect (directs_of aggs) ->
          (forall other, In other (directs_of aggs ++ indirects_of aggs) ->
                         other <> indirect -> def_contains vd indirect other = false) ->
          Dict.get indirect chain = None).
Proof.
  intros Hnd Hin Hd.
  destruct (resolved_chain_views agg_chain vd graph table aggs Hnd Hin Hd)
    as [cc [chain [Hrun [Hget Hviews]]]].
  exists cc, chain. split; [exact Hrun|]. split; [exact Hget|].
  split; [exact Hviews|]. split.
  - intros indirect direct Hi Hdir Hdef.
    destruct (build_aggregate_chains_total agg_chain vd graph) as [cc' [Hrun' Hshape]].
    rewrite Hrun in Hrun'. injection Hrun' as <-.
    destruct (placed_places vd agg_chain [] table aggs direct indirect Hin Hdir Hi Hdef)
      as [chain0 [G0 K0]].
    destruct (shape_get _ _ _ _ (eq_sym Hshape) G0) as [chain' [G K]].
    unfold CompleteChains, Chain, Dict.t in *.
    rewrite Hget in G. injection G as <-.
    rewrite <- K in K0. now apply DictFacts.get_Some_keys in K0.
  - intros indirect Hn Hdef. apply DictFacts.get_None_keys.
    rewrite Hviews. now apply unplaced_indirect_is_no_view.
Qed.

Lemma indirect_kept_iff_placed_witness :
  exists cc chain,
    build_aggregate_chains
      [("raw", [("direct", ["agg_1min"]); ("indirect", ["agg_1hour"; "agg_1day"])])]
      Scenario.three_level_defs None = Some cc
    /\ Dict.get "raw" cc = Some chain
    /\ (forall view,
          In view (Dict.keys chain)
          <-> In view (chain_views Scenario.three_level_defs
                         [("direct", ["agg_1min"]);
                          ("indirect", ["agg_1hour"; "agg_1day"])]))
    /\ (forall indirect direct,
          In indirect ["agg_1hour"; "agg_1day"] -> In direct ["agg_1min"] ->
          def_contains Scenario.three_level_defs indirect direct = true ->
          exists e, Dict.get indirect chain = Some e)
    /\ (forall indirect,
          ~ In indirect ["agg_1min"] ->
          (forall other, In other (["agg_1min"] ++ ["agg_1hour"; "agg_1day"]) ->
                         other <> indirect ->
                         def_contains Scenario.three_level_defs indirect other = false) ->
          Dict.get indirect chain = None).
Proof.
  apply (indirect_kept_iff_placed
           [("raw", [("direct", ["agg_1min"]); ("indirect", ["agg_1hour"; "agg_1day"])])]
           Scenario.three_level_defs None "raw"
           [("direct", ["agg_1min"]); ("indirect", ["agg_1hour"; "agg_1day"])]).
  - repeat constructor. simpl. tauto.
  - simpl. auto.
  - discriminate.
Defined.

(** C5 as stated fails: an indirect aggregate of a table with a direct
    aggregate can be missing from the resolved chain. *)
Lemma indirect_aggregate_dropped :
  ~ (forall (agg_chain : AggChain) (vd : ViewDefinitions)
            (graph : option DependencyGraph) table aggs view,
        In (table, aggs) agg_chain ->
        directs_of aggs <> [] ->
        In view (indirects_of aggs) ->
        exists cc chain e,
          build_aggregate_chains agg_chain vd graph = Some cc
          /\ Dict.get table cc = Some chain
          /\ Dict.get view chain = Some e).
Proof.
  intros H.
  destruct (H Scenario.unmatched_chain Scenario.unmatched_defs None
              "health_metrics_raw"
              [("direct", ["health_metrics_1min"]); ("indirect", ["health_metrics_1hour"])]
              "health_metrics_1hour")
    as [cc [chain [e [Hrun [Hget Hview]]]]].
  - simpl. auto.
  - discriminate.
  - simpl. auto.
  - vm_compute in Hrun. injection Hrun as <-.
    vm_compute in Hget. injection Hget as <-.
    vm_compute in Hview. discriminate.
Qed.

(** C8, in the form that holds of the code. A base table that is listed neither among its own
    direct aggregates nor among its own indirect aggregates is not a key
    of its own resolved chain. *)
Theorem no_self_reference
    (agg_chain : AggChain) (vd : ViewDefinitions) (graph : option DependencyGraph)
    (cc : CompleteChains) (table : string) (chain : Chain) :
  (forall aggs, In (table, aggs) agg_chain ->
                ~ In table (directs_of aggs) /\ ~ In table (indirects_of aggs)) ->
  build_aggregate_chains agg_chain vd graph = Some cc ->
  Dict.get table cc = Some chain ->
  Dict.get table chain = None.
Proof.
  intros Hno Hrun Hget. apply DictFacts.get_None_keys. intros Hk.
  destruct (chain_views_admitted _ _ _ _ _ _ _ Hrun Hget Hk) as [aggs [Hin Hadm]].
  destruct (Hno _ Hin) as [Hd Hi]. destruct Hadm as [H|[H _]]; auto.
Qed.

Lemma no_self_reference_witness :
  Dict.get "raw"
    [("agg_a", mkEntry 1 "raw" ["agg_c"]);
     ("agg_b", mkEntry 1 "raw" ["agg_c"]);
     ("agg_c", mkEntry 2 "agg_b" [])] = None.
Proof.
  apply (no_self_reference Scenario.tie_chain Scenario.tie_defs None
           [("raw", [("agg_a", mkEntry 1 "raw" ["agg_c"]);
                     ("agg_b", mkEntry 1 "raw" ["agg_c"]);
                     ("agg_c", mkEntry 2 "agg_b" [])])] "raw").
  - intros aggs [[= <-]|[]]. simpl. split; intros H; intuition discriminate.
  - reflexivity.
  - reflexivity.
Defined.

(** C8 as stated fails: a base table listed among its own direct
    aggregates is a key of its own chain. *)
Lemma self_reference_possible :
  ~ (forall (agg_chain : AggChain) (vd : ViewDefinitions)
            (graph : option DependencyGraph) cc table chain,
        build_aggregate_chains agg_chain vd graph = Some cc ->
        Dict.get table cc = Some chain ->
        Dict.get table chain = None).
Proof.
  intros H.
  specialize (H Scenario.self_chain [] None
                [("metrics", [("metrics", mkEntry 1 "metrics" [])])]
                "metrics" [("metrics", mkEntry 1 "metrics" [])]
                eq_refl eq_refl).
  discriminate.
Qed.

(** ** Steps 2 and 3: which candidate is recorded as the source *)

Lemma step2_loop_snoc vd indirect directs direct chain :
  step2_loop vd indirect (directs ++ [direct]) chain
  = place_on_direct vd indirect (step2_loop vd indirect directs chain) direct.
Proof. unfold step2_loop. now rewrite fold_left_app. Qed.

Lemma step3_loop_snoc vd indirect indirects level2_agg chain :
  step3_loop vd indirect (indirects ++ [level2_agg]) chain
  = place_on_level2 vd indirect (step3_loop vd indirect indirects chain) level2_agg.
Proof. unfold step3_loop. now rewrite fold_left_app. Qed.

Lemma step2_last_match vd indirect chain directs :
  (forall d, In d directs -> In d (Dict.keys chain)) ->
  filter (def_contains vd indirect) directs <> [] ->
  Dict.get indirect (step2_loop vd indirect directs chain)
  = Some (mkEntry 2 (last (filter (def_contains vd indirect) directs) "") []).
Proof.
  induction directs as [|d ds IH] using rev_ind; intros Hkeys; [now intros []|].
  rewrite filter_app, step2_loop_snoc. simpl.
  unfold place_on_direct at 1.
  destruct (def_contains vd indirect d) eqn:Hdef.
  - intros _. rewrite last_last.
    assert (Hd : In d (Dict.keys (step2_loop vd indirect ds chain))).
    { apply step2_loop_mono, Hkeys, in_or_app. right. now left. }
    apply DictFacts.get_Some_keys in Hd. destruct Hd as [e He].
    unfold Chain, Dict.t in *. rewrite He. apply DictFacts.get_set_eq.
  - rewrite app_nil_r. apply IH.
    intros d' Hd'. apply Hkeys, in_or_app. now left.
Qed.

Lemma step3_mem_stable vd indirect indirects chain k :
  k <> indirect ->
  Dict.mem k (step3_loop vd indirect indirects chain) = Dict.mem k chain.
Proof.
  intros Hne.
  destruct (Dict.mem k chain) eqn:E.
  - apply DictFacts.mem_keys. apply step3_loop_mono. now apply DictFacts.mem_keys.
  - destruct (Dict.mem k (step3_loop vd indirect indirects chain)) eqn:E'; [|reflexivity].
    apply DictFacts.mem_keys in E'. apply step3_loop_keys in E'.
    destruct E' as [H|[H _]]; [|contradiction].
    apply DictFacts.mem_keys in H. congruence.
Qed.

Lemma step3_last_match vd indirect chain indirects :
  level2_candidates vd indirect chain indirects <> [] ->
  Dict.get indirect (step3_loop vd indirect indirects chain)
  = Some (mkEntry 3 (last (level2_candidates vd indirect chain indirects) "") []).
Proof.
  unfold level2_candidates.
  induction indirects as [|a ds IH] using rev_ind; [now intros []|].
  rewrite filter_app, step3_loop_snoc. simpl.
  unfold place_on_level2 at 1.
  destruct (String.eqb_spec indirect a) as [Heq|Hne]; simpl.
  { rewrite app_nil_r. exact IH. }
  destruct (def_contains vd indirect a) eqn:Hdef; simpl;
    [|rewrite app_nil_r; exact IH].
  assert (Hmem : Dict.mem a (step3_loop vd indirect ds chain) = Dict.mem a chain)
    by (apply step3_mem_stable; congruence).
  unfold Dict.mem in Hmem at 1.
  unfold Chain, Dict.t in *.
  destruct (Dict.get a (step3_loop vd indirect ds chain)) as [e|] eqn:He;
    rewrite <- Hmem.
  - intros _. rewrite last_last. apply DictFacts.get_set_eq.
  - rewrite app_nil_r. exact IH.
Qed.

(** C6, in the form that holds of the code. In steps 2 and 3 the candidate that comes last in
    iteration order is the one recorded as the source: when the definition
    of an indirect view names several direct aggregates, step 2 leaves the
    view at level 2 under the last of them, and when it names several other
    indirect aggregates that are in the chain, step 3 leaves it at level 3
    under the last of those. *)
Theorem last_match_wins
    (vd : ViewDefinitions) (indirect : string) (chain : Chain)
    (direct_aggs indirect_aggs : list string) :
  (forall d, In d direct_aggs -> In d (Dict.keys chain)) ->
  (filter (def_contains vd indirect) direct_aggs <> [] ->
   Dict.get indirect (step2_loop vd indirect direct_aggs chain)
   = Some (mkEntry 2 (last (filter (def_contains vd indirect) direct_aggs) "") []))
  /\ (level2_candidates vd indirect chain indirect_aggs <> [] ->
      Dict.get indirect (step3_loop vd indirect indirect_aggs chain)
      = Some (mkEntry 3 (last (level2_candidates vd indirect chain indirect_aggs) "") [])).
Proof.
  intros Hkeys. split.
  - now apply step2_last_match.
  - apply step3_last_match.
Qed.

Lemma last_match_wins_witness :
  (filter (def_contains Scenario.tie_defs "agg_c") ["agg_a"; "agg_b"] <> [] ->
   Dict.get "agg_c"
     (step2_loop Scenario.tie_defs "agg_c" ["agg_a"; "agg_b"]
        [("agg_a", mkEntry 1 "raw" []); ("agg_b", mkEntry 1 "raw" [])])
   = Some (mkEntry 2
             (last (filter (def_contains Scenario.tie_defs "agg_c") ["agg_a"; "agg_b"]) "")
             []))
  /\ (level2_candidates Scenario.tie_defs "agg_c"
        [("agg_a", mkEntry 1 "raw" []); ("agg_b", mkEntry 1 "raw" [])]
        ["agg_a"; "agg_b"; "agg_c"] <> [] ->
      Dict.get "agg_c"
        (step3_loop Scenario.tie_defs "agg_c" ["agg_a"; "agg_b"; "agg_c"]
           [("agg_a", mkEntry 1 "raw" []); ("agg_b", mkEntry 1 "raw" [])])
      = Some (mkEntry 3
                (last (level2_candidates Scenario.tie_defs "agg_c"
                         [("agg_a", mkEntry 1 "raw" []); ("agg_b", mkEntry 1 "raw" [])]
                         ["agg_a"; "agg_b"; "agg_c"]) "")
                [])).
Proof.
  apply (last_match_wins Scenario.tie_defs "agg_c"
           [("agg_a", mkEntry 1 "raw" []); ("agg_b", mkEntry 1 "raw" [])]
           ["agg_a"; "agg_b"] ["agg_a"; "agg_b"; "agg_c"]).
  simpl. intros d [<-|[<-|[]]]; auto.
Defined.

(** C6 as stated fails: the definition of [agg_c] names the direct
    aggregates [agg_a] and [agg_b], in this order of iteration, and the
    resolved source of [agg_c] is [agg_b]. *)
Lemma first_match_does_not_win :
  filter (def_contains Scenario.tie_defs "agg_c") (directs_of
    [("direct", ["agg_a"; "agg_b"]); ("indirect", ["agg_c"])]) = ["agg_a"; "agg_b"]
  /\ exists cc chain e,
       build_aggregate_chains Scenario.tie_chain Scenario.tie_defs None = Some cc
       /\ Dict.get "raw" cc = Some chain
       /\ Dict.get "agg_c" chain = Some e
       /\ source e = "agg_b"
       /\ source e <> "agg_a".
Proof.
  split; [reflexivity|].
  exists [("raw", [("agg_a", mkEntry 1 "raw" ["agg_c"]);
                   ("agg_b", mkEntry 1 "raw" ["agg_c"]);
                   ("agg_c", mkEntry 2 "agg_b" [])])],
         [("agg_a", mkEntry 1 "raw" ["agg_c"]);
          ("agg_b", mkEntry 1 "raw" ["agg_c"]);
          ("agg_c", mkEntry 2 "agg_b" [])],
         (mkEntry 2 "agg_b" []).
  repeat split; try reflexivity. discriminate.
Qed.

(** ** The dependency-graph builder *)

Lemma add_edge_get graph source target :
  Dict.get source (add_edge graph source target)
  = Some (let targets := Dict.get_default source [] graph in
          if PyStr.mem target targets then targets else targets ++ [target]).
Proof.
  unfold add_edge, Dict.mem, Dict.get_default, DependencyGraph, Dict.t in *.
  destruct (Dict.get source graph) as [ts|] eqn:E; simpl.
  - rewrite E. destruct (PyStr.mem target ts); simpl; [assumption|].
    apply DictFacts.get_set_eq.
  - rewrite DictFacts.get_set_eq. simpl. apply DictFacts.get_set_eq.
Qed.

Lemma add_edge_get_other graph source target other :
  other <> source ->
  Dict.get other (add_edge graph source target) = Dict.get other graph.
Proof.
  intros Hne. unfold add_edge.
  set (g1 := if negb (Dict.mem source graph) then Dict.set source [] graph else graph).
  assert (H1 : Dict.get other g1 = Dict.get other graph).
  { subst g1. destruct (negb (Dict.mem source graph)); [|reflexivity].
    apply DictFacts.get_set_ne. congruence. }
  destruct (negb (PyStr.mem target (Dict.get_default source [] g1))); [|assumption].
  rewrite DictFacts.get_set_ne; [assumption | congruence].
Qed.


Lemma add_edge_records graph source target :
  edge_in (add_edge graph source target) source target.
Proof.
  eexists. split; [apply add_edge_get|]. simpl.
  destruct (PyStr.mem target _) eqn:E.
  - now apply PyStrFacts.mem_In.
  - apply in_or_app. right. now left.
Qed.

Lemma add_edge_keeps graph source target s t :
  edge_in graph s t -> edge_in (add_edge graph source target) s t.
Proof.
  intros [ts [Hget Hin]]. destruct (String.eqb_spec s source) as [->|Hne].
  - eexists. split; [apply add_edge_get|]. simpl.
    unfold Dict.get_default. unfold DependencyGraph, Dict.t in *. rewrite Hget.
    destruct (PyStr.mem target ts); [assumption | apply in_or_app; now left].
  - exists ts. split; [|assumption]. now rewrite add_edge_get_other.
Qed.









(** ** The health-metrics special case *)

Lemma sort_insert_perm x xs : Permutation (x :: xs) (sort_insert x xs).
Proof.
  induction xs as [|y ys IH]; simpl; [reflexivity|].
  destruct (String.leb x y); [reflexivity|].
  rewrite perm_swap. now constructor.
Qed.

Lemma sort_strings_perm xs : Permutation xs (sort_strings xs).
Proof.
  induction xs as [|x xs IH]; simpl; [constructor|].
  rewrite <- sort_insert_perm. now constructor.
Qed.

Lemma sort_insert_sorted x xs :
  Sorted str_le xs -> Sorted str_le (sort_insert x xs).
Proof.
  induction xs as [|y ys IH]; simpl; intros Hs; [repeat constructor|].
  destruct (String.leb x y) eqn:E.
  - constructor; [assumption | now constructor].
  - inversion Hs as [|? ? Hs' Hhd]; subst.
    constructor; [now apply IH|].
    assert (Hyx : str_le y x).
    { destruct (String.leb_total x y) as [H|H]; [congruence | exact H]. }
    destruct ys as [|z zs]; simpl; [now constructor|].
    destruct (String.leb x z); constructor; [assumption|].
    now inversion Hhd.
Qed.

Lemma sort_strings_sorted xs : Sorted str_le (sort_strings xs).
Proof.
  induction xs as [|x xs IH]; simpl; [constructor | now apply sort_insert_sorted].
Qed.

Lemma set_set {V} k (v v' : V) d : Dict.set k v' (Dict.set k v d) = Dict.set k v' d.
Proof.
  induction d as [|[k0 v0] d IH]; simpl.
  - now rewrite String.eqb_refl.
  - destruct (String.eqb k0 k) eqn:E; simpl.
    + now rewrite String.eqb_refl.
    + now rewrite E, IH.
Qed.

Lemma add_health_link_value health_views agg_chain i current aggs :
  nth_error health_views i = Some current ->
  Dict.get "health_metrics_raw" agg_chain = Some aggs ->
  add_health_link health_views agg_chain i
  = Some (Dict.set "health_metrics_raw" (link_value current aggs) agg_chain).
Proof.
  intros Hnth Hget. unfold add_health_link, link_value, directs_of, indirects_of.
  unfold AggChain, Aggregates, Dict.t in *.
  rewrite Hnth, Hget. cbn [bind].
  destruct (negb (PyStr.mem current (Dict.get_default "direct" [] aggs))
            && negb (PyStr.mem current (Dict.get_default "indirect" [] aggs))).
  - unfold Dict.mem, Dict.get_default.
    destruct (Dict.get "indirect" aggs) as [ind|] eqn:E; simpl.
    + rewrite E. reflexivity.
    + rewrite DictFacts.get_set_eq. simpl. now rewrite set_set.
  - now rewrite DictFacts.set_get_same.
Qed.

Lemma health_links_fold health_views : forall idxs vs agg_chain aggs,
  map (nth_error health_views) idxs = map Some vs ->
  Dict.get "health_metrics_raw" agg_chain = Some aggs ->
  for_each (add_health_link health_views) idxs agg_chain
  = Some (Dict.set "health_metrics_raw"
            (fold_left (fun a v => link_value v a) vs aggs) agg_chain).
Proof.
  induction idxs as [|i idxs IH]; intros [|v vs] agg_chain aggs Hmap Hget;
    try discriminate; simpl.
  - now rewrite DictFacts.set_get_same.
  - simpl in Hmap. injection Hmap as Hi Hrest.
    rewrite (add_health_link_value _ _ _ _ _ Hi Hget). cbn [bind].
    rewrite (IH vs _ (link_value v aggs) Hrest (DictFacts.get_set_eq _ _ _)).
    now rewrite set_set.
Qed.

Lemma tail_by_index {A} (xs : list A) :
  map (nth_error xs) (seq 1 (length xs - 1)) = map Some (tl xs).
Proof.
  destruct xs as [|x xs]; [reflexivity|]. simpl. rewrite Nat.sub_0_r.
  rewrite <- seq_shift, map_map. simpl.
  induction xs as [|y ys IH]; [reflexivity|]. simpl.
  rewrite <- seq_shift, map_map. simpl. f_equal. exact IH.
Qed.

Lemma link_value_directs v aggs : directs_of (link_value v aggs) = directs_of aggs.
Proof.
  unfold link_value. destruct (_ && _); [|reflexivity].
  unfold directs_of, Dict.get_default. now rewrite DictFacts.get_set_ne.
Qed.

Lemma link_value_indirects v aggs :
  indirects_of (link_value v aggs)
  = indirects_of aggs
    ++ (if negb (PyStr.mem v (directs_of aggs)) && negb (PyStr.mem v (indirects_of aggs))
        then [v] else []).
Proof.
  unfold link_value. destruct (_ && _); [|now rewrite app_nil_r].
  unfold indirects_of at 1, Dict.get_default. now rewrite DictFacts.get_set_eq.
Qed.

(** The views added by a run of the loop over [vs]. *)
Lemma link_values_spec vs : forall aggs,
  exists extra,
    indirects_of (fold_left (fun a v => link_value v a) vs aggs)
    = indirects_of aggs ++ extra
    /\ directs_of (fold_left (fun a v => link_value v a) vs aggs) = directs_of aggs
    /\ (forall v, In v vs ->
          In v (directs_of aggs) \/ In v (indirects_of aggs ++ extra))
    /\ (forall v, In v extra ->
          In v vs /\ ~ In v (directs_of aggs) /\ ~ In v (indirects_of aggs))
    /\ NoDup extra.
Proof.
  induction vs as [|v vs IH]; intros aggs; simpl.
  - exists []. rewrite app_nil_r. repeat split; try tauto. constructor.
  - destruct (IH (link_value v aggs)) as [extra [Hind [Hdir [Hcov [Hnew Hnd]]]]].
    rewrite link_value_directs in *. rewrite link_value_indirects in *.
    destruct (negb (PyStr.mem v (directs_of aggs))
              && negb (PyStr.mem v (indirects_of aggs))) eqn:Hc.
    + apply andb_true_iff in Hc. destruct Hc as [Ed Ei].
      apply negb_true_iff in Ed, Ei. apply PyStrFacts.mem_false in Ed, Ei.
      exists (v :: extra). rewrite <- app_assoc in *. simpl in *.
      split; [assumption|]. split; [assumption|]. split; [|split].
      * intros w [<-|Hw]; [|now apply Hcov].
        right. apply in_or_app. right. now left.
      * intros w [<-|Hw]; [auto|].
        destruct (Hnew w Hw) as [H1 [H2 H3]]. repeat split; auto.
        intros Hi. apply H3. apply in_or_app. now left.
      * constructor; [|assumption]. intros Hv.
        apply (proj2 (proj2 (Hnew v Hv))). apply in_or_app. right. now left.
    + rewrite app_nil_r in *.
      exists extra. split; [assumption|]. split; [assumption|]. split; [|split].
      * intros w [<-|Hw]; [|now apply Hcov].
        apply andb_false_iff in Hc. destruct Hc as [Hc|Hc];
          apply negb_false_iff, PyStrFacts.mem_In in Hc; [now left|].
        right. apply in_or_app. now left.
      * intros w Hw. destruct (Hnew w Hw) as [H1 [H2 H3]]. auto.
      * assumption.
Qed.

(** C9. The collector has a special case for the views whose names start
    with [health_metrics_]: their names are sorted, and when there are at
    least two of them and [health_metrics_raw] has an entry in [agg_chain],
    every one after the first becomes an indirect aggregate of
    [health_metrics_raw] unless it is already listed as direct or indirect.
    Neither the view definitions nor the relationship rows are consulted:
    the names of the catalog rows decide alone. *)
Theorem health_metrics_special_case (caggs : list CaggRow) (agg_chain : AggChain) :
  let health_views := health_views_of caggs in
  Sorted str_le health_views
  /\ Permutation
       (filter (PyStr.startswith "health_metrics_") (map view_name caggs))
       health_views
  /\ match Dict.get "health_metrics_raw" agg_chain with
     | Some aggs =>
         if (2 <=? length health_views)%nat then
           exists aggs' extra,
             health_metrics_chain caggs agg_chain
             = Some (Dict.set "health_metrics_raw" aggs' agg_chain)
             /\ directs_of aggs' = directs_of aggs
             /\ indirects_of aggs' = indirects_of aggs ++ extra
             /\ (forall v, In v (tl health_views) ->
                   In v (directs_of aggs) \/ In v (indirects_of aggs'))
             /\ (forall v, In v extra ->
                   In v (tl health_views)
                   /\ ~ In v (directs_of aggs) /\ ~ In v (indirects_of aggs))
             /\ NoDup extra
         else health_metrics_chain caggs agg_chain = Some agg_chain
     | None => health_metrics_chain caggs agg_chain = Some agg_chain
     end.
Proof.
  intros health_views.
  split; [apply sort_strings_sorted|]. split; [apply sort_strings_perm|].
  unfold health_metrics_chain. fold health_views.
  destruct caggs as [|c caggs].
  { destruct (Dict.get "health_metrics_raw" agg_chain); reflexivity. }
  remember (c :: caggs) as rows.
  unfold Dict.mem.
  destruct (Dict.get "health_metrics_raw" agg_chain) as [aggs|] eqn:Hget;
    [|now destruct (2 <=? length health_views)%nat].
  destruct (2 <=? length health_views)%nat; [|reflexivity].
  destruct (link_values_spec (tl health_views) aggs)
    as [extra [Hind [Hdir [Hcov [Hnew Hnd]]]]].
  exists (fold_left (fun a v => link_value v a) (tl health_views) aggs), extra.
  split.
  - apply health_links_fold; [apply tail_by_index | assumption].
  - rewrite Hind. auto.
Qed.

(** ** The three-level scenario *)

Lemma permutation_of_three {A} (a b c : A) (l : list A) :
  Permutation l [a; b; c] ->
  l = [a; b; c] \/ l = [a; c; b] \/ l = [b; a; c]
  \/ l = [b; c; a] \/ l = [c; a; b] \/ l = [c; b; a].
Proof.
  intros HP. pose proof (Permutation_length HP) as HL.
  destruct l as [|x [|y [|z [|w l]]]]; try discriminate. clear HL.
  assert (Hx : In x [a; b; c]) by (apply (Permutation_in x HP); now left).
  destruct Hx as [<-|[<-|[<-|[]]]].
  - apply Permutation_cons_inv in HP.
    apply Permutation_length_2_inv in HP. destruct HP as [[= -> ->]|[= -> ->]]; auto.
  - assert (HP' : Permutation (b :: [y; z]) (b :: [a; c])).
    { rewrite HP. apply perm_swap. }
    apply Permutation_cons_inv in HP'.
    apply Permutation_length_2_inv in HP'.
    destruct HP' as [[= -> ->]|[= -> ->]]; auto 6.
  - assert (HP' : Permutation (c :: [y; z]) (c :: [a; b])).
    { rewrite HP. rewrite (perm_swap c b []). apply perm_swap. }
    apply Permutation_cons_inv in HP'.
    apply Permutation_length_2_inv in HP'.
    destruct HP' as [[= -> ->]|[= -> ->]]; auto 7.
Qed.

Opaque PyStr.contains.

Ltac run_resolver H1 H2 H3 H4 H5 H6 :=
  repeat (progress
            (cbn;
             unfold get_all_continuous_aggregates, find_chained, build_aggregate_chains,
               def_contains, place_on_direct, place_on_level2, reconcile,
               reconcile_chain, reconcile_pair, graph_correct, graph_fix_view;
             cbn; rewrite ?H1, ?H2, ?H3, ?H4, ?H5, ?H6)).

(** C2. One direct relationship raw -> agg_1min, and view definitions, in
    any order, where the text of agg_1hour names agg_1min, the text of
    agg_1day names agg_1hour, and no text names another of the three views:
    the collector finds agg_1hour and agg_1day as indirect aggregates of
    raw, and the resolver puts agg_1min at level 1 under raw, agg_1hour at
    level 2 under agg_1min and agg_1day at level 3 under agg_1hour. *)
Theorem three_level_chain (d_min d_hour d_day : string) (vd : ViewDefinitions) :
  Permutation vd [("agg_1min", d_min); ("agg_1hour", d_hour); ("agg_1day", d_day)] ->
  PyStr.contains "agg_1min" d_hour = true ->
  PyStr.contains "agg_1hour" d_day = true ->
  PyStr.contains "agg_1hour" d_min = false ->
  PyStr.contains "agg_1day" d_min = false ->
  PyStr.contains "agg_1day" d_hour = false ->
  PyStr.contains "agg_1min" d_day = false ->
  exists c,
    get_all_continuous_aggregates [Scenario.direct_row "raw" "agg_1min"] vd [] = Some c
    /\ agg_chain_of c
       = [("raw", [("direct", ["agg_1min"]); ("indirect", ["agg_1hour"; "agg_1day"])])]
    /\ build_aggregate_chains (agg_chain_of c) (view_definitions_of c)
         (Some (dependency_graph_of c))
       = Some [("raw", [("agg_1min", mkEntry 1 "raw" ["agg_1hour"]);
                        ("agg_1hour", mkEntry 2 "agg_1min" ["agg_1day"]);
                        ("agg_1day", mkEntry 3 "agg_1hour" [])])].
Proof.
  intros HP H1 H2 H3 H4 H5 H6.
  apply permutation_of_three in HP.
  destruct HP as [-> | [-> | [-> | [-> | [-> | ->]]]]];
    (eexists; split; [run_resolver H1 H2 H3 H4 H5 H6; reflexivity|];
     split; [reflexivity|];
     run_resolver H1 H2 H3 H4 H5 H6; reflexivity).
Qed.

Transparent PyStr.contains.

Lemma three_level_chain_witness :
  exists c,
    get_all_continuous_aggregates [Scenario.direct_row "raw" "agg_1min"]
      Scenario.three_level_defs [] = Some c
    /\ agg_chain_of c
       = [("raw", [("direct", ["agg_1min"]); ("indirect", ["agg_1hour"; "agg_1day"])])]
    /\ build_aggregate_chains (agg_chain_of c) (view_definitions_of c)
         (Some (dependency_graph_of c))
       = Some [("raw", [("agg_1min", mkEntry 1 "raw" ["agg_1hour"]);
                        ("agg_1hour", mkEntry 2 "agg_1min" ["agg_1day"]);
                        ("agg_1day", mkEntry 3 "agg_1hour" [])])].
Proof.
  apply (three_level_chain
           "SELECT time_bucket('1 minute', ts) AS b, avg(v) FROM raw GROUP BY b"
           "SELECT time_bucket('1 hour', b) AS h, avg(v) FROM agg_1min GROUP BY h"
           "SELECT time_bucket('1 day', h) AS d, avg(v) FROM agg_1hour GROUP BY d"
           Scenario.three_level_defs).
  - apply Permutation_refl.
  - vm_compute. reflexivity.
  - vm_compute. reflexivity.
  - vm_compute. reflexivity.
  - vm_compute. reflexivity.
  - vm_compute. reflexivity.
  - vm_compute. reflexivity.
Defined.

(** ** The resolver over the object store: what a call can write *)

Module StoreFacts.

Import Store.

Lemma safe_ret {A} n0 (a : A) (Q : A -> Prop) : Q a -> safe n0 (ret a) Q.
Proof.
  intros HQ h Hn Hc. simpl. repeat split; auto. now intros b [= <-].
Qed.

Lemma safe_raise {A} n0 (Q : A -> Prop) : safe n0 raise Q.
Proof.
  intros h Hn Hc. simpl. repeat split; auto. discriminate.
Qed.

Lemma safe_weaken {A} n0 (m : M A) (P Q : A -> Prop) :
  safe n0 m P -> (forall a, P a -> Q a) -> safe n0 m Q.
Proof.
  intros Hm HPQ h Hn Hc. destruct (Hm h Hn Hc) as [H1 [H2 [H3 H4]]].
  repeat split; auto.
Qed.

Lemma safe_bind {A B} n0 (m : M A) (f : A -> M B) (P : A -> Prop) (Q : B -> Prop) :
  safe n0 m P -> (forall a, P a -> safe n0 (f a) Q) -> safe n0 (mbind m f) Q.
Proof.
  intros Hm Hf h Hn Hc. unfold mbind.
  destruct (Hm h Hn Hc) as [H1 [H2 [H3 H4]]].
  destruct (m h) as [[a|] h1]; simpl in *.
  - destruct (Hf a (H4 a eq_refl) h1 ltac:(lia) H3) as [G1 [G2 [G3 G4]]].
    repeat split; auto; [lia|]. intros l Hl. rewrite G2 by assumption. auto.
  - repeat split; auto. discriminate.
Qed.

Lemma safe_for_each {A} n0 (body : A -> M unit) xs :
  (forall x, In x xs -> safe n0 (body x) any) ->
  safe n0 (for_eachM body xs) any.
Proof.
  induction xs as [|x xs IH]; intros Hbody; simpl.
  - now apply safe_ret.
  - apply safe_bind with (P := any); [apply Hbody; now left|].
    intros _ _. apply IH. intros y Hy. apply Hbody. now right.
Qed.

Lemma safe_alloc n0 o : closed_obj n0 o -> safe n0 (alloc o) (fun l => n0 <= l).
Proof.
  intros Ho h Hn Hc. unfold alloc. simpl. rewrite length_app. simpl.
  repeat split.
  - lia.
  - intros l Hl. apply nth_error_app1. lia.
  - intros l o' Hl Hget.
    destruct (Nat.lt_ge_cases l (length h)) as [Hlt|Hge].
    + rewrite nth_error_app1 in Hget by assumption. eauto.
    + rewrite nth_error_app2 in Hget by assumption.
      destruct (l - length h) as [|[|k]]; simpl in Hget; try discriminate.
      now injection Hget as <-.
  - intros a [= <-]. assumption.
Qed.

Lemma safe_load n0 l :
  safe n0 (load l) (fun o => n0 <= l -> closed_obj n0 o).
Proof.
  intros h Hn Hc. unfold load. simpl. repeat split; auto.
  intros o Ho Hl. eauto.
Qed.

Lemma replace_length l o h : length (replace l o h) = length h.
Proof.
  revert l. induction h as [|x h IH]; intros [|l]; simpl; auto.
Qed.

Lemma replace_nth l o h l' :
  nth_error (replace l o h) l'
  = if Nat.eqb l' l then (if l <? length h then Some o else None)%nat
    else nth_error h l'.
Proof.
  revert l l'. induction h as [|x h IH]; intros [|l] [|l']; simpl; auto.
  now destruct (Nat.eqb l' l).
Qed.

Lemma safe_store n0 l o :
  n0 <= l -> closed_obj n0 o -> safe n0 (store l o) any.
Proof.
  intros Hl Ho h Hn Hc. unfold store.
  destruct (Nat.ltb_spec l (length h)) as [Hlt|Hge]; simpl.
  - rewrite replace_length. repeat split; auto.
    + intros l' Hl'. rewrite replace_nth.
      destruct (Nat.eqb_spec l' l); [lia | reflexivity].
    + intros l' o' Hl' Hget. rewrite replace_nth in Hget.
      destruct (Nat.eqb_spec l' l) as [->|Hne].
      * destruct (l <? length h)%nat; [|discriminate]. now injection Hget as <-.
      * eauto.
  - repeat split; auto.
Qed.

Lemma safe_any {A} n0 (m : M A) (Q : A -> Prop) : safe n0 m Q -> safe n0 m any.
Proof. intros H. apply (safe_weaken _ _ _ _ H). intros a _. exact I. Qed.

Lemma safe_new_list n0 xs : safe n0 (new_list xs) (fresh_val n0).
Proof.
  unfold new_list. apply safe_bind with (P := fun l => n0 <= l).
  - apply safe_alloc. exact I.
  - intros l Hl. now apply safe_ret.
Qed.

Lemma safe_new_dict n0 d :
  closed_obj n0 (ODict d) -> safe n0 (new_dict d) (fresh_val n0).
Proof.
  intros Hd. unfold new_dict. apply safe_bind with (P := fun l => n0 <= l).
  - now apply safe_alloc.
  - intros l Hl. now apply safe_ret.
Qed.

Lemma safe_load_list n0 v : safe n0 (load_list v) any.
Proof.
  destruct v; simpl; try apply safe_raise.
  eapply safe_bind; [apply safe_load|].
  intros [xs|d] _; [now apply safe_ret | apply safe_raise].
Qed.

Lemma safe_load_dict n0 v :
  safe n0 (load_dict v) (fun d => fresh_val n0 v -> closed_obj n0 (ODict d)).
Proof.
  destruct v; simpl; try apply safe_raise.
  eapply safe_bind; [apply safe_load|].
  intros [xs|d] Ho; [apply safe_raise | now apply safe_ret].
Qed.

Lemma safe_as_str n0 v : safe n0 (as_str v) any.
Proof. destruct v; simpl; (apply safe_raise || now apply safe_ret). Qed.

Lemma safe_as_int n0 v : safe n0 (as_int v) any.
Proof. destruct v; simpl; (apply safe_raise || now apply safe_ret). Qed.

Lemma safe_dict_getitem n0 d k :
  safe n0 (dict_getitem d k) (fun v => fresh_val n0 d -> fresh_val n0 v).
Proof.
  unfold dict_getitem.
  eapply safe_bind; [apply safe_load_dict|].
  intros items Hitems. destruct (Dict.get k items) as [v|] eqn:E; [|apply safe_raise].
  apply safe_ret. intros Hd. apply (Hitems Hd k v). now apply DictFacts.get_Some_In.
Qed.

Lemma safe_dict_contains n0 d k : safe n0 (dict_contains d k) any.
Proof.
  unfold dict_contains. eapply safe_bind; [apply safe_load_dict|].
  intros items _. now apply safe_ret.
Qed.

Lemma safe_dict_keys n0 d : safe n0 (dict_keys d) any.
Proof.
  unfold dict_keys. eapply safe_bind; [apply safe_load_dict|].
  intros items _. now apply safe_ret.
Qed.

Lemma in_set_inv {V} k (v : V) d k' v' :
  In (k', v') (Dict.set k v d) -> v' = v \/ In (k', v') d.
Proof.
  induction d as [|[k0 v0] d IH]; simpl.
  - intros [[= _ <-]|[]]. now left.
  - destruct (String.eqb k0 k); simpl.
    + intros [[= _ <-]|H]; auto.
    + intros [H|H]; auto. destruct (IH H); auto.
Qed.

Lemma safe_dict_setitem n0 d k v :
  fresh_val n0 d -> fresh_val n0 v -> safe n0 (dict_setitem d k v) any.
Proof.
  intros Hd Hv. unfold dict_setitem.
  eapply safe_bind; [apply safe_load_dict|].
  intros items Hitems. destruct d as [| | |l]; try apply safe_raise.
  apply safe_store; [exact Hd|].
  intros k' v' Hin. apply in_set_inv in Hin. destruct Hin as [->|Hin]; [assumption|].
  exact (Hitems Hd k' v' Hin).
Qed.

Lemma safe_list_append n0 xs x :
  fresh_val n0 xs -> safe n0 (list_append xs x) any.
Proof.
  intros Hxs. unfold list_append.
  eapply safe_bind; [apply safe_load_list|].
  intros items _. destruct xs as [| | |l]; try apply safe_raise.
  apply safe_store; [exact Hxs | exact I].
Qed.

Lemma safe_get_or_empty n0 d k : safe n0 (get_or_empty d k) any.
Proof.
  unfold get_or_empty. eapply safe_bind; [apply safe_load_dict|].
  intros items _. destruct (Dict.get k items); [now apply safe_ret|].
  eapply safe_any. apply safe_new_list.
Qed.

Lemma safe_truthy n0 v : safe n0 (truthy v) any.
Proof.
  destruct v; simpl; try now apply safe_ret.
  eapply safe_bind; [apply safe_load|].
  intros [xs|d] _; now apply safe_ret.
Qed.

Create HintDb safe.

#[local] Hint Resolve safe_new_list safe_new_dict : safe.
#[local] Hint Resolve safe_load_list safe_load_dict safe_as_str safe_as_int
  safe_dict_getitem safe_dict_contains safe_dict_keys safe_dict_setitem
  safe_list_append safe_get_or_empty safe_truthy : safe.
#[local] Hint Extern 1 (fresh_val _ _) => exact I : safe.
#[local] Hint Extern 1 (any _) => exact I : safe.
#[local] Hint Extern 1 (closed_obj _ (ODict [])) => (intros ? ? []) : safe.

Ltac safe_leaf :=
  first [ solve [eauto 8 with safe]
        | solve [eapply safe_any; eauto 8 with safe] ].

Ltac safe_go :=
  lazymatch goal with
  | |- safe _ (mbind _ _) _ =>
      eapply safe_bind;
      [ safe_go | let a := fresh "a" in let Ha := fresh "Ha" in intros a Ha; safe_go ]
  | |- safe _ (ret _) ?Q =>
      tryif is_evar Q then apply safe_ret with (Q := any); exact I
      else (apply safe_ret; simpl; auto with safe)
  | |- safe _ raise _ => apply safe_raise
  | |- safe _ (if ?b then _ else _) ?Q =>
      try (is_evar Q; unify Q (@any unit));
      destruct b; safe_go
  | |- safe _ (match ?x with _ => _ end) ?Q =>
      try (is_evar Q; unify Q (@any unit));
      destruct x; safe_go
  | |- safe _ (for_eachM _ _) _ =>
      eapply safe_any; apply safe_for_each;
      let x := fresh "x" in let Hx := fresh "Hx" in intros x Hx; safe_go
  | |- _ => safe_leaf
  end.

Lemma safe_new_entry n0 level source : safe n0 (new_entry level source) (fresh_val n0).
Proof.
  unfold new_entry. eapply safe_bind; [apply safe_new_list|].
  intros children Hc. apply safe_new_dict.
  intros k v [[= _ <-]|[[= _ <-]|[[= _ <-]|[]]]]; simpl; auto.
Qed.

#[local] Hint Resolve safe_new_entry : safe.

Lemma safe_def_contains n0 vd view name : safe n0 (def_contains vd view name) any.
Proof. unfold def_contains. safe_go. Qed.

#[local] Hint Resolve safe_def_contains : safe.

Lemma safe_place n0 cc table indirect parent level :
  fresh_val n0 cc -> safe n0 (place cc table indirect parent level) any.
Proof. intros Hcc. unfold place. safe_go. Qed.

#[local] Hint Resolve safe_place : safe.

Lemma safe_place_on_direct n0 cc vd table indirect direct :
  fresh_val n0 cc -> safe n0 (place_on_direct cc vd table indirect direct) any.
Proof. intros Hcc. unfold place_on_direct. safe_go. Qed.

Lemma safe_place_on_level2 n0 cc vd table indirect level2_agg :
  fresh_val n0 cc -> safe n0 (place_on_level2 cc vd table indirect level2_agg) any.
Proof. intros Hcc. unfold place_on_level2. safe_go. Qed.

#[local] Hint Resolve safe_place_on_direct safe_place_on_level2 : safe.

Lemma safe_process_table n0 cc vd item :
  fresh_val n0 cc -> safe n0 (process_table cc vd item) any.
Proof.
  intros Hcc. destruct item as [table aggregates]. unfold process_table.
  safe_go.
Qed.

Lemma safe_reconcile_pair n0 cc table view view_def other_view :
  fresh_val n0 cc -> safe n0 (reconcile_pair cc table view view_def other_view) any.
Proof. intros Hcc. unfold reconcile_pair. safe_go. Qed.

#[local] Hint Resolve safe_process_table safe_reconcile_pair : safe.

Lemma safe_reconcile n0 cc vd :
  fresh_val n0 cc -> safe n0 (reconcile cc vd) any.
Proof. intros Hcc. unfold reconcile. safe_go. Qed.

Lemma safe_try_neighbors n0 rec path nodes :
  (forall node, safe n0 (rec node) (fresh_val n0)) ->
  safe n0 (try_neighbors rec path nodes) (fresh_val n0).
Proof.
  intros Hrec. induction nodes as [|node rest IH]; simpl.
  - now apply safe_ret.
  - eapply safe_bind; [apply safe_load_list|]. intros p _.
    destruct (negb (PyStr.mem node p)); [|exact IH].
    eapply safe_bind; [apply Hrec|]. intros new_path Hnew.
    eapply safe_bind; [apply safe_truthy|]. intros [|] _; [now apply safe_ret | exact IH].
Qed.

(** The path finder only allocates, and what it returns is [None] or a
    list of its own. *)
Lemma safe_find_path n0 fuel : forall graph start end_ path,
  safe n0 (find_path_in_graph fuel graph start end_ path) (fresh_val n0).
Proof.
  induction fuel as [|fuel IH]; intros graph start end_ path; simpl.
  - apply safe_raise.
  - eapply safe_bind with (P := any).
    { destruct path; try now apply safe_ret.
      eapply safe_any. apply safe_new_list. }
    intros path0 _.
    eapply safe_bind; [apply safe_load_list|]. intros p _.
    eapply safe_bind; [apply safe_new_list|]. intros path1 Hpath1.
    destruct (String.eqb start end_); [now apply safe_ret|].
    eapply safe_bind; [apply safe_dict_contains|]. intros present _.
    destruct (negb present); [now apply safe_ret|].
    eapply safe_bind; [apply safe_get_or_empty|]. intros neighbors _.
    eapply safe_bind; [apply safe_load_list|]. intros nodes _.
    apply safe_try_neighbors. intros node. apply IH.
Qed.

#[local] Hint Resolve safe_reconcile safe_find_path : safe.

Lemma safe_graph_fix_view n0 fuel cc graph table view_name :
  fresh_val n0 cc -> safe n0 (graph_fix_view fuel cc graph table view_name) any.
Proof. intros Hcc. unfold graph_fix_view. safe_go. Qed.

#[local] Hint Resolve safe_graph_fix_view : safe.

Lemma safe_graph_correct n0 fuel cc graph :
  fresh_val n0 cc -> safe n0 (graph_correct fuel cc graph) any.
Proof. intros Hcc. unfold graph_correct. safe_go. Qed.

#[local] Hint Resolve safe_graph_correct : safe.

(** The resolver writes to objects of its own only, and returns one. *)
Lemma safe_build_aggregate_chains n0 fuel agg_chain vd graph :
  safe n0 (build_aggregate_chains fuel agg_chain vd graph) (fresh_val n0).
Proof.
  unfold build_aggregate_chains.
  eapply safe_bind; [apply safe_new_dict; intros k v []|].
  intros cc Hcc.
  eapply safe_bind; [apply safe_load_dict|]. intros items _.
  eapply safe_bind with (P := any);
    [apply safe_for_each; intros item _; now apply safe_process_table|].
  intros _ _.
  eapply safe_bind; [now apply safe_reconcile|]. intros _ _.
  eapply safe_bind; [apply safe_truthy|]. intros t _.
  eapply safe_bind with (P := any).
  { destruct t; [now apply safe_graph_correct | now apply safe_ret]. }
  intros _ _. now apply safe_ret.
Qed.

(** A call on any heap leaves every object of that heap as it was. *)
Lemma safe_frame {A} (m : M A) (Q : A -> Prop) (h : heap) :
  safe (length h) m Q ->
  forall l, l < length h -> nth_error (snd (m h)) l = nth_error h l.
Proof.
  intros Hm. apply Hm; [lia|].
  intros l o Hl Hget. apply nth_error_None in Hl. congruence.
Qed.

(** C10. Neither function changes an argument: after a call of
    [build_aggregate_chains] or of [find_path_in_graph] on any heap, with
    any values as arguments, every object that existed before the call
    (so every object an argument refers to) is what it was; all writes go
    to objects that the call created.  This holds however the call ends. *)
Theorem resolver_preserves_arguments
    (h : heap) (fuel : nat)
    (agg_chain view_definitions dependency_graph path : value)
    (start end_ : string) (l : nat) :
  l < length h ->
  nth_error
    (snd (build_aggregate_chains fuel agg_chain view_definitions dependency_graph h)) l
  = nth_error h l
  /\ nth_error (snd (find_path_in_graph fuel dependency_graph start end_ path h)) l
     = nth_error h l.
Proof.
  intros Hl. split.
  - now apply (safe_frame _ _ _ (safe_build_aggregate_chains (length h) fuel _ _ _)).
  - now apply (safe_frame _ _ _ (safe_find_path (length h) fuel _ _ _ _)).
Qed.

Lemma resolver_preserves_arguments_witness :
  nth_error
    (snd (build_aggregate_chains 5 (VRef 3) (VRef 4) (VRef 8) three_level_heap)) 3
  = nth_error three_level_heap 3
  /\ nth_error
       (snd (find_path_in_graph 5 (VRef 8) "raw" "agg_1day" (VRef 5) three_level_heap)) 3
     = nth_error three_level_heap 3.
Proof.
  apply (resolver_preserves_arguments three_level_heap 5 (VRef 3) (VRef 4) (VRef 8)
           (VRef 5) "raw" "agg_1day" 3).
  simpl. lia.
Defined.

End StoreFacts.

(** On the three-level scenario the call on the object store returns a new
    dict, and reading it back gives the chains of the resolver above. *)
Lemma store_agrees_on_three_levels :
  let run :=
    Store.build_aggregate_chains 5 (Store.VRef 3) (Store.VRef 4) (Store.VRef 8)
      Store.three_level_heap in
  exists v,
    fst run = Some v
    /\ Store.fresh_val (length Store.three_level_heap) v
    /\ Store.read_chains (snd run) v
       = build_aggregate_chains
           [("raw", [("direct", ["agg_1min"]); ("indirect", ["agg_1hour"; "agg_1day"])])]
           Scenario.three_level_defs
           (Some [("raw", ["agg_1min"]); ("agg_1min", ["agg_1hour"]);
                  ("agg_1hour", ["agg_1day"])])
    /\ Store.read_list (snd (Store.find_path_in_graph 5 (Store.VRef 8)
                               "raw" "agg_1day" Store.VNone (snd run)))
         (fst (Store.find_path_in_graph 5 (Store.VRef 8)
                 "raw" "agg_1day" Store.VNone (snd run)))
       = find_path_in_graph
           [("raw", ["agg_1min"]); ("agg_1min", ["agg_1hour"]);
            ("agg_1hour", ["agg_1day"])] "raw" "agg_1day" None.
Proof.
  exists (Store.VRef 9). repeat split; vm_compute; reflexivity.
Qed.

(** * Further properties *)

(** ** The path finder: what a returned path is, and when one is returned *)

Lemma neighbors_are_edges graph start node :
  In node (Dict.get_default start [] graph) -> edge_in graph start node.
Proof.
  unfold Dict.get_default, edge_in. unfold DependencyGraph, Dict.t in *.
  destruct (Dict.get start graph) as [ns|]; [eauto | intros []].
Qed.

Lemma try_neighbors_found rec path nodes p :
  try_neighbors rec path nodes = Some (Some p) ->
  exists node, In node nodes /\ PyStr.mem node path = false
               /\ rec node = Some (Some p).
Proof.
  induction nodes as [|node rest IH]; simpl; [discriminate|].
  destruct (PyStr.mem node path) eqn:Hm; simpl.
  - intros H. destruct (IH H) as [n [Hn H']]. eauto.
  - destruct (rec node) as [r|] eqn:E; [|discriminate].
    destruct (truthy_path r) eqn:T.
    + intros [= ->]. eauto.
    + intros H. destruct (IH H) as [n [Hn H']]. eauto.
Qed.

Lemma last_nonempty_default {A} (x : A) l d d' : last (x :: l) d = last (x :: l) d'.
Proof.
  revert x. induction l as [|y l IH]; intros x; [reflexivity|].
  change (last (y :: l) d = last (y :: l) d'). apply IH.
Qed.

Lemma find_path_fuel_sound graph fuel : forall start end_ path p,
  find_path_fuel fuel graph start end_ path = Some (Some p) ->
  exists q,
    p = (path_so_far path ++ [start]) ++ q
    /\ walk graph (start :: q)
    /\ last (start :: q) start = end_
    /\ NoDup q
    /\ (forall x, In x q -> ~ In x (path_so_far path ++ [start])).
Proof.
  induction fuel as [|fuel IH]; intros start end_ path p; [discriminate|].
  simpl. fold (path_so_far path).
  destruct (String.eqb_spec start end_) as [->|Hne].
  - intros [= <-]. exists []. rewrite app_nil_r.
    repeat split; auto. constructor.
  - destruct (Dict.mem start graph); simpl; [|discriminate].
    intros H. apply try_neighbors_found in H.
    destruct H as [node [Hin [Hm Hrec]]].
    apply IH in Hrec. cbn [path_so_far] in Hrec.
    destruct Hrec as [q [-> [Hw [Hl [Hnd Hav]]]]].
    exists (node :: q). rewrite <- app_assoc.
    apply PyStrFacts.mem_false in Hm.
    split; [reflexivity|]. split; [|split; [|split]].
    + split; [now apply neighbors_are_edges | exact Hw].
    + rewrite <- Hl. change (last (start :: node :: q) start) with (last (node :: q) start).
      apply last_nonempty_default.
    + constructor; [|assumption]. intros Hq. apply (Hav node Hq).
      apply in_or_app. right. now left.
    + intros x [<-|Hx]; [assumption|].
      intros Hx'. apply (Hav x Hx). apply in_or_app. now left.
Qed.

(** What a returned path is, for the lemmas below. *)
Lemma find_path_is_simple_walk graph start end_ p :
  find_path_in_graph graph start end_ None = Some p ->
  hd_error p = Some start
  /\ last p start = end_
  /\ walk graph p
  /\ NoDup p.
Proof.
  intros H. pose proof (find_path_in_graph_fuel graph start end_ None) as F.
  rewrite H in F. apply find_path_fuel_sound in F. cbn [path_so_far app] in F.
  destruct F as [q [-> [Hw [Hl [Hnd Hav]]]]].
  split; [reflexivity|]. split; [exact Hl|]. split; [exact Hw|].
  constructor; [|assumption]. intros Hq. apply (Hav start Hq). now left.
Qed.

(** X1. A path that the path finder returns is a path of the graph: it
    starts at [start], ends at [end], every node has an edge to the next
    one, and no node occurs twice. *)
Theorem find_path_sound graph start end_ p :
  find_path_in_graph graph start end_ None = Some p ->
  hd_error p = Some start
  /\ last p start = end_
  /\ walk graph p
  /\ NoDup p.
Proof. apply find_path_is_simple_walk. Qed.

Lemma try_neighbors_finds rec path nodes good r :
  (forall node, In node nodes -> PyStr.mem node path = false ->
                exists r, rec node = Some r) ->
  In good nodes -> PyStr.mem good path = false ->
  rec good = Some r -> truthy_path r = true ->
  exists r', try_neighbors rec path nodes = Some r' /\ truthy_path r' = true.
Proof.
  intros Hall Hin Hm Hrec Ht.
  induction nodes as [|node rest IH]; [destruct Hin|]. simpl.
  assert (IH' : In good rest ->
                exists r', try_neighbors rec path rest = Some r' /\ truthy_path r' = true).
  { intros Hg. apply IH; [|assumption]. intros n Hn. apply Hall. now right. }
  destruct (PyStr.mem node path) eqn:Hmn; simpl.
  - destruct Hin as [->|Hin]; [congruence | auto].
  - destruct (Hall node (or_introl eq_refl) Hmn) as [rn Hrn]. rewrite Hrn.
    destruct (truthy_path rn) eqn:Htn; [eauto|].
    destruct Hin as [->|Hin]; [congruence | auto].
Qed.

Lemma find_path_fuel_complete graph fuel : forall start end_ path q,
  length (unvisited graph (path_so_far path ++ [start])) < fuel ->
  walk graph (start :: q) ->
  last (start :: q) start = end_ ->
  NoDup (start :: q) ->
  (forall x, In x (start :: q) -> ~ In x (path_so_far path)) ->
  exists r, find_path_fuel fuel graph start end_ path = Some r
            /\ truthy_path r = true.
Proof.
  induction fuel as [|fuel IH]; intros start end_ path q Hfuel Hw Hl Hnd Hav; [lia|].
  simpl. fold (path_so_far path).
  destruct (String.eqb_spec start end_) as [->|Hne].
  - eexists. split; [reflexivity|]. now destruct (path_so_far path).
  - destruct q as [|n q]; [simpl in Hl; congruence|].
    destruct Hw as [[ns [Hget Hn]] Hw].
    unfold Dict.mem, Dict.get_default. unfold DependencyGraph, Dict.t in *.
    rewrite Hget. simpl.
    apply NoDup_cons_iff in Hnd. destruct Hnd as [Hs Hnd'].
    assert (Hm : PyStr.mem n (path_so_far path ++ [start]) = false).
    { apply PyStrFacts.mem_false. intros Hx. apply in_app_or in Hx.
      destruct Hx as [Hx|[->|[]]].
      - apply (Hav n); [right; now left | assumption].
      - apply Hs. now left. }
    assert (Hns : forall node, In node ns -> In node (graph_targets graph)).
    { intros node Hnode. apply (neighbors_are_targets graph start).
      unfold Dict.get_default. unfold DependencyGraph, Dict.t in *. now rewrite Hget. }
    assert (Hless : forall node, In node ns ->
               PyStr.mem node (path_so_far path ++ [start]) = false ->
               length (unvisited graph ((path_so_far path ++ [start]) ++ [node])) < fuel).
    { intros node Hnode Hmn.
      pose proof (unvisited_shrinks graph _ node (Hns _ Hnode) Hmn). lia. }
    destruct (IH n end_ (Some (path_so_far path ++ [start])) q) as [r [Hr Ht]].
    + apply Hless; assumption.
    + exact Hw.
    + rewrite <- Hl. change (last (start :: n :: q) start) with (last (n :: q) start).
      apply last_nonempty_default.
    + exact Hnd'.
    + intros x Hx Hx'. cbn [path_so_far] in Hx'. apply in_app_or in Hx'.
      destruct Hx' as [Hx'|[->|[]]].
      * apply (Hav x); [now right | assumption].
      * contradiction.
    + apply (try_neighbors_finds _ _ ns n r); auto.
      intros node Hnode Hmn. apply find_path_fuel_enough. now apply Hless.
Qed.

Lemma walk_tail graph x l : walk graph (x :: l) -> walk graph l.
Proof. destruct l as [|y l]; [intros _; exact I | intros [_ H]; exact H]. Qed.

Lemma walk_suffix graph l1 l2 : walk graph (l1 ++ l2) -> walk graph l2.
Proof.
  induction l1 as [|x l1 IH]; [auto|]. intros H. apply IH.
  now apply walk_tail in H.
Qed.

Lemma last_suffix {A} (l1 : list A) x l2 d d' :
  last (l1 ++ x :: l2) d = last (x :: l2) d'.
Proof.
  induction l1 as [|y l1 IH]; [apply last_nonempty_default|].
  rewrite <- IH. simpl app.
  destruct (l1 ++ x :: l2) eqn:E; [now destruct l1 | reflexivity].
Qed.

Lemma simple_walk_of_reachable graph start end_ :
  reachable graph start end_ ->
  exists q, walk graph (start :: q)
            /\ last (start :: q) start = end_
            /\ NoDup (start :: q).
Proof.
  induction 1 as [s|s n e Hedge Hreach IH].
  - exists []. repeat split. constructor; [intros [] | constructor].
  - destruct IH as [q [Hw [Hl Hnd]]].
    destruct (in_dec String.string_dec s (n :: q)) as [Hin|Hnot].
    + apply in_split in Hin. destruct Hin as [l1 [l2 E]].
      exists l2. rewrite E in *. split; [|split].
      * now apply walk_suffix in Hw.
      * rewrite <- Hl. symmetry. apply last_suffix.
      * now apply NoDup_app_remove_l in Hnd.
    + exists (n :: q). split; [|split].
      * split; assumption.
      * rewrite <- Hl. change (last (s :: n :: q) s) with (last (n :: q) s).
        apply last_nonempty_default.
      * now constructor.
Qed.

Lemma reachable_of_walk graph : forall q start,
  walk graph (start :: q) -> reachable graph start (last (start :: q) start).
Proof.
  induction q as [|n q IH]; intros start Hw.
  - constructor.
  - destruct Hw as [He Hw]. apply Relation_Operators.rt1n_trans with (y := n); [assumption|].
    change (last (start :: n :: q) start) with (last (n :: q) start).
    rewrite (last_nonempty_default n q start n). now apply IH.
Qed.

(** The search succeeds exactly on the reachable nodes. *)
Lemma find_path_iff_reachable graph start end_ :
  (exists p, find_path_in_graph graph start end_ None = Some p)
  <-> reachable graph start end_.
Proof.
  split.
  - intros [p Hp]. apply find_path_is_simple_walk in Hp.
    destruct Hp as [Hhd [Hl [Hw _]]].
    destruct p as [|x q]; [discriminate|]. injection Hhd as ->.
    rewrite <- Hl. now apply reachable_of_walk.
  - intros Hr. apply simple_walk_of_reachable in Hr.
    destruct Hr as [q [Hw [Hl Hnd]]].
    destruct (find_path_fuel_complete graph (S (length (graph_targets graph)))
                start end_ None q) as [r [Hr Ht]]; auto.
    + pose proof (unvisited_le graph (path_so_far None ++ [start])). lia.
    + rewrite find_path_in_graph_fuel in Hr. injection Hr as <-.
      destruct (find_path_in_graph graph start end_ None) as [p|]; [eauto | discriminate].
Qed.

(** X2. The path finder finds a path exactly when the end node can be
    reached from the start node along edges of the graph: the search with
    the current path as visited set misses no reachable node. *)
Theorem find_path_complete graph start end_ :
  (exists p, find_path_in_graph graph start end_ None = Some p)
  <-> reachable graph start end_.
Proof. apply find_path_iff_reachable. Qed.

(** ** The resolved chains: levels, links, tables and direct aggregates *)

Lemma for_each_preserves {S A} (P : S -> Prop) (body : S -> A -> option S) xs :
  (forall s x s1, In x xs -> P s -> body s x = Some s1 -> P s1) ->
  forall s s', P s -> for_each body xs s = Some s' -> P s'.
Proof.
  induction xs as [|x xs IH]; intros Hbody s s' Hs Hrun; simpl in Hrun.
  - now injection Hrun as <-.
  - destruct (body s x) as [s1|] eqn:E; [|discriminate]. simpl in Hrun.
    apply (IH (fun s x s1 Hx => Hbody s x s1 (or_intror Hx)) s1 s'); [|assumption].
    apply (Hbody s x s1); auto. now left.
Qed.

Lemma all_values_set {V} (P : V -> Prop) k v (d : list (string * V)) :
  all_values P d -> P v -> all_values P (Dict.set k v d).
Proof.
  intros Hd Hv k' v'. rewrite DictFacts.get_set.
  destruct (String.eqb k k'); [now intros [= <-] | apply Hd].
Qed.

Lemma all_values_nil {V} (P : V -> Prop) : all_values P (@nil (string * V)).
Proof. intros k v. discriminate. Qed.

(** *** Levels are positive *)

Lemma place_on_direct_levels vd indirect chain direct :
  all_values level_pos chain ->
  all_values level_pos (place_on_direct vd indirect chain direct).
Proof.
  intros H. unfold place_on_direct.
  destruct (def_contains vd indirect direct); [|assumption].
  destruct (Dict.get direct chain) as [e|] eqn:E; [|assumption].
  apply all_values_set; [apply all_values_set; [assumption|] | unfold level_pos; simpl; lia].
  exact (H _ _ E).
Qed.

Lemma place_on_level2_levels vd indirect chain level2_agg :
  all_values level_pos chain ->
  all_values level_pos (place_on_level2 vd indirect chain level2_agg).
Proof.
  intros H. unfold place_on_level2.
  destruct (negb (String.eqb indirect level2_agg) && def_contains vd indirect level2_agg);
    [|assumption].
  destruct (Dict.get level2_agg chain) as [e|] eqn:E; [|assumption].
  apply all_values_set; [apply all_values_set; [assumption|] | unfold level_pos; simpl; lia].
  exact (H _ _ E).
Qed.

Lemma process_table_levels vd cc item :
  all_values (all_values level_pos) cc ->
  all_values (all_values level_pos) (process_table vd cc item).
Proof.
  intros H. destruct item as [t aggs]. rewrite process_table_unfold.
  destruct (directs_of aggs) as [|d ds] eqn:D; [assumption|]. rewrite <- D.
  apply all_values_set; [assumption|].
  apply fold_left_preserves.
  { intros c i Hc. unfold place_indirect, step3_loop, step2_loop.
    apply fold_left_preserves; [intros; now apply place_on_level2_levels|].
    apply fold_left_preserves; [intros; now apply place_on_direct_levels|].
    assumption. }
  apply fold_left_preserves.
  { intros c a Hc. unfold seed_direct. apply all_values_set; [assumption|].
    unfold level_pos. simpl. lia. }
  unfold Dict.get_default. unfold CompleteChains, Chain, Dict.t in *.
  destruct (Dict.get t cc) as [c|] eqn:E; [exact (H _ _ E) | apply all_values_nil].
Qed.

Lemma reconcile_pair_levels view_def view chain other_view chain' :
  all_values level_pos chain ->
  reconcile_pair view_def view chain other_view = Some chain' ->
  all_values level_pos chain'.
Proof.
  intros H. unfold reconcile_pair.
  destruct (negb (String.eqb view other_view) && PyStr.contains other_view view_def);
    [|now intros [= <-]].
  destruct (Dict.get other_view chain) as [o|] eqn:Eo; [|discriminate]. cbn [bind].
  destruct (Dict.get view chain) as [v|] eqn:Ev; [|discriminate]. cbn [bind].
  destruct (level v <? level o + 1)%Z; [|now intros [= <-]].
  pose proof (H _ _ Eo) as Ho. unfold level_pos in Ho.
  assert (H1 : all_values level_pos
                 (Dict.set view (mkEntry (level o + 1) other_view (children v)) chain)).
  { apply all_values_set; [assumption|]. unfold level_pos. simpl. lia. }
  destruct (Dict.get other_view (Dict.set view _ chain)) as [o1|] eqn:Eo1; [|discriminate].
  cbn [bind].
  destruct (negb (PyStr.mem view (children o1))); intros [= <-]; [|assumption].
  apply all_values_set; [assumption|]. exact (H1 _ _ Eo1).
Qed.

Lemma per_table_preserves (P : Chain -> Prop) (f : string -> Chain -> option Chain)
    tables cc cc' :
  (forall table chain chain', P chain -> f table chain = Some chain' -> P chain') ->
  all_values P cc ->
  for_each (fun cc table =>
              chain <- Dict.get table cc ;;
              chain <- f table chain ;;
              Some (Dict.set table chain cc)) tables cc = Some cc' ->
  all_values P cc'.
Proof.
  intros Hf. apply for_each_preserves.
  intros s table s1 _ Hs Hbody.
  destruct (Dict.get table s) as [c|] eqn:E; [|discriminate]. cbn [bind] in Hbody.
  destruct (f table c) as [c1|] eqn:E1; [|discriminate]. cbn [bind] in Hbody.
  injection Hbody as <-. apply all_values_set; [assumption|].
  exact (Hf _ _ _ (Hs _ _ E) E1).
Qed.

Lemma reconcile_levels vd cc cc' :
  all_values (all_values level_pos) cc ->
  reconcile vd cc = Some cc' ->
  all_values (all_values level_pos) cc'.
Proof.
  unfold reconcile.
  apply (per_table_preserves (all_values level_pos)
           (fun _ => reconcile_chain vd)).
  intros _ chain chain' Hc. unfold reconcile_chain.
  apply for_each_preserves; [|assumption].
  intros s view s1 _ Hs. apply for_each_preserves; [|assumption].
  intros s2 other s3 _ Hs2. now apply reconcile_pair_levels.
Qed.

Lemma path_to_other_node graph start end_ p :
  find_path_in_graph graph start end_ None = Some p ->
  start <> end_ -> 2 <= length p.
Proof.
  intros Hp Hne. apply find_path_is_simple_walk in Hp.
  destruct Hp as [Hhd [Hl _]].
  destruct p as [|x [|y q]]; simpl in *; try lia; congruence.
Qed.

Lemma graph_fix_view_levels graph table chain view_name chain' :
  all_values level_pos chain ->
  graph_fix_view graph table chain view_name = Some chain' ->
  all_values level_pos chain'.
Proof.
  intros H. unfold graph_fix_view.
  destruct (String.eqb_spec view_name table) as [->|Hne]; [now intros [= <-]|].
  destruct (find_path_in_graph graph table view_name None) as [p|] eqn:Hp;
    [|now intros [= <-]].
  assert (Hlen : 2 <= length p) by (apply (path_to_other_node _ _ _ _ Hp); congruence).
  destruct p as [|x p']; [simpl in Hlen; lia|]. remember (x :: p') as p.
  destruct (Dict.get view_name chain) as [e|]; [|discriminate]. cbn [bind].
  destruct (2 <? length p)%nat.
  - destruct (second_to_last p) as [src|]; [|discriminate]. cbn [bind].
    intros [= <-]. apply all_values_set; [assumption|]. unfold level_pos. simpl. lia.
  - intros [= <-]. apply all_values_set; [assumption|]. unfold level_pos. simpl. lia.
Qed.

Lemma graph_correct_levels graph cc cc' :
  all_values (all_values level_pos) cc ->
  graph_correct graph cc = Some cc' ->
  all_values (all_values level_pos) cc'.
Proof.
  unfold graph_correct.
  apply (per_table_preserves (all_values level_pos)
           (fun table chain =>
              for_each (graph_fix_view graph table) (Dict.keys chain) chain)).
  intros table chain chain' Hc.
  apply for_each_preserves; [|assumption].
  intros s view s1 _ Hs. now apply graph_fix_view_levels.
Qed.

(** X3. Every level in a resolved chain is at least 1, with or without
    a dependency graph. *)
Theorem levels_are_positive agg_chain vd graph cc table chain view e :
  build_aggregate_chains agg_chain vd graph = Some cc ->
  Dict.get table cc = Some chain ->
  Dict.get view chain = Some e ->
  (1 <= level e)%Z.
Proof.
  unfold build_aggregate_chains. intros Hrun Ht Hv.
  assert (H0 : all_values (all_values level_pos)
                 (fold_left (process_table vd) agg_chain [])).
  { apply fold_left_preserves; [intros; now apply process_table_levels|].
    apply all_values_nil. }
  destruct (reconcile vd _) as [cc1|] eqn:E1; [|discriminate]. cbn [bind] in Hrun.
  pose proof (reconcile_levels _ _ _ H0 E1) as H1.
  assert (H2 : all_values (all_values level_pos) cc).
  { destruct graph as [[|n g]|]; try (injection Hrun as <-; assumption).
    exact (graph_correct_levels _ _ _ H1 Hrun). }
  exact (H2 _ _ Ht _ _ Hv).
Qed.

(** *** Sources and children stay inside the chain when no graph is given *)

Lemma all_entries_set {V} (P : string -> V -> Prop) k v (d : list (string * V)) :
  all_entries P d -> P k v -> all_entries P (Dict.set k v d).
Proof.
  intros Hd Hv k' v'. rewrite DictFacts.get_set.
  destruct (String.eqb_spec k k') as [->|Hne]; [now intros [= <-] | apply Hd].
Qed.

Lemma entry_linked_mono table views views' e :
  incl views views' -> entry_linked table views e -> entry_linked table views' e.
Proof.
  intros Hi [Hs Hc]. split.
  - destruct Hs; auto.
  - intros c Hin. auto.
Qed.

Lemma keys_incl_set {V} k (v : V) d : incl (Dict.keys d) (Dict.keys (Dict.set k v d)).
Proof. intros x Hx. apply DictFacts.in_keys_set. now right. Qed.

Lemma well_linked_set table k v chain :
  well_linked table chain ->
  entry_linked table (Dict.keys (Dict.set k v chain)) v ->
  well_linked table (Dict.set k v chain).
Proof.
  intros Hc Hv k' v'. rewrite DictFacts.get_set.
  destruct (String.eqb k k'); [now intros [= <-]|].
  intros H. apply entry_linked_mono with (views := Dict.keys chain).
  - apply keys_incl_set.
  - exact (Hc _ _ H).
Qed.

Lemma well_linked_place table chain parent e indirect lvl :
  well_linked table chain ->
  Dict.get parent chain = Some e ->
  well_linked table
    (Dict.set indirect (mkEntry lvl parent [])
       (Dict.set parent (add_child e indirect) chain)).
Proof.
  intros Hc He.
  assert (Hp : In parent (Dict.keys chain)) by (apply DictFacts.get_Some_keys; eauto).
  set (chain1 := Dict.set parent (add_child e indirect) chain).
  set (chain2 := Dict.set indirect (mkEntry lvl parent []) chain1).
  assert (I2 : incl (Dict.keys chain) (Dict.keys chain2)).
  { intros x Hx. apply keys_incl_set, keys_incl_set, Hx. }
  assert (Hi : In indirect (Dict.keys chain2)).
  { apply DictFacts.in_keys_set. now left. }
  intros k v. unfold chain2, chain1. rewrite !DictFacts.get_set.
  destruct (String.eqb indirect k).
  - intros [= <-]. split; simpl; [right; now apply I2 | intros c []].
  - destruct (String.eqb parent k).
    + intros [= <-]. destruct (Hc _ _ He) as [Hs Hch]. split; simpl.
      * destruct Hs; [now left | right; now apply I2].
      * intros c Hin. apply in_app_or in Hin.
        destruct Hin as [Hin|[<-|[]]]; [apply I2, Hch, Hin | exact Hi].
    + intros H. apply entry_linked_mono with (views := Dict.keys chain); [exact I2|].
      exact (Hc _ _ H).
Qed.

Lemma place_on_direct_linked table vd indirect chain direct :
  well_linked table chain ->
  well_linked table (place_on_direct vd indirect chain direct).
Proof.
  intros H. unfold place_on_direct.
  destruct (def_contains vd indirect direct); [|assumption].
  destruct (Dict.get direct chain) as [e|] eqn:E; [|assumption].
  now apply well_linked_place.
Qed.

Lemma place_on_level2_linked table vd indirect chain level2_agg :
  well_linked table chain ->
  well_linked table (place_on_level2 vd indirect chain level2_agg).
Proof.
  intros H. unfold place_on_level2.
  destruct (negb (String.eqb indirect level2_agg) && def_contains vd indirect level2_agg);
    [|assumption].
  destruct (Dict.get level2_agg chain) as [e|] eqn:E; [|assumption].
  now apply well_linked_place.
Qed.

Lemma process_table_linked vd cc item :
  all_entries well_linked cc -> all_entries well_linked (process_table vd cc item).
Proof.
  intros H. destruct item as [t aggs]. rewrite process_table_unfold.
  destruct (directs_of aggs) as [|d ds] eqn:D; [assumption|]. rewrite <- D.
  apply all_entries_set; [assumption|].
  apply fold_left_preserves.
  { intros c i Hc. unfold place_indirect, step3_loop, step2_loop.
    apply fold_left_preserves; [intros; now apply place_on_level2_linked|].
    apply fold_left_preserves; [intros; now apply place_on_direct_linked|].
    assumption. }
  apply fold_left_preserves.
  { intros c a Hc. unfold seed_direct. apply well_linked_set; [assumption|].
    split; simpl; [now left | intros x []]. }
  unfold Dict.get_default. unfold CompleteChains, Chain, Dict.t in *.
  destruct (Dict.get t cc) as [c|] eqn:E; [exact (H _ _ E) | intros k v; discriminate].
Qed.

Lemma reconcile_pair_linked table view_def view chain other_view chain' :
  well_linked table chain ->
  reconcile_pair view_def view chain other_view = Some chain' ->
  well_linked table chain'.
Proof.
  intros H. unfold reconcile_pair.
  destruct (negb (String.eqb view other_view) && PyStr.contains other_view view_def);
    [|now intros [= <-]].
  destruct (Dict.get other_view chain) as [o|] eqn:Eo; [|discriminate]. cbn [bind].
  destruct (Dict.get view chain) as [v|] eqn:Ev; [|discriminate]. cbn [bind].
  destruct (level v <? level o + 1)%Z; [|now intros [= <-]].
  assert (Ho : In other_view (Dict.keys chain)) by (apply DictFacts.get_Some_keys; eauto).
  assert (Hv : In view (Dict.keys chain)) by (apply DictFacts.get_Some_keys; eauto).
  set (chain1 := Dict.set view (mkEntry (level o + 1) other_view (children v)) chain).
  assert (H1 : well_linked table chain1).
  { apply well_linked_set; [assumption|]. split; simpl.
    - right. now apply keys_incl_set.
    - intros c Hc. apply keys_incl_set. exact (proj2 (H _ _ Ev) c Hc). }
  destruct (Dict.get other_view chain1) as [o1|] eqn:Eo1; [|discriminate].
  cbn [bind].
  destruct (negb (PyStr.mem view (children o1))); intros [= <-]; [|assumption].
  apply well_linked_set; [assumption|].
  destruct (H1 _ _ Eo1) as [Hs Hc]. split; simpl.
  - destruct Hs; [now left | right; now apply keys_incl_set].
  - intros c Hin. apply keys_incl_set. apply in_app_or in Hin.
    destruct Hin as [Hin|[<-|[]]]; [now apply Hc | now apply keys_incl_set].
Qed.

Lemma per_table_preserves_keyed (P : string -> Chain -> Prop)
    (f : string -> Chain -> option Chain) tables cc cc' :
  (forall table chain chain', P table chain -> f table chain = Some chain' ->
                              P table chain') ->
  all_entries P cc ->
  for_each (fun cc table =>
              chain <- Dict.get table cc ;;
              chain <- f table chain ;;
              Some (Dict.set table chain cc)) tables cc = Some cc' ->
  all_entries P cc'.
Proof.
  intros Hf. apply for_each_preserves.
  intros s table s1 _ Hs Hbody.
  destruct (Dict.get table s) as [c|] eqn:E; [|discriminate]. cbn [bind] in Hbody.
  destruct (f table c) as [c1|] eqn:E1; [|discriminate]. cbn [bind] in Hbody.
  injection Hbody as <-. apply all_entries_set; [assumption|].
  exact (Hf _ _ _ (Hs _ _ E) E1).
Qed.

Lemma reconcile_linked vd cc cc' :
  all_entries well_linked cc ->
  reconcile vd cc = Some cc' ->
  all_entries well_linked cc'.
Proof.
  unfold reconcile.
  apply (per_table_preserves_keyed well_linked (fun _ => reconcile_chain vd)).
  intros table chain chain' Hc. unfold reconcile_chain.
  apply for_each_preserves; [|assumption].
  intros s view s1 _ Hs. apply for_each_preserves; [|assumption].
  intros s2 other s3 _ Hs2. now apply reconcile_pair_linked.
Qed.

(** X4. Without a dependency graph, the source of every entry is the
    base table or a view of the same chain, and every child of an entry is
    a view of the same chain. *)
Theorem heuristic_links_stay_in_chain agg_chain vd cc table chain view e :
  build_aggregate_chains agg_chain vd None = Some cc ->
  Dict.get table cc = Some chain ->
  Dict.get view chain = Some e ->
  (source e = table \/ In (source e) (Dict.keys chain))
  /\ (forall child, In child (children e) -> In child (Dict.keys chain)).
Proof.
  unfold build_aggregate_chains. intros Hrun Ht Hv.
  assert (H0 : all_entries well_linked (fold_left (process_table vd) agg_chain [])).
  { apply fold_left_preserves; [intros; now apply process_table_linked|].
    intros k v. discriminate. }
  destruct (reconcile vd _) as [cc1|] eqn:E1; [|discriminate]. cbn [bind] in Hrun.
  injection Hrun as <-.
  exact (reconcile_linked _ _ _ H0 E1 _ _ Ht _ _ Hv).
Qed.

(** *** Which tables and which direct aggregates the result has *)

Lemma process_table_tables vd cc t aggs table :
  In table (Dict.keys (process_table vd cc (t, aggs)))
  <-> In table (Dict.keys cc) \/ (table = t /\ directs_of aggs <> []).
Proof.
  rewrite process_table_unfold.
  destruct (directs_of aggs) as [|d ds]; [intuition congruence|].
  rewrite DictFacts.in_keys_set. intuition (auto; discriminate).
Qed.

Lemma placed_tables vd items : forall cc table,
  In table (Dict.keys (fold_left (process_table vd) items cc))
  <-> In table (Dict.keys cc)
      \/ exists aggs, In (table, aggs) items /\ directs_of aggs <> [].
Proof.
  induction items as [|[t aggs] items IH]; intros cc table; cbn [fold_left].
  - split; [auto | intros [H|[a [[] _]]]; exact H].
  - rewrite IH, process_table_tables. split.
    + intros [[H|[-> H]]|[a [Ha Hd]]]; [auto | right | right].
      * exists aggs. split; [now left | assumption].
      * exists a. split; [now right | assumption].
    + intros [H|[a [[E|Ha] Hd]]]; [auto | | eauto].
      injection E as -> ->. auto.
Qed.

(** X5. The tables of the result are exactly the tables of [agg_chain]
    that have a non-empty direct list; a table that has only indirect
    aggregates gets no chain. *)
Theorem result_tables agg_chain vd graph :
  exists cc,
    build_aggregate_chains agg_chain vd graph = Some cc
    /\ forall table,
         In table (Dict.keys cc)
         <-> exists aggs, In (table, aggs) agg_chain /\ directs_of aggs <> [].
Proof.
  destruct (build_aggregate_chains_total agg_chain vd graph) as [cc [Hrun Hshape]].
  exists cc. split; [assumption|]. intros table.
  rewrite <- shape_keys, Hshape, shape_keys. unfold placed_chains.
  rewrite placed_tables. simpl. tauto.
Qed.

Lemma process_table_seeds vd cc t aggs direct :
  In direct (directs_of aggs) ->
  exists chain, Dict.get t (process_table vd cc (t, aggs)) = Some chain
                /\ In direct (Dict.keys chain).
Proof.
  intros Hd. rewrite process_table_unfold.
  destruct (directs_of aggs) as [|d ds] eqn:D; [destruct Hd|]. rewrite <- D in *.
  rewrite DictFacts.get_set_eq. eexists. split; [reflexivity|].
  apply place_all_mono, seed_keys. now right.
Qed.

(** X6. Every direct aggregate of a table is a view of the table's
    resolved chain. *)
Theorem direct_aggregate_is_kept agg_chain vd graph table aggs direct :
  In (table, aggs) agg_chain ->
  In direct (directs_of aggs) ->
  exists cc chain e,
    build_aggregate_chains agg_chain vd graph = Some cc
    /\ Dict.get table cc = Some chain
    /\ Dict.get direct chain = Some e.
Proof.
  intros Hin Hd.
  destruct (build_aggregate_chains_total agg_chain vd graph) as [cc [Hrun Hshape]].
  assert (H0 : exists chain0,
             Dict.get table (placed_chains agg_chain vd) = Some chain0
             /\ In direct (Dict.keys chain0)).
  { unfold placed_chains. apply in_split in Hin. destruct Hin as [l1 [l2 ->]].
    rewrite fold_left_app. simpl.
    destruct (process_table_seeds vd (fold_left (process_table vd) l1 []) table aggs
                direct Hd) as [c1 [G1 K1]].
    now apply placed_mono with (chain0 := c1). }
  destruct H0 as [chain0 [G0 K0]].
  destruct (shape_get _ _ _ _ (eq_sym Hshape) G0) as [chain [G K]].
  rewrite <- K in K0. apply DictFacts.get_Some_keys in K0. destruct K0 as [e He].
  exists cc, chain, e. auto.
Qed.

(** ** The dependency graph against the relationship rows *)

Lemma add_edge_edges graph source target a b :
  edge_in (add_edge graph source target) a b
  <-> edge_in graph a b \/ (a = source /\ b = target).
Proof.
  split.
  - intros [ts [Hget Hin]]. destruct (String.eqb_spec a source) as [->|Hne].
    + rewrite add_edge_get in Hget. injection Hget as <-. cbn zeta in Hin.
      unfold Dict.get_default in Hin. unfold DependencyGraph, Dict.t in *.
      destruct (Dict.get source graph) as [old|] eqn:E.
      * destruct (PyStr.mem b old) eqn:Hb.
        -- left. exists old. split; [assumption|]. now apply PyStrFacts.mem_In.
        -- destruct (PyStr.mem target old); [left; exists old; auto|].
           apply in_app_or in Hin. destruct Hin as [Hin|[<-|[]]]; [|auto].
           left. exists old. auto.
      * simpl in Hin. destruct Hin as [<-|[]]. auto.
    + rewrite add_edge_get_other in Hget by assumption. left. exists ts. auto.
  - intros [H|[-> ->]]; [now apply add_edge_keeps | apply add_edge_records].
Qed.

Lemma add_edge_adjacency graph source target :
  all_values adjacency_ok graph ->
  all_values adjacency_ok (add_edge graph source target).
Proof.
  intros H s ts Hget. destruct (String.eqb_spec s source) as [->|Hne].
  - rewrite add_edge_get in Hget. injection Hget as <-. cbn zeta.
    unfold Dict.get_default. unfold DependencyGraph, Dict.t in *.
    destruct (Dict.get source graph) as [old|] eqn:E.
    + destruct (H _ _ E) as [Hne Hnd].
      destruct (PyStr.mem target old) eqn:Hm; [split; assumption|].
      apply PyStrFacts.mem_false in Hm. split.
      * destruct old; discriminate.
      * apply NoDup_app; [assumption | repeat constructor; intros [] |].
        intros x Hx [<-|[]]. contradiction.
    + simpl. split; [discriminate | repeat constructor; intros []].
  - rewrite add_edge_get_other in Hget by assumption. exact (H _ _ Hget).
Qed.

Lemma graph_step_edges graph row a b :
  edge_in (graph_step graph row) a b <-> edge_in graph a b \/ row_edge row a b.
Proof.
  unfold graph_step, row_edge.
  destruct (Dict.get "raw_table_name" row) as [s|];
    destruct (Dict.get "agg_view_name" row) as [t|];
    try (split; [auto | intros [H|[H1 H2]]; [assumption | discriminate]]).
  rewrite add_edge_edges. split; intros [H|[H1 H2]]; auto.
  - subst. auto.
  - injection H1 as ->. injection H2 as ->. auto.
Qed.

Lemma build_graph_from_edges rows : forall graph a b,
  edge_in (build_graph_from graph rows) a b
  <-> edge_in graph a b \/ exists row, In row rows /\ row_edge row a b.
Proof.
  unfold build_graph_from.
  induction rows as [|row rows IH]; intros graph a b; cbn [fold_left].
  - split; [auto | intros [H|[r [[] _]]]; exact H].
  - rewrite IH, graph_step_edges. split.
    + intros [[H|H]|[r [Hr He]]]; [auto | right | right].
      * exists row. split; [now left | assumption].
      * exists r. split; [now right | assumption].
    + intros [H|[r [[<-|Hr] He]]]; eauto.
Qed.

(** The edges of the graph are the edges of the rows. *)
Lemma build_graph_edges rows a b :
  edge_in (build_graph rows) a b <-> exists row, In row rows /\ row_edge row a b.
Proof.
  unfold build_graph. rewrite build_graph_from_edges.
  split; [intros [[ts [H _]]|H]; [discriminate | exact H] | auto].
Qed.

(** X7. The dependency graph has exactly the edges of the relationship
    rows that carry both names, and each of its adjacency lists is
    non-empty and free of duplicates. *)
Theorem graph_edges_are_rows (rows : list Row) :
  (forall a b,
      edge_in (build_graph rows) a b
      <-> exists row, In row rows /\ row_edge row a b)
  /\ (forall source targets,
        Dict.get source (build_graph rows) = Some targets ->
        targets <> [] /\ NoDup targets).
Proof.
  split.
  - intros a b. apply build_graph_edges.
  - unfold build_graph, build_graph_from.
    apply (fold_left_preserves (all_values adjacency_ok)).
    + intros g row Hg. unfold graph_step.
      destruct (Dict.get "raw_table_name" row), (Dict.get "agg_view_name" row); auto.
      now apply add_edge_adjacency.
    + intros k v. discriminate.
Qed.

(** ** The collector on well-formed rows *)

Lemma add_direct_row_ok result agg_chain row :
  has_both_names row ->
  all_values aggregates_ok agg_chain ->
  exists result' agg_chain',
    add_direct_row (result, agg_chain) row = Some (result', agg_chain')
    /\ all_values aggregates_ok agg_chain'.
Proof.
  intros [[s Hs] [t Ht]] Hok. unfold add_direct_row. rewrite Hs, Ht. cbn [bind].
  unfold Dict.mem. unfold AggChain, Aggregates, Dict.t in *.
  destruct (Dict.get s agg_chain) as [aggs|] eqn:E; cbn [negb].
  - rewrite E. cbn [bind].
    destruct (Hok _ _ E) as [[d [Hd Hne]] [i [Hi Hnd]]].
    rewrite Hd. cbn [bind]. eexists _, _. split; [reflexivity|].
    apply all_values_set; [assumption|]. split.
    + exists (d ++ [t]). split; [apply DictFacts.get_set_eq | now destruct d].
    + exists i. split; [|assumption].
      rewrite DictFacts.get_set_ne by discriminate. assumption.
  - rewrite DictFacts.get_set_eq. cbn [bind]. simpl.
    eexists _, _. split; [reflexivity|]. rewrite set_set.
    apply all_values_set; [assumption|]. split.
    + exists [t]. split; [reflexivity | discriminate].
    + exists []. split; [reflexivity | constructor].
Qed.

Lemma link_indirect_ok target agg_chain base_table :
  all_values aggregates_ok agg_chain ->
  In base_table (Dict.keys agg_chain) ->
  exists agg_chain' added,
    link_indirect target agg_chain base_table = Some (agg_chain', added)
    /\ all_values aggregates_ok agg_chain'
    /\ Dict.keys agg_chain' = Dict.keys agg_chain.
Proof.
  intros Hok Hkey. unfold link_indirect.
  apply DictFacts.get_Some_keys in Hkey. destruct Hkey as [aggs Hget].
  unfold AggChain, Aggregates, Dict.t in *. rewrite Hget. cbn [bind].
  destruct (Hok _ _ Hget) as [[d [Hd Hne]] [i [Hi Hnd]]].
  unfold Dict.mem. rewrite Hi. cbn [negb]. rewrite Hi. cbn [bind].
  assert (Hk : In base_table (Dict.keys agg_chain))
    by (apply DictFacts.get_Some_keys; eauto).
  destruct (PyStr.mem target i) eqn:Hm; cbn [negb].
  - eexists _, _. split; [reflexivity|]. split.
    + apply all_values_set; [assumption | exact (Hok _ _ Hget)].
    + now apply DictFacts.keys_set_present.
  - eexists _, _. split; [reflexivity|]. split.
    + apply all_values_set; [assumption|]. split.
      * exists d. split; [|assumption].
        rewrite DictFacts.get_set_ne by discriminate. assumption.
      * exists (i ++ [target]). split; [apply DictFacts.get_set_eq|].
        apply PyStrFacts.mem_false in Hm.
        apply NoDup_app; [assumption | repeat constructor; intros [] |].
        intros x Hx [<-|[]]. contradiction.
    + now apply DictFacts.keys_set_present.
Qed.

Lemma process_chained_ok result agg_chain chain :
  has_both_names chain ->
  all_values aggregates_ok agg_chain ->
  exists result' agg_chain',
    process_chained (result, agg_chain) chain = Some (result', agg_chain')
    /\ all_values aggregates_ok agg_chain'.
Proof.
  intros [[s Hs] [t Ht]] Hok. unfold process_chained. rewrite Hs, Ht. cbn [bind].
  destruct (for_each_invariant
              (fun ac => all_values aggregates_ok ac
                         /\ Dict.keys ac = Dict.keys agg_chain)
              (fun agg_chain base_table =>
                 aggs <- Dict.get base_table agg_chain ;;
                 d <- Dict.get "direct" aggs ;;
                 if PyStr.mem s d then
                   r <- link_indirect t agg_chain base_table ;; Some (fst r)
                 else Some agg_chain)
              (Dict.keys agg_chain) agg_chain) as [ac [Hrun [Hac _]]].
  - auto.
  - intros ac base_table Hin [Hac Hkeys].
    assert (Hk : In base_table (Dict.keys ac)) by now rewrite Hkeys.
    pose proof Hk as Hk'.
    apply DictFacts.get_Some_keys in Hk'. destruct Hk' as [aggs Hget].
    unfold AggChain, Aggregates, Dict.t in *. rewrite Hget. cbn [bind].
    destruct (Hac _ _ Hget) as [[d [Hd _]] _]. rewrite Hd. cbn [bind].
    destruct (PyStr.mem s d); [|eauto].
    destruct (link_indirect_ok t ac base_table Hac Hk) as [ac' [b [-> [H1 H2]]]].
    cbn [bind fst]. exists ac'. split; [reflexivity|]. split; [assumption|].
    etransitivity; eassumption.
  - unfold AggChain, Aggregates, Dict.t in *. rewrite Hrun. cbn [bind]. eauto.
Qed.

Lemma for_each_pairs_ok (body : list Row * AggChain -> Row -> option (list Row * AggChain))
    rows :
  (forall result agg_chain row,
      In row rows -> all_values aggregates_ok agg_chain ->
      exists result' agg_chain',
        body (result, agg_chain) row = Some (result', agg_chain')
        /\ all_values aggregates_ok agg_chain') ->
  forall result agg_chain,
    all_values aggregates_ok agg_chain ->
    exists result' agg_chain',
      for_each body rows (result, agg_chain) = Some (result', agg_chain')
      /\ all_values aggregates_ok agg_chain'.
Proof.
  intros Hbody result agg_chain Hok.
  destruct (for_each_invariant (fun st => all_values aggregates_ok (snd st))
              body rows (result, agg_chain)) as [[r ac] [Hrun Hac]]; eauto.
  intros [r ac] row Hin Hac.
  destruct (Hbody r ac row Hin Hac) as [r' [ac' [E H]]]. eauto.
Qed.

Lemma find_chained_rows vd row :
  In row (find_chained vd) -> has_both_names row.
Proof.
  unfold find_chained. intros H. apply in_flat_map in H.
  destruct H as [[view_name definition] [_ H]]. apply in_flat_map in H.
  destruct H as [other [_ H]].
  destruct (negb (String.eqb view_name other) && PyStr.contains other definition);
    [|destruct H].
  destruct H as [<-|[]]. split; eexists; reflexivity.
Qed.

Lemma deep_pass_ok chained_aggs agg_chain :
  (forall row, In row chained_aggs -> has_both_names row) ->
  all_values aggregates_ok agg_chain ->
  exists agg_chain' found,
    deep_pass chained_aggs agg_chain = Some (agg_chain', found)
    /\ all_values aggregates_ok agg_chain'.
Proof.
  intros Hrows Hok. unfold deep_pass.
  destruct (for_each_invariant
              (fun st : AggChain * nat => all_values aggregates_ok (fst st))
              (fun st chain =>
                 source <- Dict.get "raw_table_name" chain ;;
                 target <- Dict.get "agg_view_name" chain ;;
                 for_each
                   (fun (st : AggChain * nat) base_table =>
                      let (agg_chain, chains_found) := st in
                      aggs <- Dict.get base_table agg_chain ;;
                      if PyStr.mem source (Dict.get_default "indirect" [] aggs) then
                        r <- link_indirect target agg_chain base_table ;;
                        Some (fst r, if snd r then S chains_found else chains_found)
                      else Some st)
                   (Dict.keys (fst st)) st)
              chained_aggs (agg_chain, 0)) as [[ac n] [Hrun Hac]].
  - assumption.
  - intros [ac n] chain Hin Hac. cbn [fst] in *.
    destruct (Hrows _ Hin) as [[s Hs] [t Ht]]. rewrite Hs, Ht. cbn [bind].
    destruct (for_each_invariant
                (fun st : AggChain * nat =>
                   all_values aggregates_ok (fst st)
                   /\ Dict.keys (fst st) = Dict.keys ac)
                (fun (st : AggChain * nat) base_table =>
                   let (agg_chain, chains_found) := st in
                   aggs <- Dict.get base_table agg_chain ;;
                   if PyStr.mem s (Dict.get_default "indirect" [] aggs) then
                     r <- link_indirect t agg_chain base_table ;;
                     Some (fst r, if snd r then S chains_found else chains_found)
                   else Some st)
                (Dict.keys ac) (ac, n)) as [st' [Hrun' [Hst' _]]].
    + auto.
    + intros [ac1 n1] base_table Hb [H1 H2]. cbn [fst] in *.
      assert (Hk : In base_table (Dict.keys ac1)) by now rewrite H2.
      pose proof Hk as Hk'.
      apply DictFacts.get_Some_keys in Hk'. destruct Hk' as [aggs Hget].
      unfold AggChain, Aggregates, Dict.t in *. rewrite Hget. cbn [bind].
      destruct (PyStr.mem s (Dict.get_default "indirect" [] aggs)); [|eauto].
      destruct (link_indirect_ok t ac1 base_table H1 Hk) as [ac' [b [-> [H3 H4]]]].
      cbn [bind fst snd]. eexists. split; [reflexivity|]. cbn [fst].
      split; [assumption | etransitivity; eassumption].
    + exists st'. split; assumption.
  - exists ac, n. split; assumption.
Qed.

Lemma deep_passes_ok passes chained_aggs : forall agg_chain,
  (forall row, In row chained_aggs -> has_both_names row) ->
  all_values aggregates_ok agg_chain ->
  exists agg_chain',
    deep_passes passes chained_aggs agg_chain = Some agg_chain'
    /\ all_values aggregates_ok agg_chain'.
Proof.
  induction passes as [|passes IH]; intros agg_chain Hrows Hok; simpl; [eauto|].
  destruct (deep_pass_ok chained_aggs agg_chain Hrows Hok) as [ac [n [-> Hac]]].
  cbn [bind fst snd]. destruct (Nat.eqb n 0); [eauto | now apply IH].
Qed.

Lemma add_health_link_ok health_views agg_chain i :
  i < length health_views ->
  In "health_metrics_raw" (Dict.keys agg_chain) ->
  all_values aggregates_ok agg_chain ->
  exists agg_chain',
    add_health_link health_views agg_chain i = Some agg_chain'
    /\ all_values aggregates_ok agg_chain'
    /\ Dict.keys agg_chain' = Dict.keys agg_chain.
Proof.
  intros Hi Hkey Hok.
  destruct (nth_error health_views i) as [current|] eqn:Hn;
    [|apply nth_error_None in Hn; lia].
  pose proof Hkey as Hk.
  apply DictFacts.get_Some_keys in Hk. destruct Hk as [aggs Hget].
  rewrite (add_health_link_value _ _ _ _ _ Hn Hget).
  eexists. split; [reflexivity|]. split; [|now apply DictFacts.keys_set_present].
  apply all_values_set; [assumption|].
  destruct (Hok _ _ Hget) as [[d [Hd Hne]] [ind [Hind Hnd]]].
  unfold link_value, directs_of, indirects_of, Dict.get_default.
  unfold AggChain, Aggregates, Dict.t in *. rewrite Hd, Hind.
  destruct (PyStr.mem current d); cbn [negb andb]; [split; eauto|].
  destruct (PyStr.mem current ind) eqn:Hm; cbn [negb]; [split; eauto|].
  split.
  - exists d. split; [|assumption].
    rewrite DictFacts.get_set_ne by discriminate. assumption.
  - exists (ind ++ [current]). split; [apply DictFacts.get_set_eq|].
    apply PyStrFacts.mem_false in Hm.
    apply NoDup_app; [assumption | repeat constructor; intros [] |].
    intros x Hx [<-|[]]. contradiction.
Qed.

Lemma health_metrics_chain_ok caggs agg_chain :
  all_values aggregates_ok agg_chain ->
  exists agg_chain',
    health_metrics_chain caggs agg_chain = Some agg_chain'
    /\ all_values aggregates_ok agg_chain'.
Proof.
  intros Hok. unfold health_metrics_chain.
  destruct caggs as [|c caggs]; [eauto|]. remember (c :: caggs) as rows.
  destruct (2 <=? length (health_views_of rows))%nat; [|eauto].
  destruct (Dict.mem "health_metrics_raw" agg_chain) eqn:Hm; [|eauto].
  apply DictFacts.mem_keys in Hm.
  destruct (for_each_invariant
              (fun ac => all_values aggregates_ok ac
                         /\ Dict.keys ac = Dict.keys agg_chain)
              (add_health_link (health_views_of rows))
              (seq 1 (length (health_views_of rows) - 1)) agg_chain)
    as [ac [Hrun [Hac _]]]; eauto.
  intros ac i Hi [H1 H2]. apply in_seq in Hi.
  destruct (add_health_link_ok (health_views_of rows) ac i) as [ac' [E [H3 H4]]];
    [lia | now rewrite H2 | assumption|].
  exists ac'. split; [assumption|]. split; [assumption | etransitivity; eassumption].
Qed.

Lemma bind_some {A B} (m : option A) (f : A -> option B) a :
  m = Some a -> bind m f = f a.
Proof. now intros ->. Qed.

(** The collector on rows that have both names. *)
Lemma collector_entries_ok direct_aggs vd caggs :
  (forall row, In row direct_aggs -> has_both_names row) ->
  exists c,
    get_all_continuous_aggregates direct_aggs vd caggs = Some c
    /\ forall table aggs,
         Dict.get table (agg_chain_of c) = Some aggs ->
         (exists d, Dict.get "direct" aggs = Some d /\ d <> [])
         /\ (exists i, Dict.get "indirect" aggs = Some i /\ NoDup i).
Proof.
  intros Hrows. unfold get_all_continuous_aggregates.
  destruct (for_each_pairs_ok add_direct_row direct_aggs) with (result := @nil Row)
    (agg_chain := @nil (string * Aggregates)) as [r1 [ac1 [E1 H1]]].
  { intros r ac row Hin Hac. apply add_direct_row_ok; auto. }
  { intros k v. discriminate. }
  destruct (for_each_pairs_ok process_chained (find_chained vd)) with (result := r1)
    (agg_chain := ac1) as [r2 [ac2 [E2 H2]]].
  { intros r ac row Hin Hac. apply process_chained_ok; [|assumption].
    now apply find_chained_rows in Hin. }
  { assumption. }
  destruct (deep_passes_ok 3 (find_chained vd) ac2 (find_chained_rows vd) H2)
    as [ac3 [E3 H3]].
  destruct (health_metrics_chain_ok caggs ac3 H3) as [ac4 [E4 H4]].
  exists (mkCollected r2 ac4 vd (build_graph r2)). split; [|exact H4].
  erewrite bind_some by exact E1. cbv zeta.
  erewrite bind_some by exact E2. cbv beta iota.
  erewrite bind_some by exact E3.
  erewrite bind_some by exact E4. reflexivity.
Qed.

(** X8. When every direct-relationship row has the two name columns,
    the collector does not raise, and every entry of the [agg_chain] it
    returns has both lists, a non-empty direct list and an indirect list
    without duplicates. *)
Theorem collector_never_raises direct_aggs vd caggs :
  (forall row, In row direct_aggs -> has_both_names row) ->
  exists c,
    get_all_continuous_aggregates direct_aggs vd caggs = Some c
    /\ forall table aggs,
         Dict.get table (agg_chain_of c) = Some aggs ->
         (exists d, Dict.get "direct" aggs = Some d /\ d <> [])
         /\ (exists i, Dict.get "indirect" aggs = Some i /\ NoDup i).
Proof. apply collector_entries_ok. Qed.

(** ** The collected lists against the dependency graph *)

Lemma reach_mono (R R' : string -> string -> Prop) a b :
  (forall x y, R x y -> R' x y) ->
  clos_refl_trans_1n string R a b -> clos_refl_trans_1n string R' a b.
Proof.
  intros HR. induction 1 as [|x y z Hxy _ IH]; [constructor|].
  apply Relation_Operators.rt1n_trans with (y := y); auto.
Qed.

Lemma reach_step_r (R : string -> string -> Prop) a b c :
  clos_refl_trans_1n string R a b -> R b c -> clos_refl_trans_1n string R a c.
Proof.
  induction 1 as [|x y z Hxy _ IH]; intros Hc.
  - apply Relation_Operators.rt1n_trans with (y := c); [assumption | constructor].
  - apply Relation_Operators.rt1n_trans with (y := y); auto.
Qed.

Lemma rows_edge_incl rows rows' a b :
  incl rows rows' -> rows_edge rows a b -> rows_edge rows' a b.
Proof. intros Hi [row [Hin He]]. exists row. auto. Qed.

Lemma linked_incl rows rows' table aggs :
  incl rows rows' -> linked rows table aggs -> linked rows' table aggs.
Proof.
  intros Hi [Hd Hind]. split.
  - intros d H. apply (rows_edge_incl rows); auto.
  - intros i H. apply (reach_mono (rows_edge rows)); auto.
    intros x y. now apply rows_edge_incl.
Qed.

Lemma all_linked_incl rows rows' (agg_chain : AggChain) :
  incl rows rows' ->
  all_entries (linked rows) agg_chain -> all_entries (linked rows') agg_chain.
Proof. intros Hi H k v Hg. apply (linked_incl rows); auto. Qed.

Lemma directs_of_set_indirect v aggs :
  directs_of (Dict.set "indirect" v aggs) = directs_of aggs.
Proof. unfold directs_of, Dict.get_default. now rewrite DictFacts.get_set_ne. Qed.

Lemma indirects_of_set_indirect v aggs :
  indirects_of (Dict.set "indirect" v aggs) = v.
Proof. unfold indirects_of, Dict.get_default. now rewrite DictFacts.get_set_eq. Qed.

Lemma link_indirect_linked rows target agg_chain base_table agg_chain' added :
  link_indirect target agg_chain base_table = Some (agg_chain', added) ->
  all_entries (linked rows) agg_chain ->
  clos_refl_trans_1n string (rows_edge rows) base_table target ->
  all_entries (linked rows) agg_chain'.
Proof.
  unfold link_indirect. intros Hrun Hall Hreach.
  destruct (Dict.get base_table agg_chain) as [aggs|] eqn:Hget; [|discriminate].
  cbn [bind] in Hrun.
  destruct (Hall _ _ Hget) as [Hd Hi].
  set (aggs1 := if negb (Dict.mem "indirect" aggs)
                then Dict.set "indirect" [] aggs else aggs) in *.
  assert (H1 : linked rows base_table aggs1).
  { subst aggs1. destruct (negb (Dict.mem "indirect" aggs)); [|split; assumption].
    split.
    - intros d. rewrite directs_of_set_indirect. apply Hd.
    - intros i. rewrite indirects_of_set_indirect. intros []. }
  destruct (Dict.get "indirect" aggs1) as [ind|] eqn:Hind; [|discriminate].
  cbn [bind] in Hrun.
  assert (Hinds : indirects_of aggs1 = ind).
  { unfold indirects_of, Dict.get_default. unfold Aggregates, Dict.t in *.
    now rewrite Hind. }
  destruct (negb (PyStr.mem target ind)); injection Hrun as <- _;
    apply all_entries_set; try assumption.
  destruct H1 as [H1d H1i]. split.
  - intros d. rewrite directs_of_set_indirect. apply H1d.
  - intros i. rewrite indirects_of_set_indirect. intros Hin.
    apply in_app_or in Hin. destruct Hin as [Hin|[<-|[]]]; [|assumption].
    apply H1i. now rewrite Hinds.
Qed.

Lemma add_direct_row_linked result agg_chain row result' agg_chain' :
  add_direct_row (result, agg_chain) row = Some (result', agg_chain') ->
  all_entries (linked result) agg_chain ->
  all_entries (linked result') agg_chain' /\ incl result result'.
Proof.
  unfold add_direct_row. intros Hrun Hall.
  destruct (Dict.get "raw_table_name" row) as [s|] eqn:Hs; [|discriminate].
  cbn [bind] in Hrun.
  destruct (Dict.get "agg_view_name" row) as [t|] eqn:Ht; [|discriminate].
  cbn [bind] in Hrun.
  set (ac1 := if negb (Dict.mem s agg_chain)
              then Dict.set s [("direct", []); ("indirect", [])] agg_chain
              else agg_chain) in *.
  assert (Hinc : incl result (result ++ [row])) by (intros x Hx; apply in_or_app; auto).
  assert (H1 : all_entries (linked (result ++ [row])) ac1).
  { subst ac1. destruct (negb (Dict.mem s agg_chain)).
    - apply all_entries_set; [now apply (all_linked_incl result)|].
      split; intros x [].
    - now apply (all_linked_incl result). }
  destruct (Dict.get s ac1) as [aggs|] eqn:Hget; [|discriminate]. cbn [bind] in Hrun.
  destruct (Dict.get "direct" aggs) as [d|] eqn:Hd; [|discriminate]. cbn [bind] in Hrun.
  injection Hrun as <- <-. split; [|assumption].
  apply all_entries_set; [assumption|].
  destruct (H1 _ _ Hget) as [H1d H1i]. split.
  - intros x. unfold directs_of, Dict.get_default. rewrite DictFacts.get_set_eq.
    intros Hx. apply in_app_or in Hx. destruct Hx as [Hx|[<-|[]]].
    + apply H1d. unfold directs_of, Dict.get_default.
      unfold Aggregates, Dict.t in *. now rewrite Hd.
    + exists row. split; [apply in_or_app; right; now left | split; assumption].
  - intros i. unfold indirects_of, Dict.get_default.
    rewrite DictFacts.get_set_ne by discriminate. apply H1i.
Qed.

Lemma process_chained_linked result agg_chain chain result' agg_chain' :
  process_chained (result, agg_chain) chain = Some (result', agg_chain') ->
  all_entries (linked result) agg_chain ->
  all_entries (linked result') agg_chain'
  /\ incl result result'
  /\ (forall s t, row_edge chain s t -> rows_edge result' s t).
Proof.
  unfold process_chained. intros Hrun Hall.
  destruct (Dict.get "raw_table_name" chain) as [s|] eqn:Hs; [|discriminate].
  cbn [bind] in Hrun.
  destruct (Dict.get "agg_view_name" chain) as [t|] eqn:Ht; [|discriminate].
  cbn [bind] in Hrun.
  set (row := [("raw_table", s); ("raw_table_name", s); ("agg_view", t);
               ("agg_view_name", t); ("relationship_type", "chained")]) in *.
  assert (Hinc : incl result (result ++ [row])) by (intros x Hx; apply in_or_app; auto).
  assert (Hedge : rows_edge (result ++ [row]) s t).
  { exists row. split; [apply in_or_app; right; now left | split; reflexivity]. }
  match type of Hrun with
  | bind ?m _ = _ => destruct m as [ac|] eqn:Hloop; [|discriminate]
  end.
  cbn [bind] in Hrun. injection Hrun as <- <-.
  split; [|split; [assumption|]].
  - revert Hloop. apply for_each_preserves; [|now apply (all_linked_incl result)].
    intros ac0 base ac1 _ H0 Hbody. cbv beta in Hbody.
    destruct (Dict.get base ac0) as [aggs|] eqn:Hget; [|discriminate].
    cbn [bind] in Hbody.
    destruct (Dict.get "direct" aggs) as [d|] eqn:Hd; [|discriminate].
    cbn [bind] in Hbody.
    destruct (PyStr.mem s d) eqn:Hm; [|now injection Hbody as <-].
    destruct (link_indirect t ac0 base) as [[ac' b]|] eqn:Hl; [|discriminate].
    cbn [bind fst] in Hbody. injection Hbody as <-.
    apply (link_indirect_linked _ _ _ _ _ _ Hl H0).
    apply Relation_Operators.rt1n_trans with (y := s).
    + apply (proj1 (H0 _ _ Hget)). unfold directs_of, Dict.get_default.
      unfold Aggregates, Dict.t in *. rewrite Hd. now apply PyStrFacts.mem_In.
    + apply Relation_Operators.rt1n_trans with (y := t); [assumption | constructor].
  - intros s' t' [Hs' Ht']. rewrite Hs in Hs'. rewrite Ht in Ht'.
    injection Hs' as <-. injection Ht' as <-. assumption.
Qed.

Lemma chained_loop_linked rows : forall result agg_chain result' agg_chain',
  for_each process_chained rows (result, agg_chain) = Some (result', agg_chain') ->
  all_entries (linked result) agg_chain ->
  all_entries (linked result') agg_chain'
  /\ incl result result'
  /\ (forall chain s t, In chain rows -> row_edge chain s t -> rows_edge result' s t).
Proof.
  induction rows as [|row rows IH]; intros result agg_chain result' agg_chain' Hrun Hall.
  - injection Hrun as <- <-. split; [assumption|]. split; [apply incl_refl|].
    intros c s t [].
  - cbn [for_each] in Hrun.
    destruct (process_chained (result, agg_chain) row) as [[r1 ac1]|] eqn:E;
      [|discriminate].
    cbn [bind] in Hrun.
    destruct (process_chained_linked _ _ _ _ _ E Hall) as [H1 [I1 E1]].
    destruct (IH _ _ _ _ Hrun H1) as [H2 [I2 E2]].
    split; [assumption|]. split; [now apply incl_tran with (m := r1)|].
    intros c s t [<-|Hc] He; [|eauto].
    apply (rows_edge_incl r1); auto.
Qed.

Lemma direct_loop_linked rows : forall result agg_chain result' agg_chain',
  for_each add_direct_row rows (result, agg_chain) = Some (result', agg_chain') ->
  all_entries (linked result) agg_chain ->
  all_entries (linked result') agg_chain'.
Proof.
  induction rows as [|row rows IH]; intros result agg_chain result' agg_chain' Hrun Hall.
  - now injection Hrun as <- <-.
  - cbn [for_each] in Hrun.
    destruct (add_direct_row (result, agg_chain) row) as [[r1 ac1]|] eqn:E;
      [|discriminate].
    cbn [bind] in Hrun.
    destruct (add_direct_row_linked _ _ _ _ _ E Hall) as [H1 _]. eauto.
Qed.

Lemma deep_pass_linked rows chained_aggs agg_chain agg_chain' found :
  (forall chain s t, In chain chained_aggs -> row_edge chain s t -> rows_edge rows s t) ->
  deep_pass chained_aggs agg_chain = Some (agg_chain', found) ->
  all_entries (linked rows) agg_chain ->
  all_entries (linked rows) agg_chain'.
Proof.
  intros Hrows Hrun Hall. unfold deep_pass in Hrun.
  change (all_entries (linked rows) (fst (agg_chain', found))).
  revert Hrun.
  apply (for_each_preserves (fun st : AggChain * nat => all_entries (linked rows) (fst st)));
    [|assumption].
  intros [ac n] chain st1 Hin Hac Hbody. cbv beta in Hbody. cbn [fst] in *.
  destruct (Dict.get "raw_table_name" chain) as [s|] eqn:Hs; [|discriminate].
  cbn [bind] in Hbody.
  destruct (Dict.get "agg_view_name" chain) as [t|] eqn:Ht; [|discriminate].
  cbn [bind] in Hbody.
  assert (Hedge : rows_edge rows s t) by (apply (Hrows chain); [assumption | now split]).
  revert Hbody.
  apply (for_each_preserves (fun st : AggChain * nat => all_entries (linked rows) (fst st)));
    [|assumption].
  intros [ac0 n0] base st2 _ H0 Hbody. cbv beta iota in Hbody. cbn [fst] in *.
  destruct (Dict.get base ac0) as [aggs|] eqn:Hget; [|discriminate].
  cbn [bind] in Hbody.
  destruct (PyStr.mem s (Dict.get_default "indirect" [] aggs)) eqn:Hm;
    [|now injection Hbody as <-].
  destruct (link_indirect t ac0 base) as [[ac' b]|] eqn:Hl; [|discriminate].
  cbn [bind fst snd] in Hbody. injection Hbody as <-. cbn [fst].
  apply (link_indirect_linked _ _ _ _ _ _ Hl H0).
  apply reach_step_r with (b := s); [|assumption].
  apply (proj2 (H0 _ _ Hget)). now apply PyStrFacts.mem_In.
Qed.

Lemma deep_passes_linked rows chained_aggs passes : forall agg_chain agg_chain',
  (forall chain s t, In chain chained_aggs -> row_edge chain s t -> rows_edge rows s t) ->
  deep_passes passes chained_aggs agg_chain = Some agg_chain' ->
  all_entries (linked rows) agg_chain ->
  all_entries (linked rows) agg_chain'.
Proof.
  induction passes as [|passes IH]; intros agg_chain agg_chain' Hrows Hrun Hall;
    simpl in Hrun.
  - now injection Hrun as <-.
  - destruct (deep_pass chained_aggs agg_chain) as [[ac n]|] eqn:E; [|discriminate].
    cbn [bind fst snd] in Hrun.
    pose proof (deep_pass_linked _ _ _ _ _ Hrows E Hall) as H1.
    destruct (Nat.eqb n 0); [now injection Hrun as <- | eauto].
Qed.

(** The lists of the collector against the graph it builds. *)
Lemma collected_linked direct_aggs vd c table aggs :
  get_all_continuous_aggregates direct_aggs vd [] = Some c ->
  Dict.get table (agg_chain_of c) = Some aggs ->
  (forall d, In d (directs_of aggs) -> edge_in (dependency_graph_of c) table d)
  /\ (forall i, In i (indirects_of aggs) -> reachable (dependency_graph_of c) table i).
Proof.
  unfold get_all_continuous_aggregates. intros Hrun Hget.
  destruct (for_each add_direct_row direct_aggs ([], [])) as [[r1 ac1]|] eqn:E1;
    [|discriminate].
  cbn [bind] in Hrun. cbv zeta in Hrun.
  destruct (for_each process_chained (find_chained vd) (r1, ac1)) as [[r2 ac2]|] eqn:E2;
    [|discriminate].
  cbn [bind] in Hrun.
  destruct (deep_passes 3 (find_chained vd) ac2) as [ac3|] eqn:E3; [|discriminate].
  cbn [bind health_metrics_chain] in Hrun. injection Hrun as <-.
  cbn [agg_chain_of dependency_graph_of] in *.
  assert (H1 : all_entries (linked r1) ac1).
  { apply (direct_loop_linked _ _ _ _ _ E1). intros k v. discriminate. }
  destruct (chained_loop_linked _ _ _ _ _ E2 H1) as [H2 [_ Hedges]].
  pose proof (deep_passes_linked r2 _ _ _ _ Hedges E3 H2) as H3.
  destruct (H3 _ _ Hget) as [Hd Hi].
  split.
  - intros d Hin. apply build_graph_edges. exact (Hd d Hin).
  - intros i Hin. apply (reach_mono (rows_edge r2)); [|exact (Hi i Hin)].
    intros x y Hxy. apply build_graph_edges. exact Hxy.
Qed.

(** X9. When the catalog query of step 7 returns no row, what the
    collector lists agrees with the graph it returns: every direct
    aggregate of a table is a neighbour of the table, and every indirect
    aggregate can be reached from the table. *)
Theorem collected_aggregates_are_connected direct_aggs vd c table aggs :
  get_all_continuous_aggregates direct_aggs vd [] = Some c ->
  Dict.get table (agg_chain_of c) = Some aggs ->
  (forall d, In d (directs_of aggs) -> edge_in (dependency_graph_of c) table d)
  /\ (forall i, In i (indirects_of aggs) -> reachable (dependency_graph_of c) table i).
Proof. apply collected_linked. Qed.

(** ** Collector and resolver together *)

Lemma distinct_keys_set {V} k (v : V) d :
  distinct_keys d -> distinct_keys (Dict.set k v d).
Proof.
  unfold distinct_keys. intros H. rewrite DictFacts.keys_set.
  destruct (Dict.mem k d) eqn:E; [assumption|].
  apply NoDup_app; [assumption | repeat constructor; intros [] |].
  intros x Hx [<-|[]].
  apply DictFacts.mem_keys in Hx. congruence.
Qed.

Lemma distinct_keys_get {V} k (v : V) d :
  distinct_keys d -> In (k, v) d -> Dict.get k d = Some v.
Proof.
  unfold distinct_keys. induction d as [|[k0 v0] d IH]; [intros _ []|].
  simpl. intros Hnd [[= -> ->]|Hin].
  - now rewrite String.eqb_refl.
  - apply NoDup_cons_iff in Hnd. destruct Hnd as [Hk Hnd].
    destruct (String.eqb_spec k0 k) as [->|Hne]; [|auto].
    exfalso. apply Hk. change k with (fst (k, v)). now apply in_map.
Qed.

Lemma link_indirect_distinct target agg_chain base_table agg_chain' added :
  link_indirect target agg_chain base_table = Some (agg_chain', added) ->
  distinct_keys agg_chain -> distinct_keys agg_chain'.
Proof.
  unfold link_indirect. intros Hrun H.
  destruct (Dict.get base_table agg_chain) as [aggs|]; [|discriminate].
  cbn [bind] in Hrun.
  destruct (Dict.get "indirect" _) as [ind|]; [|discriminate]. cbn [bind] in Hrun.
  destruct (negb (PyStr.mem target ind)); injection Hrun as <- _;
    now apply distinct_keys_set.
Qed.

Lemma add_direct_row_distinct st row st' :
  add_direct_row st row = Some st' ->
  distinct_keys (snd st) -> distinct_keys (snd st').
Proof.
  destruct st as [result agg_chain]. unfold add_direct_row. intros Hrun H.
  destruct (Dict.get "raw_table_name" row) as [s|]; [|discriminate].
  cbn [bind] in Hrun.
  destruct (Dict.get "agg_view_name" row) as [t|]; [|discriminate].
  cbn [bind] in Hrun.
  destruct (Dict.get s _) as [aggs|]; [|discriminate]. cbn [bind] in Hrun.
  destruct (Dict.get "direct" aggs) as [d|]; [|discriminate]. cbn [bind] in Hrun.
  injection Hrun as <-. cbn [snd] in *. apply distinct_keys_set.
  destruct (negb (Dict.mem s agg_chain)); [now apply distinct_keys_set | assumption].
Qed.

Lemma process_chained_distinct st chain st' :
  process_chained st chain = Some st' ->
  distinct_keys (snd st) -> distinct_keys (snd st').
Proof.
  destruct st as [result agg_chain]. unfold process_chained. intros Hrun H.
  destruct (Dict.get "raw_table_name" chain) as [s|]; [|discriminate].
  cbn [bind] in Hrun.
  destruct (Dict.get "agg_view_name" chain) as [t|]; [|discriminate].
  cbn [bind] in Hrun.
  match type of Hrun with
  | bind ?m _ = _ => destruct m as [ac|] eqn:Hloop; [|discriminate]
  end.
  cbn [bind] in Hrun. injection Hrun as <-. cbn [snd] in *.
  revert Hloop. apply for_each_preserves; [|assumption].
  intros ac0 base ac1 _ H0 Hbody. cbv beta in Hbody.
  destruct (Dict.get base ac0) as [aggs|]; [|discriminate]. cbn [bind] in Hbody.
  destruct (Dict.get "direct" aggs) as [d|]; [|discriminate]. cbn [bind] in Hbody.
  destruct (PyStr.mem s d); [|now injection Hbody as <-].
  destruct (link_indirect t ac0 base) as [[ac' b]|] eqn:Hl; [|discriminate].
  cbn [bind fst] in Hbody. injection Hbody as <-.
  exact (link_indirect_distinct _ _ _ _ _ Hl H0).
Qed.

Lemma deep_pass_distinct chained_aggs agg_chain agg_chain' found :
  deep_pass chained_aggs agg_chain = Some (agg_chain', found) ->
  distinct_keys agg_chain -> distinct_keys agg_chain'.
Proof.
  intros Hrun H. unfold deep_pass in Hrun.
  change (distinct_keys (fst (agg_chain', found))). revert Hrun.
  apply (for_each_preserves (fun st : AggChain * nat => distinct_keys (fst st)));
    [|assumption].
  intros [ac n] chain st1 _ Hac Hbody. cbv beta in Hbody. cbn [fst] in *.
  destruct (Dict.get "raw_table_name" chain) as [s|]; [|discriminate].
  cbn [bind] in Hbody.
  destruct (Dict.get "agg_view_name" chain) as [t|]; [|discriminate].
  cbn [bind] in Hbody. revert Hbody.
  apply (for_each_preserves (fun st : AggChain * nat => distinct_keys (fst st)));
    [|assumption].
  intros [ac0 n0] base st2 _ H0 Hbody. cbv beta iota in Hbody. cbn [fst] in *.
  destruct (Dict.get base ac0) as [aggs|]; [|discriminate]. cbn [bind] in Hbody.
  destruct (PyStr.mem s (Dict.get_default "indirect" [] aggs));
    [|now injection Hbody as <-].
  destruct (link_indirect t ac0 base) as [[ac' b]|] eqn:Hl; [|discriminate].
  cbn [bind fst snd] in Hbody. injection Hbody as <-. cbn [fst].
  exact (link_indirect_distinct _ _ _ _ _ Hl H0).
Qed.

Lemma deep_passes_distinct chained_aggs passes : forall agg_chain agg_chain',
  deep_passes passes chained_aggs agg_chain = Some agg_chain' ->
  distinct_keys agg_chain -> distinct_keys agg_chain'.
Proof.
  induction passes as [|passes IH]; intros agg_chain agg_chain' Hrun H; simpl in Hrun.
  - now injection Hrun as <-.
  - destruct (deep_pass chained_aggs agg_chain) as [[ac n]|] eqn:E; [|discriminate].
    cbn [bind fst snd] in Hrun.
    pose proof (deep_pass_distinct _ _ _ _ E H) as H1.
    destruct (Nat.eqb n 0); [now injection Hrun as <- | eauto].
Qed.

Lemma add_health_link_distinct health_views agg_chain i agg_chain' :
  add_health_link health_views agg_chain i = Some agg_chain' ->
  distinct_keys agg_chain -> distinct_keys agg_chain'.
Proof.
  unfold add_health_link. intros Hrun H.
  destruct (nth_error health_views i) as [current|]; [|discriminate].
  cbn [bind] in Hrun.
  destruct (Dict.get "health_metrics_raw" agg_chain) as [aggs|]; [|discriminate].
  cbn [bind] in Hrun.
  destruct (_ && _); [|now injection Hrun as <-].
  destruct (Dict.get "indirect" _) as [ind|]; [|discriminate]. cbn [bind] in Hrun.
  injection Hrun as <-. now apply distinct_keys_set.
Qed.

Lemma health_metrics_chain_distinct caggs agg_chain agg_chain' :
  health_metrics_chain caggs agg_chain = Some agg_chain' ->
  distinct_keys agg_chain -> distinct_keys agg_chain'.
Proof.
  unfold health_metrics_chain. intros Hrun H.
  destruct caggs as [|c caggs]; [now injection Hrun as <-|].
  destruct (2 <=? _)%nat; [|now injection Hrun as <-].
  destruct (Dict.mem _ _); [|now injection Hrun as <-].
  revert Hrun. apply for_each_preserves; [|assumption].
  intros ac i ac1 _ H0 Hbody. exact (add_health_link_distinct _ _ _ _ Hbody H0).
Qed.

(** The collector returns an [agg_chain] with one entry per table. *)
Lemma collected_tables_are_distinct direct_aggs vd caggs c :
  get_all_continuous_aggregates direct_aggs vd caggs = Some c ->
  NoDup (Dict.keys (agg_chain_of c)).
Proof.
  unfold get_all_continuous_aggregates. intros Hrun.
  destruct (for_each add_direct_row direct_aggs ([], [])) as [st1|] eqn:E1;
    [|discriminate].
  cbn [bind] in Hrun. cbv zeta in Hrun.
  destruct (for_each process_chained (find_chained vd) st1) as [[r2 ac2]|] eqn:E2;
    [|discriminate].
  cbn [bind] in Hrun.
  destruct (deep_passes 3 (find_chained vd) ac2) as [ac3|] eqn:E3; [|discriminate].
  cbn [bind] in Hrun.
  destruct (health_metrics_chain caggs ac3) as [ac4|] eqn:E4; [|discriminate].
  cbn [bind] in Hrun. injection Hrun as <-. cbn [agg_chain_of].
  apply (health_metrics_chain_distinct _ _ _ E4).
  apply (deep_passes_distinct _ _ _ _ E3).
  change (distinct_keys (snd (r2, ac2))).
  revert E2. apply (for_each_preserves (fun st => distinct_keys (snd st))).
  { intros s x s1 _ Hs Hb. exact (process_chained_distinct _ _ _ Hb Hs). }
  revert E1. apply (for_each_preserves (fun st => distinct_keys (snd st))).
  { intros s x s1 _ Hs Hb. exact (add_direct_row_distinct _ _ _ Hb Hs). }
  constructor.
Qed.

(** What step 5 leaves in every entry when a graph is given. *)
Lemma build_graph_verified agg_chain vd graph cc table chain view e :
  build_aggregate_chains agg_chain vd (Some graph) = Some cc ->
  Dict.get table cc = Some chain ->
  Dict.get view chain = Some e ->
  graph_verified graph table view e.
Proof.
  unfold build_aggregate_chains. intros Hrun Htable Hview.
  destruct (reconcile vd _) as [cc1|]; [|discriminate]. cbn [bind] in Hrun.
  destruct graph as [|n graph].
  - intros Hne p Hpath. apply find_path_empty_graph in Hpath. congruence.
  - exact (graph_correct_effect _ _ _ Hrun _ _ Htable _ _ Hview).
Qed.

(** X10. Collector and resolver together (no catalog rows in step 7):
    for every view of a resolved chain other than the base table, the path
    finder has a path from the table to the view, and the resolved level
    is the number of edges of that path. *)
Theorem pipeline_levels_are_hop_counts direct_aggs vd c cc table chain view e :
  get_all_continuous_aggregates direct_aggs vd [] = Some c ->
  build_aggregate_chains (agg_chain_of c) (view_definitions_of c)
    (Some (dependency_graph_of c)) = Some cc ->
  Dict.get table cc = Some chain ->
  Dict.get view chain = Some e ->
  view <> table ->
  exists p,
    find_path_in_graph (dependency_graph_of c) table view None = Some p
    /\ walk (dependency_graph_of c) p
    /\ hd_error p = Some table
    /\ last p table = view
    /\ level e = (Z.of_nat (length p) - 1)%Z.
Proof.
  intros Hc Hrun Htable Hview Hne.
  assert (Hk : In view (Dict.keys chain)) by (apply DictFacts.get_Some_keys; eauto).
  destruct (chain_views_admitted _ _ _ _ _ _ _ Hrun Htable Hk) as [aggs [Hin Hadm]].
  pose proof (collected_tables_are_distinct _ _ _ _ Hc) as Hnd.
  pose proof (distinct_keys_get _ _ _ Hnd Hin) as Hget.
  destruct (collected_linked _ _ _ _ _ Hc Hget) as [Hd Hi].
  assert (Hreach : reachable (dependency_graph_of c) table view).
  { destruct Hadm as [H|[H _]]; [|now apply Hi].
    apply Relation_Operators.rt1n_trans with (y := view); [now apply Hd | constructor]. }
  apply find_path_iff_reachable in Hreach. destruct Hreach as [p Hp].
  exists p. split; [assumption|].
  destruct (find_path_is_simple_walk _ _ _ _ Hp) as [Hhd [Hl [Hw _]]].
  repeat split; auto.
  exact (proj1 (build_graph_verified _ _ _ _ _ _ _ _ Hrun Htable Hview Hne p Hp)).
Qed.

(** ** The statements above on the scenarios *)

Lemma find_path_sound_witness :
  hd_error ["A"; "B"; "C"] = Some "A"
  /\ last ["A"; "B"; "C"] "A" = "C"
  /\ walk Scenario.line_graph ["A"; "B"; "C"]
  /\ NoDup ["A"; "B"; "C"].
Proof.
  apply (find_path_sound Scenario.line_graph "A" "C" ["A"; "B"; "C"]).
  reflexivity.
Defined.

Lemma levels_are_positive_witness : (1 <= level (mkEntry 3 "agg_b" []))%Z.
Proof.
  apply (levels_are_positive Scenario.override_chain Scenario.override_defs
           (Some Scenario.override_graph)
           [("raw", [("agg_a", mkEntry 1 "raw" ["agg_c"]);
                     ("agg_c", mkEntry 3 "agg_b" [])])]
           "raw"
           [("agg_a", mkEntry 1 "raw" ["agg_c"]); ("agg_c", mkEntry 3 "agg_b" [])]
           "agg_c"); reflexivity.
Defined.

Lemma heuristic_links_stay_in_chain_witness :
  (source (mkEntry 2 "agg_b" []) = "raw"
   \/ In (source (mkEntry 2 "agg_b" [])) (Dict.keys tie_result))
  /\ (forall child, In child (children (mkEntry 2 "agg_b" [])) ->
                    In child (Dict.keys tie_result)).
Proof.
  apply (heuristic_links_stay_in_chain Scenario.tie_chain Scenario.tie_defs
           [("raw", tie_result)] "raw" tie_result "agg_c"); reflexivity.
Defined.

Lemma direct_aggregate_is_kept_witness :
  exists cc chain e,
    build_aggregate_chains Scenario.tie_chain Scenario.tie_defs None = Some cc
    /\ Dict.get "raw" cc = Some chain
    /\ Dict.get "agg_b" chain = Some e.
Proof.
  apply (direct_aggregate_is_kept Scenario.tie_chain Scenario.tie_defs None "raw"
           [("direct", ["agg_a"; "agg_b"]); ("indirect", ["agg_c"])] "agg_b").
  - simpl. auto.
  - simpl. auto.
Defined.

Lemma collector_never_raises_witness :
  exists c,
    get_all_continuous_aggregates [Scenario.direct_row "raw" "agg_1min"]
      Scenario.three_level_defs [] = Some c
    /\ forall table aggs,
         Dict.get table (agg_chain_of c) = Some aggs ->
         (exists d, Dict.get "direct" aggs = Some d /\ d <> [])
         /\ (exists i, Dict.get "indirect" aggs = Some i /\ NoDup i).
Proof.
  apply (collector_never_raises [Scenario.direct_row "raw" "agg_1min"]
           Scenario.three_level_defs []).
  intros row [<-|[]]. split; eexists; reflexivity.
Defined.

Lemma collected_aggregates_are_connected_witness :
  (forall d, In d ["agg_1min"] ->
             edge_in (dependency_graph_of three_level_collected) "raw" d)
  /\ (forall i, In i ["agg_1hour"; "agg_1day"] ->
                reachable (dependency_graph_of three_level_collected) "raw" i).
Proof.
  apply (collected_aggregates_are_connected [Scenario.direct_row "raw" "agg_1min"]
           Scenario.three_level_defs three_level_collected "raw"
           [("direct", ["agg_1min"]); ("indirect", ["agg_1hour"; "agg_1day"])]);
    reflexivity.
Defined.

Lemma pipeline_levels_are_hop_counts_witness :
  exists p,
    find_path_in_graph (dependency_graph_of three_level_collected)
      "raw" "agg_1day" None = Some p
    /\ walk (dependency_graph_of three_level_collected) p
    /\ hd_error p = Some "raw"
    /\ last p "raw" = "agg_1day"
    /\ level (mkEntry 3 "agg_1hour" []) = (Z.of_nat (length p) - 1)%Z.
Proof.
  apply (pipeline_levels_are_hop_counts [Scenario.direct_row "raw" "agg_1min"]
           Scenario.three_level_defs three_level_collected
           [("raw", three_level_result)] "raw" three_level_result "agg_1day").
  - reflexivity.
  - reflexivity.
  - reflexivity.
  - reflexivity.
  - discriminate.
Defined.

(** ** The health score *)

(** X11. Unless the average of the slow queries raises, the health score
    is 100 minus the deductions and lies between 30 and 100, so the final
    [max(score, 0)] never changes it; it is 100 exactly when neither an
    issue nor a warning is reported.  When the average raises, the score
    is [None] with the one issue that it could not be calculated. *)
Theorem health_score_bounds {I T H Q A} (average : list Q -> option A)
    (above_1000 : A -> bool) (format_1f : A -> string)
    (unused : list I) (bloated : list T) (uncompressed : list H) (slow : list Q) :
  let info :=
    get_database_health_score average above_1000 format_1f
      unused bloated uncompressed slow in
  match slow_finding average above_1000 slow with
  | Some found =>
      exists s, score info = Some s
      /\ s = (100 - deductions (length unused) (length bloated) (length uncompressed)
                      found)%Z
      /\ (30 <= s <= 100)%Z
      /\ (s = 100%Z <-> issues info = [] /\ warnings info = [])
  | None =>
      info = mkHealth None ["Unable to calculate health score"] []
  end.
Proof.
  intros info. subst info. unfold get_database_health_score, slow_finding, deductions.
  destruct slow as [|q qs].
  - destruct unused as [|u us], bloated as [|b bs], uncompressed as [|c cs];
      cbn [score issues warnings length Nat.ltb Nat.leb app];
      (eexists; split; [reflexivity|]); (split; [lia|]); (split; [lia|]);
      (split; [intros Hs; try (exfalso; lia); split; reflexivity
              | intros [H1 H2]; try discriminate; lia]).
  - destruct (average (q :: qs)) as [avg|]; cbn [option_map].
    + destruct (above_1000 avg);
        destruct unused as [|u us], bloated as [|b bs], uncompressed as [|c cs];
        cbn [score issues warnings length Nat.ltb Nat.leb app];
        (eexists; split; [reflexivity|]); (split; [lia|]); (split; [lia|]);
        (split; [intros Hs; try (exfalso; lia); split; reflexivity
                | intros [H1 H2]; try discriminate; lia]).
    + destruct unused, bloated, uncompressed; reflexivity.
Qed.

(** ** The chain formatter *)





























(** ** The aggregates of one table *)

Lemma split_on_nonempty sep s : split_on sep s <> [].
Proof.
  destruct s as [|c s]; simpl; [discriminate|].
  destruct (Ascii.eqb c sep); [discriminate|].
  destruct (split_on sep s); discriminate.
Qed.

Lemma concat_cons sep (x y : string) l :
  String.concat sep (x :: y :: l) = (x ++ sep ++ String.concat sep (y :: l))%string.
Proof. reflexivity. Qed.

(** [sep.join(s.split(sep)) == s] *)
Lemma split_on_join sep s :
  String.concat (String sep EmptyString) (split_on sep s) = s.
Proof.
  induction s as [|c s IH]; [reflexivity|].
  pose proof (split_on_nonempty sep s) as Hn.
  cbn [split_on]. destruct (Ascii.eqb_spec c sep) as [->|Hne].
  - destruct (split_on sep s) as [|p ps]; [contradiction|].
    rewrite concat_cons, IH. reflexivity.
  - destruct (split_on sep s) as [|p ps]; [contradiction|].
    destruct ps as [|p' ps'].
    + simpl in IH. subst p. reflexivity.
    + rewrite concat_cons in *. rewrite <- IH. reflexivity.
Qed.

Lemma contains_char_cons sep c s :
  PyStr.contains (String sep EmptyString) (String c s)
  = Ascii.eqb sep c || PyStr.contains (String sep EmptyString) s.
Proof.
  cbn [PyStr.contains String.prefix].
  destruct (Ascii.ascii_dec sep c) as [->|Hne].
  - rewrite Ascii.eqb_refl. now destruct s.
  - apply Ascii.eqb_neq in Hne. now rewrite Hne.
Qed.

Lemma split_on_parts sep s :
  Forall (fun part => PyStr.contains (String sep EmptyString) part = false)
    (split_on sep s).
Proof.
  induction s as [|c s IH]; [repeat constructor|].
  cbn [split_on]. destruct (Ascii.eqb_spec c sep) as [->|Hne].
  - constructor; [reflexivity | exact IH].
  - destruct (split_on sep s) as [|p ps]; [repeat constructor|].
    + rewrite contains_char_cons. apply orb_false_iff. split; [|reflexivity].
      apply Ascii.eqb_neq. congruence.
    + inversion IH as [|? ? Hp Hps]; subst. constructor; [|exact Hps].
      rewrite contains_char_cons, Hp. apply orb_false_iff. split; [|reflexivity].
      apply Ascii.eqb_neq. congruence.
Qed.

Lemma string_append_assoc (a b c : string) :
  (a ++ (b ++ c) = (a ++ b) ++ c)%string.
Proof. induction a as [|x a IH]; simpl; [reflexivity | now rewrite IH]. Qed.

Lemma concat_last sep (parts : list string) d :
  parts <> [] ->
  exists before, String.concat sep parts = (before ++ last parts d)%string.
Proof.
  induction parts as [|p ps IH]; intros Hne; [contradiction|].
  destruct ps as [|p' ps'].
  - now exists "".
  - destruct IH as [before Hb]; [discriminate|].
    exists (p ++ sep ++ before)%string.
    change (last (p :: p' :: ps') d) with (last (p' :: ps') d).
    rewrite concat_cons, Hb.
    now rewrite <- !string_append_assoc.
Qed.

(** [s.split(sep)[-1]] is the text after the last separator. *)
Lemma split_on_last sep s :
  PyStr.contains (String sep EmptyString) (last (split_on sep s) s) = false
  /\ exists before, s = (before ++ last (split_on sep s) s)%string.
Proof.
  pose proof (split_on_nonempty sep s) as Hn. split.
  - pose proof (split_on_parts sep s) as Hp. rewrite Forall_forall in Hp.
    apply Hp. destruct (split_on sep s) as [|p ps]; [contradiction|].
    rewrite (last_nonempty_default p ps s p).
    apply (@exists_last _ (p :: ps)) in Hn. destruct Hn as [l' [a Ha]].
    rewrite Ha, last_last. apply in_or_app. right. now left.
  - destruct (concat_last (String sep EmptyString) (split_on sep s) s Hn) as [b Hb].
    exists b. rewrite <- Hb. symmetry. apply split_on_join.
Qed.

Lemma concat_last_after sep (p p' : string) (ps : list string) d :
  exists before,
    String.concat sep (p :: p' :: ps)
    = (before ++ sep ++ last (p :: p' :: ps) d)%string.
Proof.
  revert p p'. induction ps as [|q qs IH]; intros p p'.
  - now exists p.
  - destruct (IH p' q) as [before Hb].
    exists (p ++ sep ++ before)%string.
    change (last (p :: p' :: q :: qs) d) with (last (p' :: q :: qs) d).
    rewrite concat_cons, Hb. now rewrite <- !string_append_assoc.
Qed.

(** When the separator occurs, [s.split(sep)[-1]] is what follows its last
    occurrence. *)
Lemma split_on_last_after sep s :
  PyStr.contains (String sep EmptyString) s = true ->
  PyStr.contains (String sep EmptyString) (last (split_on sep s) s) = false
  /\ exists before,
       s = (before ++ String sep EmptyString ++ last (split_on sep s) s)%string.
Proof.
  intros Hc. split; [apply split_on_last|].
  pose proof (split_on_join sep s) as Hj.
  pose proof (split_on_parts sep s) as Hp.
  destruct (split_on sep s) as [|p [|p' ps]] eqn:E.
  - now apply split_on_nonempty in E.
  - simpl in Hj. subst p. inversion Hp as [|? ? Hs _]; subst. congruence.
  - destruct (concat_last_after (String sep EmptyString) p p' ps s) as [before Hb].
    exists before. rewrite <- Hb. now symmetry.
Qed.

Lemma add_fallback_row_names direct agg n :
  In n (add_fallback_row direct agg) ->
  In n direct
  \/ Dict.get "view_short_name" agg = Some n
  \/ (Dict.get "view_short_name" agg = None
      /\ exists view_name,
           Dict.get "view_name" agg = Some view_name
           /\ PyStr.contains "." n = false
           /\ (n = view_name
               \/ exists schema, view_name = (schema ++ "." ++ n)%string)).
Proof.
  unfold add_fallback_row, Dict.mem.
  destruct (Dict.get "view_short_name" agg) as [short|] eqn:E.
  - intros H. apply in_app_or in H. destruct H as [H|[<-|[]]]; auto.
  - destruct (Dict.get "view_name" agg) as [v|] eqn:Ev; [|auto].
    cbv zeta. intros H. apply in_app_or in H. destruct H as [H|[<-|[]]]; [auto|].
    right. right. split; [reflexivity|]. exists v. split; [reflexivity|].
    destruct (PyStr.contains "." v) eqn:Ec.
    + destruct (split_on_last_after "." v Ec) as [Hn [schema Hs]].
      split; [exact Hn|]. right. now exists schema.
    + split; [exact Ec | now left].
Qed.

(** X14. Every name that the fallback loop lists comes from a row of the
    fallback query: its [view_short_name], or else the text after the
    last dot of its [view_name]: it holds no dot and is the whole
    [view_name] or what follows a dot in it. *)
Theorem fallback_names_are_unqualified (direct_aggs : list Row) (n : string) :
  In n (fold_left add_fallback_row direct_aggs []) ->
  exists agg, In agg direct_aggs
    /\ (Dict.get "view_short_name" agg = Some n
        \/ (Dict.get "view_short_name" agg = None
            /\ exists view_name,
                 Dict.get "view_name" agg = Some view_name
                 /\ PyStr.contains "." n = false
                 /\ (n = view_name
                     \/ exists schema, view_name = (schema ++ "." ++ n)%string))).
Proof.
  assert (G : forall rows direct,
    In n (fold_left add_fallback_row rows direct) ->
    In n direct
    \/ exists agg, In agg rows
         /\ (Dict.get "view_short_name" agg = Some n
             \/ (Dict.get "view_short_name" agg = None
                 /\ exists view_name,
                      Dict.get "view_name" agg = Some view_name
                      /\ PyStr.contains "." n = false
                      /\ (n = view_name
                          \/ exists schema, view_name = (schema ++ "." ++ n)%string)))).
  { induction rows as [|row rows IH]; intros direct; cbn [fold_left]; [auto|].
    intros H. apply IH in H. destruct H as [H|[agg [Hin Hagg]]].
    - apply add_fallback_row_names in H. destruct H as [H|H]; [auto|].
      right. exists row. split; [now left | exact H].
    - right. exists agg. split; [now right | exact Hagg]. }
  intros H. apply G in H. destruct H as [[]|H]. exact H.
Qed.

(** X13. On what the collector returns for rows that have both names,
    the lookup of a table never raises; for a table of the collected
    chain it returns the collected direct and indirect lists, the direct
    one not empty, whatever the fallback query returns, and for any
    other table it lists no indirect aggregate. *)
Theorem collected_table_aggregates direct_aggs vd caggs :
  (forall row, In row direct_aggs -> has_both_names row) ->
  exists c,
    get_all_continuous_aggregates direct_aggs vd caggs = Some c
    /\ forall fallback table,
         exists r,
           get_continuous_aggregates_for_table fallback table c = Some r
           /\ build_aggregate_chains (agg_chain_of c) (view_definitions_of c)
                (Some (dependency_graph_of c)) = Some (complete_chains_of r)
           /\ match Dict.get table (agg_chain_of c) with
              | Some aggs =>
                  direct_of r = directs_of aggs
                  /\ indirect_of r = indirects_of aggs
                  /\ direct_of r <> []
              | None =>
                  indirect_of r = []
                  /\ (fallback = None -> direct_of r = [])
              end.
Proof.
  intros Hrows.
  destruct (collector_entries_ok direct_aggs vd caggs Hrows) as [c [Hc Hok]].
  exists c. split; [exact Hc|]. intros fallback table.
  unfold get_continuous_aggregates_for_table.
  destruct (build_aggregate_chains_total (agg_chain_of c) (view_definitions_of c)
              (Some (dependency_graph_of c))) as [cc [Hcc _]].
  rewrite Hcc. cbn [bind].
  destruct (Dict.get table (agg_chain_of c)) as [aggs|] eqn:Hget.
  - destruct (Hok _ _ Hget) as [[d [Hd Hne]] [i [Hi _]]].
    unfold directs_of, indirects_of, Dict.get_default. rewrite Hd, Hi.
    eexists. split; [reflexivity|]. cbn [complete_chains_of direct_of indirect_of].
    split; [reflexivity|].
    destruct d as [|d0 d]; [contradiction|]. repeat split. discriminate.
  - eexists. split; [reflexivity|]. cbn [complete_chains_of direct_of indirect_of].
    split; [reflexivity|]. split; [reflexivity|]. now intros ->.
Qed.

(** ** The configured strings *)

(** X15. A path whose first part is no key of the configuration yields
    the default and, without a default, the path itself; so does every
    path on the empty configuration that is used when no file loads. *)
Theorem get_string_missing_root config path default :
  Dict.mem (hd "" (split_on "." path)) config = false ->
  get_string config path default
  = Some (TStr (match default with Some d => d | None => path end)).
Proof.
  unfold get_string. pose proof (split_on_nonempty "." path) as Hn.
  destruct (split_on "." path) as [|part parts]; [contradiction|].
  cbn [hd navigate py_in bind]. now intros ->.
Qed.

(** X16. A path that goes on after a text value raises when its next
    part occurs in that text, and yields the default otherwise. *)
Theorem get_string_through_text config path default key text part parts :
  split_on "." path = key :: part :: parts ->
  Dict.get key config = Some (TStr text) ->
  get_string config path default
  = if PyStr.contains part text then None
    else Some (TStr (match default with Some d => d | None => path end)).
Proof.
  unfold get_string. intros -> Hget.
  cbn [navigate py_in py_item bind]. unfold Dict.mem. rewrite Hget.
  cbn [navigate py_in py_item bind].
  now destruct (PyStr.contains part text).
Qed.

(** ** The statements on the report functions, on the scenarios *)


Lemma collected_table_aggregates_witness :
  exists c,
    get_all_continuous_aggregates [Scenario.direct_row "raw" "agg_1min"]
      Scenario.three_level_defs [] = Some c
    /\ forall fallback table,
         exists r,
           get_continuous_aggregates_for_table fallback table c = Some r
           /\ build_aggregate_chains (agg_chain_of c) (view_definitions_of c)
                (Some (dependency_graph_of c)) = Some (complete_chains_of r)
           /\ match Dict.get table (agg_chain_of c) with
              | Some aggs =>
                  direct_of r = directs_of aggs
                  /\ indirect_of r = indirects_of aggs
                  /\ direct_of r <> []
              | None =>
                  indirect_of r = []
                  /\ (fallback = None -> direct_of r = [])
              end.
Proof.
  apply (collected_table_aggregates [Scenario.direct_row "raw" "agg_1min"]
           Scenario.three_level_defs []).
  intros row [<-|[]]. split; eexists; reflexivity.
Defined.

Lemma fallback_names_are_unqualified_witness :
  exists agg, In agg [[("view_name", "public.agg_1min")]]
    /\ (Dict.get "view_short_name" agg = Some "agg_1min"
        \/ (Dict.get "view_short_name" agg = None
            /\ exists view_name,
                 Dict.get "view_name" agg = Some view_name
                 /\ PyStr.contains "." "agg_1min" = false
                 /\ ("agg_1min" = view_name
                     \/ exists schema, view_name = (schema ++ "." ++ "agg_1min")%string))).
Proof.
  apply (fallback_names_are_unqualified [[("view_name", "public.agg_1min")]] "agg_1min").
  simpl. auto.
Defined.

Lemma get_string_missing_root_witness :
  get_string [] "report.values.level" (Some "level") = Some (TStr "level").
Proof.
  apply (get_string_missing_root [] "report.values.level" (Some "level")).
  reflexivity.
Defined.

Lemma get_string_through_text_witness :
  get_string [("report", TStr "title")] "report.title" None
  = if PyStr.contains "title" "title" then None else Some (TStr "report.title").
Proof.
  apply (get_string_through_text [("report", TStr "title")] "report.title" None
           "report" "title" "title" []); reflexivity.
Defined.
